(** * Cache-friendly FFT: a shallow embedding and its verification

    The development follows the three source files of the package:
    [util.py] (exact base-2 logarithm), [transpose.py] (in-place square
    transpose) and [__init__.py] (interleaving helpers, the two recursive
    FFT variants, scratch sizing and the public entry point [fft]).

    Python integers are modelled as [Z] where the code relies on their
    bit operations ([lb_exact], [_scrach_length]); array shapes, strides and
    indices are natural numbers.  A numpy array is a flat buffer
    ([list A]); a numpy view is a record of an offset, a shape and strides
    (counted in elements) into that buffer.  Stateful code is written in a
    state-and-exception monad. *)

From Stdlib Require Import ZArith Lia List Ring Reals.
From stdpp Require Import base list.

(** ** Exceptions and outcomes *)

(** The exception classes the code can raise.  [ValueError] is what
    [lb_exact] raises on a length that is not a power of two (the
    "invalid length" condition); [AssertionError] comes from [assert];
    [IndexError] from an index outside a view's shape; [AttributeError]
    from using [None] as an array or from an in-place reshape numpy cannot
    do without copying. *)
Inductive exn : Type :=
| ValueError
| AssertionError
| IndexError
| AttributeError.

(** [OutOfFuel] is not a Python outcome: it marks a run of the model whose
    recursion budget was too small. *)
Inductive outcome (X : Type) : Type :=
| Ok (x : X)
| Raise (e : exn)
| OutOfFuel.

Arguments Ok {X} x.
Arguments Raise {X} e.
Arguments OutOfFuel {X}.

(** ** util.py *)

(** [int.bit_length]: the number of bits of the absolute value. *)
Definition bit_length (n : Z) : Z :=
  if (n =? 0)%Z then 0%Z else (Z.log2 (Z.abs n) + 1)%Z.

(** [lb_exact(n)]: [log2 n], raising if [n] is not a power of two.  The
    [or] is short-circuiting, so [1 << lb] is never evaluated at a negative
    [lb]. *)
Definition lb_exact (n : Z) : outcome Z :=
  let lb := (bit_length n - 1)%Z in
  if (lb <? 0)%Z || negb (n =? Z.shiftl 1 lb)%Z
  then Raise ValueError
  else Ok lb.

(** ** Scratch sizing *)

(** The loop [while lb_n & 1 == 0: lb_n >>= 1]. *)
Fixpoint halve_while_even (fuel : nat) (lb_n : Z) : option Z :=
  match fuel with
  | O => None
  | S fuel' =>
      if (Z.land lb_n 1 =? 0)%Z
      then halve_while_even fuel' (Z.shiftr lb_n 1)
      else Some lb_n
  end.

(** [_scrach_length(lb_n)].  The loop is run with a budget of
    [|lb_n| + 1] iterations, which it never exhausts (lemma
    [halve_while_even_total]). *)
Definition _scrach_length (lb_n : Z) : outcome Z :=
  if (lb_n =? 0)%Z then Ok 0%Z
  else
    match halve_while_even (S (Z.to_nat (Z.abs lb_n))) lb_n with
    | None => OutOfFuel
    | Some lb_n' =>
        let lb_res := Z.shiftr (lb_n' - 1) 1 in
        if (lb_res =? 0)%Z then Ok 0%Z
        else if (lb_res <? 0)%Z then Raise ValueError (* negative shift count *)
        else Ok (Z.shiftl 1 lb_res)
    end.

(** ** Arrays, views and the state monad *)

Section Memory.

Context {A : Type}.

(** The two arrays a run of the core can reach: the working buffer and the
    scratch array ([None] when [fft] passes [scratch = None]). *)
Record state : Type := mkState {
  buf : list A;
  scratch : option (list A)
}.

Definition M (X : Type) : Type := state -> outcome X * state.

Definition ret {X} (x : X) : M X := fun s => (Ok x, s).

Definition raise {X} (e : exn) : M X := fun s => (Raise e, s).

Definition out_of_fuel {X} : M X := fun s => (OutOfFuel, s).

Definition bind {X Y} (m : M X) (k : X -> M Y) : M Y :=
  fun s =>
    match m s with
    | (Ok x, s') => k x s'
    | (Raise e, s') => (Raise e, s')
    | (OutOfFuel, s') => (OutOfFuel, s')
    end.

Definition lift {X} (o : outcome X) : M X := fun s => (o, s).

Definition assert (b : bool) : M unit :=
  if b then ret tt else raise AssertionError.

End Memory.

Arguments state A : clear implicits.
Arguments M A X : clear implicits.

Declare Scope fft_scope.
Delimit Scope fft_scope with fft.
Notation "'let*' x ':=' m 'in' k" := (bind m (fun x => k))
  (at level 10, x name, m at level 100, k at level 200) : fft_scope.
Notation "m '>>' k" := (bind m (fun _ => k))
  (at level 100, k at level 200, right associativity) : fft_scope.
Open Scope fft_scope.

(** A one-dimensional view of the working buffer: element [i] lives at
    buffer position [voff + i * vstride]. *)
Record view1 : Type := mkView1 {
  voff : nat;
  vlen : nat;
  vstride : nat
}.

(** A three-dimensional view of the working buffer, of shape
    [(sh0, sh1, sh2)] and strides [(st0, st1, st2)]. *)
Record view3 : Type := mkView3 {
  off3 : nat;
  sh0 : nat; sh1 : nat; sh2 : nat;
  st0 : nat; st1 : nat; st2 : nat
}.

Definition vpos (x : view1) (i : nat) : nat := voff x + i * vstride x.

Definition pos3 (a : view3) (i j l : nat) : nat :=
  off3 a + i * st0 a + j * st1 a + l * st2 a.

Section Views.

Context {A : Type}.

(** [for i in range(n): body(i)]. *)
Fixpoint for_from (i n : nat) (body : nat -> M A unit) : M A unit :=
  match n with
  | O => ret tt
  | S n' => body i >> for_from (S i) n' body
  end.

Definition for_range (n : nat) (body : nat -> M A unit) : M A unit :=
  for_from 0 n body.

(** [x[i]] as an expression.  An index outside the shape is an
    [IndexError]; a view that leaves its buffer cannot be built in numpy,
    the model reports it as an [IndexError] too. *)
Definition rd (x : view1) (i : nat) : M A A :=
  fun s =>
    if i <? vlen x then
      match buf s !! vpos x i with
      | Some v => (Ok v, s)
      | None => (Raise IndexError, s)
      end
    else (Raise IndexError, s).

(** [x[i] = v]. *)
Definition wr (x : view1) (i : nat) (v : A) : M A unit :=
  fun s =>
    if (i <? vlen x) && (vpos x i <? length (buf s)) then
      (Ok tt, mkState (<[vpos x i := v]> (buf s)) (scratch s))
    else (Raise IndexError, s).

(** [scratch[i]] and [scratch[i] = v], where [scratch] has been cut to
    [scratch[:n]]. *)
Definition rd_scratch (n i : nat) : M A A :=
  fun s =>
    match scratch s with
    | None => (Raise AttributeError, s)
    | Some sc =>
        if i <? Nat.min n (length sc) then
          match sc !! i with
          | Some v => (Ok v, s)
          | None => (Raise IndexError, s)
          end
        else (Raise IndexError, s)
    end.

Definition wr_scratch (n i : nat) (v : A) : M A unit :=
  fun s =>
    match scratch s with
    | None => (Raise AttributeError, s)
    | Some sc =>
        if i <? Nat.min n (length sc) then
          (Ok tt, mkState (buf s) (Some (<[i := v]> sc)))
        else (Raise IndexError, s)
    end.

(** [scratch.shape[0]]. *)
Definition scratch_len : M A nat :=
  fun s =>
    match scratch s with
    | None => (Raise AttributeError, s)
    | Some sc => (Ok (length sc), s)
    end.

(** Slices of a one-dimensional view: [x[:k]] and [x[k:]] (slices clip). *)
Definition take1 (k : nat) (x : view1) : view1 :=
  mkView1 (voff x) (Nat.min k (vlen x)) (vstride x).

Definition drop1 (k : nat) (x : view1) : view1 :=
  mkView1 (voff x + Nat.min k (vlen x) * vstride x) (vlen x - k) (vstride x).

(** ** __init__.py: interleaving *)

(** [_interleave(x, scratch)]. *)
Definition _interleave (x : view1) : M A unit :=
  let* slen := scratch_len in
  let n := vlen x in
  assert (n mod 2 =? 0) >>
  let half_n := n / 2 in
  assert (half_n <=? slen) >>
  (* scratch[:] = x[:half_n] *)
  for_range half_n (fun i =>
    let* v := rd (take1 half_n x) i in wr_scratch half_n i v) >>
  for_range half_n (fun i =>
    let* v := rd_scratch half_n i in
    wr x (2 * i) v >>
    let* w := rd x (half_n + i) in
    wr x (2 * i + 1) w).

(** [_deinterleave(x, scratch)]. *)
Definition _deinterleave (x : view1) : M A unit :=
  let* slen := scratch_len in
  let n := vlen x in
  assert (n mod 2 =? 0) >>
  let half_n := n / 2 in
  assert (half_n <=? slen) >>
  for_range half_n (fun i =>
    let* v := rd x (2 * i) in
    wr x i v >>
    let* w := rd x (2 * i + 1) in
    wr_scratch half_n i w) >>
  (* x[half_n:] = scratch *)
  for_range half_n (fun i =>
    let* v := rd_scratch half_n i in wr (drop1 half_n x) i v).

End Views.

(** ** transpose.py *)

(** Slices of a three-dimensional view along its first two axes. *)
Definition rows_to (h : nat) (a : view3) : view3 :=
  mkView3 (off3 a) (Nat.min h (sh0 a)) (sh1 a) (sh2 a) (st0 a) (st1 a) (st2 a).

Definition rows_from (h : nat) (a : view3) : view3 :=
  mkView3 (off3 a + Nat.min h (sh0 a) * st0 a)
          (sh0 a - h) (sh1 a) (sh2 a) (st0 a) (st1 a) (st2 a).

Definition cols_to (h : nat) (a : view3) : view3 :=
  mkView3 (off3 a) (sh0 a) (Nat.min h (sh1 a)) (sh2 a) (st0 a) (st1 a) (st2 a).

Definition cols_from (h : nat) (a : view3) : view3 :=
  mkView3 (off3 a + Nat.min h (sh1 a) * st1 a)
          (sh0 a) (sh1 a - h) (sh2 a) (st0 a) (st1 a) (st2 a).

(** [a[:h, :h]], [a[:h, h:]], [a[h:, :h]] and [a[h:, h:]]. *)
Definition top_left (h : nat) (a : view3) : view3 := cols_to h (rows_to h a).
Definition top_right (h : nat) (a : view3) : view3 := cols_from h (rows_to h a).
Definition bottom_left (h : nat) (a : view3) : view3 := cols_to h (rows_from h a).
Definition bottom_right (h : nat) (a : view3) : view3 := cols_from h (rows_from h a).

(** [a[i, j]]: the [m]-vector stored in one cell of the matrix. *)
Definition cell (a : view3) (i j : nat) : view1 :=
  mkView1 (pos3 a i j 0) (sh2 a) (st2 a).

Section Transpose.

Context {A : Type}.

(** [_swap_transpose_square(a, b)].  [len(a.shape) == len(b.shape) == 3]
    holds by the type of the arguments. *)
Fixpoint _swap_transpose_square_rec (fuel : nat) (a b : view3) : M A unit :=
  match fuel with
  | O => out_of_fuel
  | S fuel' =>
      let n := sh0 a in
      let m := sh2 a in
      assert ((n =? sh1 a) && (sh1 a =? sh0 b) && (sh0 b =? sh1 b)) >>
      assert (m =? sh2 b) >>
      if n =? 0 then ret tt
      else if n =? 1 then
        let a' := cell a 0 0 in
        let b' := cell b 0 0 in
        for_range m (fun i =>
          let* vb := rd b' i in
          let* va := rd a' i in
          wr a' i vb >> wr b' i va)
      else
        let half_n := Nat.shiftr n 1 in
        _swap_transpose_square_rec fuel' (top_left half_n a) (top_left half_n b) >>
        _swap_transpose_square_rec fuel' (top_right half_n a) (bottom_left half_n b) >>
        _swap_transpose_square_rec fuel' (bottom_left half_n a) (top_right half_n b) >>
        _swap_transpose_square_rec fuel' (bottom_right half_n a) (bottom_right half_n b)
  end.

(** [transpose_square(a)].  The test [len(a.shape) != 3] is false by the
    type of the argument. *)
Fixpoint transpose_square_rec (fuel : nat) (a : view3) : M A unit :=
  match fuel with
  | O => out_of_fuel
  | S fuel' =>
      let n := sh0 a in
      let n_ := sh1 a in
      if negb (n =? n_) then raise ValueError
      else
        let* _lb := lift (lb_exact (Z.of_nat n)) in
        if n <=? 1 then ret tt
        else
          let half_n := Nat.shiftr n 1 in
          transpose_square_rec fuel' (top_left half_n a) >>
          _swap_transpose_square_rec fuel' (top_right half_n a) (bottom_left half_n a) >>
          transpose_square_rec fuel' (bottom_right half_n a)
  end.

(** The recursion halves [n] at each level, so [n + 1] levels are more
    than enough (lemma [transpose_square_ok]). *)
Definition _swap_transpose_square (a b : view3) : M A unit :=
  _swap_transpose_square_rec (S (sh0 a)) a b.

Definition transpose_square (a : view3) : M A unit :=
  transpose_square_rec (S (sh0 a)) a.

End Transpose.

(** ** __init__.py: the recursive core *)

(** [x.shape = d0, d1, d2] on a one-dimensional view: numpy refuses a
    change of size with a [ValueError]; a one-dimensional view of uniform
    stride can always be reshaped without copying. *)
Definition reshape3 {A} (x : view1) (d0 d1 d2 : nat) : M A view3 :=
  if d0 * d1 * d2 =? vlen x
  then ret (mkView3 (voff x) d0 d1 d2
                    (d1 * d2 * vstride x) (d2 * vstride x) (vstride x))
  else raise ValueError.

(** Row [i] of [x[..., 0]]. *)
Definition row_of (x : view3) (i : nat) : view1 :=
  mkView1 (pos3 x i 0 0) (sh1 x) (st1 x).

(** Row [i] of a three-dimensional view, after [row_pair.shape = n,].
    numpy raises a [ValueError] when the size changes and an
    [AttributeError] when the two axes cannot be merged without a copy. *)
Definition row_flat {A} (x : view3) (i n : nat) : M A view1 :=
  if negb (sh1 x * sh2 x =? n) then raise ValueError
  else if st1 x =? sh2 x * st2 x
  then ret (mkView1 (pos3 x i 0 0) n (st2 x))
  else raise AttributeError.

(** [x.flags['C_CONTIGUOUS']] of a one-dimensional view. *)
Definition is_c_contiguous (x : view1) : bool :=
  (vlen x <=? 1) || (vstride x =? 1).

Section Core.

Context {A : Type}.

(** The arithmetic of the element type: [+], [-], [*] and
    [twiddle e n], which stands for [np.exp(-2j * np.pi * e / n)]. *)
Context (add sub mul : A -> A -> A) (twiddle : nat -> nat -> A).

(** [for j in range(n): row[j] *= np.exp(-2j * np.pi * (c * j) / vec_len)]. *)
Definition mul_twiddles (row : view1) (n c vec_len : nat) : M A unit :=
  for_range n (fun j =>
    let* v := rd row j in
    wr row j (mul v (twiddle (c * j) vec_len))).

(** [_fft_inplace_evenpow(x, scratch)]; [rec] is [_fft_inplace]. *)
Definition _fft_inplace_evenpow (rec : view1 -> M A unit) (x : view1)
  : M A unit :=
  let vec_len := vlen x in
  let* lb := lift (lb_exact (Z.of_nat vec_len)) in
  let n := Z.to_nat (Z.shiftl 1 (Z.shiftr lb 1)) in
  let* x3 := reshape3 x n n 1 in
  transpose_square x3 >>
  for_range (sh0 x3) (fun i =>
    let row := row_of x3 i in
    rec row >>
    mul_twiddles row n i vec_len) >>
  transpose_square x3 >>
  for_range (sh0 x3) (fun i => rec (row_of x3 i)) >>
  transpose_square x3.

(** [_fft_inplace_oddpow(x, scratch)]; [rec] is [_fft_inplace]. *)
Definition _fft_inplace_oddpow (rec : view1 -> M A unit) (x : view1)
  : M A unit :=
  let vec_len := vlen x in
  let* lb := lift (lb_exact (Z.of_nat vec_len)) in
  let col_len := Z.to_nat (Z.shiftl 1 (Z.shiftr lb 1)) in
  let row_len := Nat.shiftl col_len 1 in
  let* x3 := reshape3 x col_len col_len 2 in
  transpose_square x3 >>
  for_range (sh0 x3) (fun i =>
    let* row_pair := row_flat x3 i row_len in
    _deinterleave row_pair >>
    let row0 := take1 col_len row_pair in
    let row1 := drop1 col_len row_pair in
    rec row0 >>
    mul_twiddles row0 col_len (2 * i) vec_len >>
    rec row1 >>
    mul_twiddles row1 col_len (2 * i + 1) vec_len >>
    _interleave row_pair) >>
  transpose_square x3 >>
  for_range (sh0 x3) (fun i =>
    let* row := row_flat x3 i row_len in
    rec row) >>
  transpose_square x3 >>
  for_range (sh0 x3) (fun i =>
    let* row_pair := row_flat x3 i row_len in
    _deinterleave row_pair).

(** [_fft_inplace(x, scratch)]. *)
Fixpoint _fft_inplace_rec (fuel : nat) (x : view1) : M A unit :=
  match fuel with
  | O => out_of_fuel
  | S fuel' =>
      assert (is_c_contiguous x) >>
      let n := vlen x in
      if n =? 1 then ret tt
      else if n =? 2 then
        let* x0 := rd x 0 in
        let* x1 := rd x 1 in
        wr x 0 (add x0 x1) >>
        wr x 1 (sub x0 x1)
      else
        let* lb_n := lift (lb_exact (Z.of_nat n)) in
        let is_odd := negb (Z.land lb_n 1 =? 0)%Z in
        if is_odd
        then _fft_inplace_oddpow (_fft_inplace_rec fuel') x
        else _fft_inplace_evenpow (_fft_inplace_rec fuel') x
  end.

(** Every recursive call is on a strictly shorter view, so [vlen x + 1]
    levels are more than enough (lemma [fft_inplace_run]). *)
Definition _fft_inplace (x : view1) : M A unit :=
  _fft_inplace_rec (S (vlen x)) x.

(** ** The public entry point *)

(** The store of the caller: arrays are named by their index; an
    allocation appends a new array. *)
Definition heap : Type := list (list A).

(** [_fft_inplace(res, scratch)] as [fft] calls it: the core runs on the
    array named [res], with the array named [sc] (if any) as scratch, and
    both are stored back. *)
Definition run_core (res : nat) (sc : option nat) (h : heap)
  : outcome unit * heap :=
  match h !! res with
  | None => (Raise AttributeError, h)
  | Some work =>
      let scr := match sc with None => None | Some l => h !! l end in
      let '(o, s) :=
        _fft_inplace (mkView1 0 (length work) 1) (mkState work scr) in
      let h1 := <[res := buf s]> h in
      let h2 := match sc, scratch s with
                | Some l, Some c => <[l := c]> h1
                | _, _ => h1
                end in
      (o, h2)
  end.

(** [fft(x)], where [x] names an array of the store.  [garbage] is the
    content of the memory that [np.empty_like] hands out. *)
Definition fft (garbage : nat -> A) (x : nat) (h : heap)
  : outcome nat * heap :=
  match h !! x with
  | None => (Raise AttributeError, h)
  | Some xs =>
      let n := length xs in
      match lb_exact (Z.of_nat n) with
      | Raise e => (Raise e, h)
      | OutOfFuel => (OutOfFuel, h)
      | Ok lb_n =>
          match _scrach_length lb_n with
          | Raise e => (Raise e, h)
          | OutOfFuel => (OutOfFuel, h)
          | Ok scratch_len =>
              let '(sc, h1) :=
                if (scratch_len =? 0)%Z then (None, h)
                else (Some (length h),
                      h ++ [map garbage (seq 0 (Z.to_nat scratch_len))]) in
              (* res = x.copy(order='C') *)
              let res := length h1 in
              let h2 := h1 ++ [xs] in
              match run_core res sc h2 with
              | (Ok _, h3) => (Ok res, h3)
              | (Raise e, h3) => (Raise e, h3)
              | (OutOfFuel, h3) => (OutOfFuel, h3)
              end
          end
      end
  end.

End Core.

(** * Specification vocabulary

    The definitions below are not code of the package: they are the
    predicates and functions in which its behaviour is stated. *)

(** ** Buffers and segments *)

Section BufferRelations.

Context {A : Type}.

(** [moves T D b b']: every position [p] with [T p q] holds in [b'] what
    position [q] held in [b]; positions outside [D] are unchanged. *)
Definition moves (T : nat -> nat -> Prop) (D : nat -> Prop) (b b' : list A)
  : Prop :=
  length b' = length b /\
  (forall p q, T p q -> b' !! p = b !! q) /\
  (forall p, ~ D p -> b' !! p = b !! p).

(** The [n] buffer cells from [off] on hold [f 0 .. f (n-1)]. *)
Definition seg (off n : nat) (bf : list A) (f : nat -> A) : Prop :=
  forall i, i < n -> bf !! (off + i) = Some (f i).

(** Nothing changed outside the [n] cells from [off] on. *)
Definition same_outside (off n : nat) (bf bf' : list A) : Prop :=
  length bf' = length bf /\
  forall p, p < off \/ off + n <= p -> bf' !! p = bf !! p.

(** The cells from [off] on hold a [rows x len] matrix [G] in row-major
    order. *)
Definition rows_hold (off rows len : nat) (bf : list A) (G : nat -> nat -> A)
  : Prop :=
  forall i j, i < rows -> j < len -> bf !! (off + i * len + j) = Some (G i j).

(** The shape of the scratch argument: [None] or the length of the array. *)
Definition shape_of (sc : option (list A)) : option nat := length <$> sc.

End BufferRelations.

(** ** Geometry of three-dimensional views *)

Definition in_shape (a : view3) (i j l : nat) : Prop :=
  i < sh0 a /\ j < sh1 a /\ l < sh2 a.

(** Distinct indices name distinct buffer positions: the view does not
    overlap itself, as every view obtained from an array by reshaping and
    slicing. *)
Definition inj3 (a : view3) : Prop :=
  forall i j l i' j' l',
    in_shape a i j l -> in_shape a i' j' l' ->
    pos3 a i j l = pos3 a i' j' l' -> i = i' /\ j = j' /\ l = l'.

(** The view stays inside a buffer of length [n]. *)
Definition inb3 (a : view3) (n : nat) : Prop :=
  forall i j l, in_shape a i j l -> pos3 a i j l < n.

(** Position [p] belongs to the view. *)
Definition In3 (a : view3) (p : nat) : Prop :=
  exists i j l, in_shape a i j l /\ p = pos3 a i j l.

Definition disj3 (a b : view3) : Prop :=
  forall p, In3 a p -> In3 b p -> False.

(** [a'] is the window of [a] that starts at row [di] and column [dj]. *)
Definition sub3 (a' a : view3) (di dj : nat) : Prop :=
  sh2 a' = sh2 a /\ di + sh0 a' <= sh0 a /\ dj + sh1 a' <= sh1 a /\
  forall i j l, pos3 a' i j l = pos3 a (di + i) (dj + j) l.

(** The moves of [_swap_transpose_square a b]: cell [(i, j)] of each matrix
    receives cell [(j, i)] of the other. *)
Definition swaps (a b : view3) (p q : nat) : Prop :=
  exists i j l, in_shape a i j l /\
    ((p = pos3 a i j l /\ q = pos3 b j i l) \/
     (p = pos3 b i j l /\ q = pos3 a j i l)).

(** The moves of [transpose_square a]: cell [(i, j)] receives cell
    [(j, i)]. *)
Definition transposes (a : view3) (p q : nat) : Prop :=
  exists i j l, in_shape a i j l /\ p = pos3 a i j l /\ q = pos3 a j i l.

(** The view that [x.shape = n, n, m] makes of a contiguous vector. *)
Definition square_view (off n m : nat) : view3 :=
  mkView3 off n n m (n * m * 1) (m * 1) 1.

(** ** Scratch requirements *)

(** The scratch argument (absent, or an array of [n] cells) is what a
    transform of length [2 ^ k] asks for, or more. *)
Definition fits (k : nat) (sl : option nat) : Prop :=
  match sl with
  | None => _scrach_length (Z.of_nat k) = Ok 0%Z
  | Some n => exists r, _scrach_length (Z.of_nat k) = Ok r /\ (r <= Z.of_nat n)%Z
  end.

(** [rec] transforms every contiguous view of length [2 ^ k] by [R],
    touching nothing else but the scratch contents. *)
Definition rec_ok {A : Type} (rec : view1 -> M A unit)
    (R : (nat -> A) -> nat -> A) (k : nat) : Prop :=
  forall (x : view1) (bf : list A) (sc : option (list A)) (f : nat -> A),
    vlen x = 2 ^ k -> vstride x = 1 ->
    seg (voff x) (2 ^ k) bf f -> fits k (shape_of sc) ->
    exists bf' sc',
      rec x (mkState bf sc) = (Ok tt, mkState bf' sc') /\
      seg (voff x) (2 ^ k) bf' (R f) /\
      same_outside (voff x) (2 ^ k) bf bf' /\
      shape_of sc' = shape_of sc.

(** ** The function computed by the recursion *)

Section Pure.

Context {A : Type}.
Context (add sub mul : A -> A -> A) (twiddle : nat -> nat -> A).

(** What [_fft_inplace_evenpow] leaves in a buffer that held [f], when the
    recursive calls compute [rec]. *)
Definition even_fun (rec : (nat -> A) -> nat -> A) (k : nat) (f : nat -> A)
  : nat -> A :=
  let n := 2 ^ (k / 2) in
  let G1 := fun i j => f (j * n + i) in
  let G2 := fun i j => mul (rec (G1 i) j) (twiddle (i * j) (2 ^ k)) in
  let G4 := fun i j => rec (fun b => G2 b i) j in
  fun t => G4 (t mod n) (t / n).

(** The same for [_fft_inplace_oddpow]; [rec_c] is the transform of length
    [col_len], [rec_r] the transform of length [row_len]. *)
Definition odd_fun (rec_c rec_r : (nat -> A) -> nat -> A) (k : nat)
    (f : nat -> A) : nat -> A :=
  let c := 2 ^ (k / 2) in
  let r := c * 2 in
  let Y := fun j b =>
             mul (rec_c (fun p => f (p * r + b)) j) (twiddle (b * j) (2 ^ k)) in
  let Z := fun j d => rec_r (Y j) d in
  fun t => Z (t mod c) (t / c).

(** The function [_fft_inplace_rec fuel] computes on a view of length
    [2 ^ k]. *)
Fixpoint fft_fun (fuel k : nat) (f : nat -> A) : nat -> A :=
  match fuel with
  | O => f
  | S fuel' =>
      match k with
      | 0 => f
      | 1 => fun j => if j =? 0 then add (f 0) (f 1) else sub (f 0) (f 1)
      | _ =>
          if Nat.odd k
          then odd_fun (fft_fun fuel' (k / 2)) (fft_fun fuel' (k / 2 + 1)) k f
          else even_fun (fft_fun fuel' (k / 2)) k f
      end
  end.

End Pure.

(** ** The discrete Fourier transform *)

Section DFT.

Context {A : Type}.
Context (zero : A) (add mul : A -> A -> A) (twiddle : nat -> nat -> A).

(** [g 0 + g 1 + ... + g (n - 1)]. *)
Fixpoint sum_n (n : nat) (g : nat -> A) : A :=
  match n with
  | O => zero
  | S n' => add (sum_n n' g) (g n')
  end.

(** The forward DFT sum: [sum over t < n of f t * exp(-2 pi i j t / n)]. *)
Definition dft (n : nat) (f : nat -> A) (j : nat) : A :=
  sum_n n (fun t => mul (f t) (twiddle (j * t) n)).

End DFT.

(** ** Exact complex arithmetic *)

Module Cx.

(** A complex number: its real and its imaginary part. *)
Definition C : Type := (R * R)%type.

Definition C0 : C := (0%R, 0%R).
Definition C1 : C := (1%R, 0%R).
Definition Cadd (a b : C) : C := ((fst a + fst b)%R, (snd a + snd b)%R).
Definition Csub (a b : C) : C := ((fst a - fst b)%R, (snd a - snd b)%R).
Definition Copp (a : C) : C := ((- fst a)%R, (- snd a)%R).
Definition Cmul (a b : C) : C :=
  ((fst a * fst b - snd a * snd b)%R, (fst a * snd b + snd a * fst b)%R).

(** [np.exp(-2j * np.pi * e / n)]. *)
Definition cexp (e n : nat) : C :=
  let t := (2 * PI * INR e / INR n)%R in (cos t, (- sin t)%R).

End Cx.

(** ** Properties of every run *)

(** [m] keeps [Q]: whatever its outcome, a state that satisfies [Q] is
    left in a state that satisfies [Q]. *)
Definition preserves {A X : Type} (Q : state A -> Prop) (m : M A X) : Prop :=
  forall s, Q s -> Q (snd (m s)).

(** [Q] survives a write to any cell of the buffer and a write to any of
    the first [h] cells of the scratch array. *)
Definition stable {A : Type} (h : nat) (Q : state A -> Prop) : Prop :=
  (forall s p v, Q s -> Q (mkState (<[p := v]> (buf s)) (scratch s))) /\
  (forall s c i v, Q s -> scratch s = Some c -> i < h ->
     Q (mkState (buf s) (Some (<[i := v]> c)))).

(** [m] returns or raises: the recursion budget of the model is enough. *)
Definition terminates {A X : Type} (m : M A X) : Prop :=
  forall s, fst (m s) <> OutOfFuel.


(** The scratch array is [c] from cell [h] on, and as long as [c]. *)
Definition scratch_tail {A : Type} (h : nat) (c : list A) (s : state A)
  : Prop :=
  exists c', scratch s = Some c' /\ length c' = length c /\
             forall j, h <= j -> c' !! j = c !! j.

(** On every buffer of [L] cells, [m] returns or fails an assertion; it
    keeps the length of the buffer and leaves the scratch argument [sc]
    as it is. *)
Definition asserts_only {A : Type} (L : nat) (sc : option (list A))
    (m : M A unit) : Prop :=
  forall bf, length bf = L ->
    exists o bf', m (mkState bf sc) = (o, mkState bf' sc) /\
                  length bf' = L /\ (o = Ok tt \/ o = Raise AssertionError).

(** On every buffer of [L] cells, [m] fails an assertion. *)
Definition assertion_fails {A : Type} (L : nat) (sc : option (list A))
    (m : M A unit) : Prop :=
  forall bf, length bf = L ->
    exists bf', m (mkState bf sc) = (Raise AssertionError, mkState bf' sc) /\
                length bf' = L.

(** * Verification *)

(** ** Facts about [lb_exact] *)

Lemma shiftl_1 (k : Z) : (0 <= k)%Z -> Z.shiftl 1 k = (2 ^ k)%Z.
Proof. intros Hk. rewrite Z.shiftl_mul_pow2 by lia. lia. Qed.

Lemma lb_exact_pow2 (k : Z) : (0 <= k)%Z -> lb_exact (2 ^ k) = Ok k.
Proof.
  intros Hk. unfold lb_exact, bit_length.
  assert (Hpos : (0 < 2 ^ k)%Z) by (apply Z.pow_pos_nonneg; lia).
  destruct (Z.eqb_spec (2 ^ k) 0) as [E|_]; [lia|].
  rewrite Z.abs_eq by lia. rewrite Z.log2_pow2 by lia.
  replace (k + 1 - 1)%Z with k by lia.
  rewrite shiftl_1 by lia. rewrite Z.eqb_refl.
  destruct (Z.ltb_spec k 0); [lia|]. reflexivity.
Qed.

Lemma lb_exact_Ok_inv (n lb : Z) :
  lb_exact n = Ok lb -> (0 <= lb)%Z /\ n = (2 ^ lb)%Z.
Proof.
  unfold lb_exact. cbv zeta.
  destruct (Z.ltb_spec (bit_length n - 1) 0) as [Hneg|Hge]; simpl; [discriminate|].
  destruct (Z.eqb_spec n (Z.shiftl 1 (bit_length n - 1))) as [E|_]; simpl;
    [|discriminate].
  intros [= <-]. split; [lia|]. rewrite <- shiftl_1 by lia. exact E.
Qed.

Lemma lb_exact_cases (n : Z) :
  lb_exact n = Raise ValueError \/ exists lb, lb_exact n = Ok lb.
Proof.
  unfold lb_exact. cbv zeta.
  destruct (_ || _); [left|right; eexists]; reflexivity.
Qed.

Lemma lb_exact_not_pow2 (n : Z) :
  (forall k, (0 <= k)%Z -> n <> (2 ^ k)%Z) -> lb_exact n = Raise ValueError.
Proof.
  intros Hn. destruct (lb_exact_cases n) as [E|[lb E]]; [exact E|].
  apply lb_exact_Ok_inv in E as [Hlb ->]. now destruct (Hn lb Hlb).
Qed.

Lemma lb_exact_nonpos (n : Z) : (n <= 0)%Z -> lb_exact n = Raise ValueError.
Proof.
  intros Hn. apply lb_exact_not_pow2. intros k Hk.
  assert (0 < 2 ^ k)%Z by (apply Z.pow_pos_nonneg; lia). lia.
Qed.

Lemma lb_exact_of_nat_pow2 (k : nat) :
  lb_exact (Z.of_nat (2 ^ k)) = Ok (Z.of_nat k).
Proof.
  rewrite Nat2Z.inj_pow. apply lb_exact_pow2. lia.
Qed.

(** ** Facts about [_scrach_length] *)

Lemma land_1 (n : Z) : Z.land n 1 = (n mod 2)%Z.
Proof. change 1%Z with (Z.ones 1). rewrite Z.land_ones by lia. reflexivity. Qed.

Lemma shiftr_1 (n : Z) : Z.shiftr n 1 = (n / 2)%Z.
Proof. rewrite Z.shiftr_div_pow2 by lia. reflexivity. Qed.

(** The loop strips the factors of two: it ends on the odd part of [n]. *)
Lemma halve_while_even_total (fuel : nat) (n : Z) :
  (0 < n)%Z -> (Z.to_nat n < fuel)%nat ->
  exists n' j, halve_while_even fuel n = Some n' /\
    (0 < n')%Z /\ (n' mod 2 = 1)%Z /\ (0 <= j)%Z /\ n = (n' * 2 ^ j)%Z.
Proof.
  revert n. induction fuel as [|fuel IH]; intros n Hn Hfuel; [lia|].
  simpl. rewrite land_1, shiftr_1.
  destruct (Z.eqb_spec (n mod 2) 0) as [Heven|Hodd].
  - assert (Hn2 : n = (2 * (n / 2))%Z) by (pose proof (Z.div_mod n 2); lia).
    destruct (IH (n / 2)%Z) as (n' & j & E & Hpos & Hod & Hj & Hfac); [lia|lia|].
    exists n', (j + 1)%Z. repeat split; try assumption; try lia.
    rewrite Z.pow_add_r by lia. lia.
  - exists n, 0%Z. repeat split; try lia.
    pose proof (Z.mod_pos_bound n 2). lia.
Qed.

(** ** Stepping through monadic code *)

Section Steps.

Context {A : Type}.
Implicit Types (s : state A) (x : view1).

Lemma bind_ok {X Y} (m : M A X) (k : X -> M A Y) s (r : X) s' :
  m s = (Ok r, s') -> bind m k s = k r s'.
Proof. unfold bind. intros ->. reflexivity. Qed.

Lemma bind_raise {X Y} (m : M A X) (k : X -> M A Y) s e s' :
  m s = (Raise e, s') -> bind m k s = (Raise e, s').
Proof. unfold bind. intros ->. reflexivity. Qed.

Lemma rd_ok x i s v :
  i < vlen x -> buf s !! vpos x i = Some v -> rd x i s = (Ok v, s).
Proof.
  intros Hi Hv. unfold rd. destruct (Nat.ltb_spec i (vlen x)); [|lia].
  rewrite Hv. reflexivity.
Qed.

Lemma wr_ok x i v s :
  i < vlen x -> vpos x i < length (buf s) ->
  wr x i v s = (Ok tt, mkState (<[vpos x i := v]> (buf s)) (scratch s)).
Proof.
  intros Hi Hp. unfold wr.
  destruct (Nat.ltb_spec i (vlen x)); [|lia].
  destruct (Nat.ltb_spec (vpos x i) (length (buf s))); [|lia]. reflexivity.
Qed.

Lemma rd_scratch_ok n i s sc v :
  scratch s = Some sc -> i < n -> sc !! i = Some v ->
  rd_scratch n i s = (Ok v, s).
Proof.
  intros Hs Hi Hv. unfold rd_scratch. rewrite Hs.
  pose proof (lookup_lt_Some _ _ _ Hv).
  destruct (Nat.ltb_spec i (Nat.min n (length sc))); [|lia].
  rewrite Hv. reflexivity.
Qed.

Lemma wr_scratch_ok n i v s sc :
  scratch s = Some sc -> i < n -> i < length sc ->
  wr_scratch n i v s = (Ok tt, mkState (buf s) (Some (<[i := v]> sc))).
Proof.
  intros Hs Hi Hl. unfold wr_scratch. rewrite Hs.
  destruct (Nat.ltb_spec i (Nat.min n (length sc))); [|lia]. reflexivity.
Qed.

(** The invariant rule for [for i in range(n)]. *)
Lemma for_from_inv (I : nat -> state A -> Prop) (body : nat -> M A unit) :
  forall n i s,
    I i s ->
    (forall j t, i <= j < i + n -> I j t ->
       exists t', body j t = (Ok tt, t') /\ I (S j) t') ->
    exists s', for_from i n body s = (Ok tt, s') /\ I (i + n) s'.
Proof.
  induction n as [|n IH]; intros i s Hi Hbody.
  - exists s. rewrite Nat.add_0_r. split; [reflexivity|assumption].
  - destruct (Hbody i s ltac:(lia) Hi) as (t & Et & Ht).
    destruct (IH (S i) t Ht) as (s' & Es & Hs).
    { intros j u Hj. apply Hbody. lia. }
    exists s'. split.
    + simpl. rewrite (bind_ok _ _ _ _ _ Et). exact Es.
    + replace (i + S n) with (S i + n) by lia. exact Hs.
Qed.

Lemma for_range_inv (I : nat -> state A -> Prop) (body : nat -> M A unit) n s :
  I 0 s ->
  (forall j t, j < n -> I j t -> exists t', body j t = (Ok tt, t') /\ I (S j) t') ->
  exists s', for_range n body s = (Ok tt, s') /\ I n s'.
Proof.
  intros H0 Hbody. apply (for_from_inv I body n 0 s H0).
  intros j t Hj. apply Hbody. lia.
Qed.

End Steps.

(** Rewrites the first command of a [bind] with a known outcome. *)
Ltac step H := rewrite (bind_ok _ _ _ _ _ H); cbv beta.

Section Interleave.

Context {A : Type}.
Implicit Types (s : state A) (x : view1) (b : list A).

Lemma vpos_inj x i j : 0 < vstride x -> vpos x i = vpos x j -> i = j.
Proof. unfold vpos. intros Hs E. nia. Qed.

(** What [_interleave] does to a view of [2 * h] elements. *)
Lemma interleave_spec x h b sc :
  vlen x = 2 * h -> 0 < vstride x ->
  (forall i, i < 2 * h -> vpos x i < length b) ->
  h <= length sc ->
  exists b' sc',
    _interleave x (mkState b (Some sc)) = (Ok tt, mkState b' (Some sc')) /\
    length b' = length b /\ length sc' = length sc /\
    (forall i, i < h ->
       b' !! vpos x (2 * i) = b !! vpos x i /\
       b' !! vpos x (2 * i + 1) = b !! vpos x (h + i)) /\
    (forall p, (forall i, i < 2 * h -> p <> vpos x i) -> b' !! p = b !! p).
Proof.
  intros Hlen Hst Hin Hsc.
  unfold _interleave.
  rewrite (bind_ok _ _ _ (length sc) (mkState b (Some sc))) by reflexivity.
  rewrite Hlen.
  replace (2 * h mod 2) with 0 by (rewrite Nat.mul_comm, Nat.Div0.mod_mul; reflexivity).
  replace (2 * h / 2) with h by (rewrite Nat.mul_comm, Nat.div_mul; lia).
  change (assert (0 =? 0)) with (@ret A _ tt).
  rewrite (bind_ok _ _ _ tt (mkState b (Some sc))) by reflexivity.
  destruct (Nat.leb_spec h (length sc)); [|lia].
  rewrite (bind_ok _ _ _ tt (mkState b (Some sc))) by reflexivity.
  (* first loop: save the first half *)
  destruct (for_range_inv
    (fun i t => buf t = b /\ exists c, scratch t = Some c /\
       length c = length sc /\ forall j, j < i -> c !! j = b !! vpos x j)
    (fun i => let* v := rd (take1 h x) i in wr_scratch h i v) h
    (mkState b (Some sc))) as (s1 & E1 & Hb1 & sc1 & Hs1 & Hl1 & Hc1).
  { split; [reflexivity|]. exists sc. split; [reflexivity|].
    split; [reflexivity|]. intros; lia. }
  { intros j t Hj (Hb & c & Hc & Hlc & Hcj).
    destruct (lookup_lt_is_Some_2 b (vpos x j)) as [v Hv]; [apply Hin; lia|].
    eexists. split.
    - erewrite bind_ok; [|apply rd_ok with (v := v)].
      + apply wr_scratch_ok with (sc := c); [assumption|lia|lia].
      + simpl. lia.
      + rewrite Hb. exact Hv.
    - simpl. split; [assumption|]. eexists. split; [reflexivity|].
      split; [rewrite length_insert; assumption|].
      intros j' Hj'. destruct (decide (j' = j)) as [->|Hne].
      + rewrite list_lookup_insert_eq by lia. symmetry. exact Hv.
      + rewrite list_lookup_insert_ne by congruence. apply Hcj. lia. }
  step E1. destruct s1 as [b1 s1]; simpl in Hb1, Hs1. subst b1 s1.
  (* second loop *)
  destruct (for_range_inv
    (fun i t => scratch t = Some sc1 /\ length (buf t) = length b /\
       (forall j, j < i ->
          buf t !! vpos x (2 * j) = b !! vpos x j /\
          buf t !! vpos x (2 * j + 1) = b !! vpos x (h + j)) /\
       (forall p, (forall j, j < 2 * i -> p <> vpos x j) -> buf t !! p = b !! p))
    (fun i => let* v := rd_scratch h i in wr x (2 * i) v >>
              let* w := rd x (h + i) in wr x (2 * i + 1) w) h
    (mkState b (Some sc1))) as (s2 & E2 & Hs2 & Hl2 & Hpair & Hframe).
  { repeat split; try (intros; lia). }
  { intros j t Hj (Hs & Hl & Hp & Hf).
    destruct (lookup_lt_is_Some_2 b (vpos x j)) as [v Hv]; [apply Hin; lia|].
    destruct (lookup_lt_is_Some_2 b (vpos x (h + j))) as [w Hw]; [apply Hin; lia|].
    eexists. split.
    - erewrite bind_ok; [|apply rd_scratch_ok with (sc := sc1) (v := v);
                           [assumption|lia|rewrite Hc1 by lia; exact Hv]].
      erewrite bind_ok; [|apply wr_ok; [lia|rewrite Hl; apply Hin; lia]].
      erewrite bind_ok; [|apply rd_ok with (v := w); [lia|]].
      + apply wr_ok; [lia|]. simpl. rewrite length_insert, Hl. apply Hin. lia.
      + simpl. destruct (decide (h + j = 2 * j)) as [E|Hne].
        * assert (j = 0 /\ h = 0) as [-> ->] by lia. lia.
        * rewrite list_lookup_insert_ne
            by (intros E; apply vpos_inj in E; [lia|assumption]).
          rewrite Hf; [exact Hw|].
          intros j' Hj' E. apply vpos_inj in E; [lia|assumption].
    - simpl. split; [assumption|]. split; [rewrite !length_insert; assumption|].
      assert (Hlen1 : vpos x (2 * j) < length (buf t)) by (rewrite Hl; apply Hin; lia).
      assert (Hlen2 : vpos x (2 * j + 1) < length (buf t)) by (rewrite Hl; apply Hin; lia).
      split.
      + intros j' Hj'. destruct (decide (j' = j)) as [->|Hne].
        * split.
          -- rewrite list_lookup_insert_ne
               by (intros E; apply vpos_inj in E; [lia|assumption]).
             rewrite list_lookup_insert_eq by assumption. symmetry. exact Hv.
          -- rewrite list_lookup_insert_eq by (rewrite length_insert; assumption).
             symmetry. exact Hw.
        * rewrite !list_lookup_insert_ne
            by (intros E; apply vpos_inj in E; [lia|assumption]).
          apply Hp. lia.
      + intros p Hp'.
        rewrite !list_lookup_insert_ne.
        * apply Hf. intros j' Hj'. apply Hp'. lia.
        * intros E. apply (Hp' (2 * j)); [lia|]. symmetry. exact E.
        * intros E. apply (Hp' (2 * j + 1)); [lia|]. symmetry. exact E. }
  rewrite E2. destruct s2 as [b2 s2]; simpl in Hs2, Hl2, Hpair, Hframe. subst s2.
  exists b2, sc1. repeat split; try assumption; apply Hpair; assumption.
Qed.

Lemma vpos_drop1 x h i :
  h <= vlen x -> vpos (drop1 h x) i = vpos x (h + i).
Proof. intros Hh. unfold vpos, drop1. simpl. rewrite Nat.min_l by lia. lia. Qed.

(** What [_deinterleave] does to a view of [2 * h] elements. *)
Lemma deinterleave_spec x h b sc :
  vlen x = 2 * h -> 0 < vstride x ->
  (forall i, i < 2 * h -> vpos x i < length b) ->
  h <= length sc ->
  exists b' sc',
    _deinterleave x (mkState b (Some sc)) = (Ok tt, mkState b' (Some sc')) /\
    length b' = length b /\ length sc' = length sc /\
    (forall i, i < h ->
       b' !! vpos x i = b !! vpos x (2 * i) /\
       b' !! vpos x (h + i) = b !! vpos x (2 * i + 1)) /\
    (forall p, (forall i, i < 2 * h -> p <> vpos x i) -> b' !! p = b !! p).
Proof.
  intros Hlen Hst Hin Hsc.
  unfold _deinterleave.
  rewrite (bind_ok _ _ _ (length sc) (mkState b (Some sc))) by reflexivity.
  rewrite Hlen.
  replace (2 * h mod 2) with 0 by (rewrite Nat.mul_comm, Nat.Div0.mod_mul; reflexivity).
  replace (2 * h / 2) with h by (rewrite Nat.mul_comm, Nat.div_mul; lia).
  change (assert (0 =? 0)) with (@ret A _ tt).
  rewrite (bind_ok _ _ _ tt (mkState b (Some sc))) by reflexivity.
  destruct (Nat.leb_spec h (length sc)); [|lia].
  rewrite (bind_ok _ _ _ tt (mkState b (Some sc))) by reflexivity.
  (* first loop: compact the even-indexed elements, save the odd-indexed ones *)
  destruct (for_range_inv
    (fun i t => length (buf t) = length b /\
       (forall j, j < i -> buf t !! vpos x j = b !! vpos x (2 * j)) /\
       (forall p, (forall j, j < i -> p <> vpos x j) -> buf t !! p = b !! p) /\
       exists c, scratch t = Some c /\ length c = length sc /\
         forall j, j < i -> c !! j = b !! vpos x (2 * j + 1))
    (fun i => let* v := rd x (2 * i) in wr x i v >>
              let* w := rd x (2 * i + 1) in wr_scratch h i w) h
    (mkState b (Some sc))) as (s1 & E1 & Hl1 & Hev1 & Hf1 & sc1 & Hs1 & Hlc1 & Hc1).
  { split; [reflexivity|]. split; [intros; lia|]. split; [reflexivity|].
    exists sc. split; [reflexivity|]. split; [reflexivity|]. intros; lia. }
  { intros j t Hj (Hl & Hev & Hf & c & Hc & Hlc & Hcj).
    destruct (lookup_lt_is_Some_2 b (vpos x (2 * j))) as [v Hv]; [apply Hin; lia|].
    destruct (lookup_lt_is_Some_2 b (vpos x (2 * j + 1))) as [w Hw]; [apply Hin; lia|].
    assert (Hpj : vpos x j < length (buf t)) by (rewrite Hl; apply Hin; lia).
    eexists. split.
    - erewrite bind_ok; [|apply rd_ok with (v := v); [lia|]].
      2:{ rewrite Hf; [exact Hv|]. intros j' Hj' E.
          apply vpos_inj in E; [lia|assumption]. }
      erewrite bind_ok; [|apply wr_ok; [lia|assumption]].
      erewrite bind_ok; [|apply rd_ok with (v := w); [lia|]].
      + apply wr_scratch_ok with (sc := c); [assumption|lia|lia].
      + simpl. rewrite list_lookup_insert_ne
          by (intros E; apply vpos_inj in E; [lia|assumption]).
        rewrite Hf; [exact Hw|]. intros j' Hj' E.
        apply vpos_inj in E; [lia|assumption].
    - simpl. split; [rewrite length_insert; assumption|]. split; [|split].
      + intros j' Hj'. destruct (decide (j' = j)) as [->|Hne].
        * rewrite list_lookup_insert_eq by assumption. symmetry. exact Hv.
        * rewrite list_lookup_insert_ne
            by (intros E; apply vpos_inj in E; [lia|assumption]).
          apply Hev. lia.
      + intros p Hp. rewrite list_lookup_insert_ne.
        * apply Hf. intros j' Hj'. apply Hp. lia.
        * intros E. apply (Hp j); [lia|]. symmetry. exact E.
      + eexists. split; [reflexivity|]. split; [rewrite length_insert; assumption|].
        intros j' Hj'. destruct (decide (j' = j)) as [->|Hne].
        * rewrite list_lookup_insert_eq by lia. symmetry. exact Hw.
        * rewrite list_lookup_insert_ne by congruence. apply Hcj. lia. }
  step E1. destruct s1 as [b1 s1]; simpl in Hl1, Hev1, Hf1, Hs1. subst s1.
  (* second loop: copy the saved elements into the second half *)
  destruct (for_range_inv
    (fun i t => scratch t = Some sc1 /\ length (buf t) = length b /\
       (forall j, j < h -> buf t !! vpos x j = b !! vpos x (2 * j)) /\
       (forall j, j < i -> buf t !! vpos x (h + j) = b !! vpos x (2 * j + 1)) /\
       (forall p, (forall j, j < 2 * h -> p <> vpos x j) -> buf t !! p = b !! p))
    (fun i => let* v := rd_scratch h i in wr (drop1 h x) i v) h
    (mkState b1 (Some sc1))) as (s2 & E2 & Hs2 & Hl2 & Hev2 & Hod2 & Hf2).
  { split; [reflexivity|]. split; [assumption|]. split; [assumption|].
    split; [intros; lia|]. intros p Hp. apply Hf1. intros j Hj. apply Hp. lia. }
  { intros j t Hj (Hs & Hl & Hev & Hod & Hf).
    destruct (lookup_lt_is_Some_2 b (vpos x (2 * j + 1))) as [w Hw]; [apply Hin; lia|].
    assert (Hpj : vpos x (h + j) < length (buf t)) by (rewrite Hl; apply Hin; lia).
    eexists. split.
    - erewrite bind_ok; [|apply rd_scratch_ok with (sc := sc1) (v := w);
                           [assumption|lia|rewrite Hc1 by lia; exact Hw]].
      apply wr_ok; [simpl; lia|]. rewrite vpos_drop1 by lia. assumption.
    - simpl. rewrite vpos_drop1 by lia.
      split; [assumption|]. split; [rewrite length_insert; assumption|].
      split; [|split].
      + intros j' Hj'. rewrite list_lookup_insert_ne
          by (intros E; apply vpos_inj in E; [lia|assumption]).
        apply Hev. assumption.
      + intros j' Hj'. destruct (decide (j' = j)) as [->|Hne].
        * rewrite list_lookup_insert_eq by assumption. symmetry. exact Hw.
        * rewrite list_lookup_insert_ne
            by (intros E; apply vpos_inj in E; [lia|assumption]).
          apply Hod. lia.
      + intros p Hp. rewrite list_lookup_insert_ne.
        * apply Hf. assumption.
        * intros E. apply (Hp (h + j)); [lia|]. symmetry. exact E. }
  rewrite E2. destruct s2 as [b2 s2]; simpl in Hs2, Hl2, Hev2, Hod2, Hf2. subst s2.
  exists b2, sc1. split; [reflexivity|]. split; [assumption|]. split; [assumption|].
  split; [|assumption]. intros i Hi. split; [apply Hev2|apply Hod2]; assumption.
Qed.

End Interleave.

(** ** Buffers related by a move of elements *)

Section Moves.

Context {A : Type}.
Implicit Types (b : list A) (T : nat -> nat -> Prop) (D : nat -> Prop).

Lemma moves_seq T1 D1 T2 D2 b0 b1 b2 :
  moves T1 D1 b0 b1 -> moves T2 D2 b1 b2 ->
  (forall p, D1 p -> D2 p -> False) ->
  (forall p q, T1 p q -> D1 p) ->
  (forall p q, T2 p q -> D2 q) ->
  moves (fun p q => T1 p q \/ T2 p q) (fun p => D1 p \/ D2 p) b0 b2.
Proof.
  intros (L1 & M1 & F1) (L2 & M2 & F2) Hdisj Htgt Hsrc.
  split; [congruence|]. split.
  - intros p q [H1|H2].
    + rewrite F2; [apply M1; assumption|].
      intros HD2. eapply Hdisj; [eapply Htgt|]; eassumption.
    + rewrite (M2 p q H2). apply F1.
      intros HD1. eapply Hdisj; [|eapply Hsrc]; eassumption.
  - intros p Hp. rewrite F2 by tauto. apply F1. tauto.
Qed.

Lemma moves_weaken T D T' D' b b' :
  moves T D b b' ->
  (forall p q, T' p q -> T p q) -> (forall p, D p -> D' p) ->
  moves T' D' b b'.
Proof.
  intros (L & Mv & F) HT HD. split; [assumption|]. split.
  - intros p q H. apply Mv, HT, H.
  - intros p Hp. apply F. intros H. apply Hp, HD, H.
Qed.

End Moves.

(** ** Geometry of three-dimensional views *)

Lemma sub3_in_shape a' a di dj i j l :
  sub3 a' a di dj -> in_shape a' i j l -> in_shape a (di + i) (dj + j) l.
Proof. unfold sub3, in_shape. intros (? & ? & ? & _) ?. lia. Qed.

Lemma sub3_inj a' a di dj : sub3 a' a di dj -> inj3 a -> inj3 a'.
Proof.
  intros Hs Ha i j l i' j' l' H1 H2 E.
  destruct Hs as (? & ? & ? & Hp). rewrite !Hp in E.
  apply Ha in E; unfold in_shape in *; lia.
Qed.

Lemma sub3_inb a' a di dj n : sub3 a' a di dj -> inb3 a n -> inb3 a' n.
Proof.
  intros Hs Ha i j l H. pose proof (sub3_in_shape _ _ _ _ _ _ _ Hs H) as H'.
  destruct Hs as (_ & _ & _ & Hp). rewrite Hp. apply Ha, H'.
Qed.

Lemma sub3_In a' a di dj p : sub3 a' a di dj -> In3 a' p -> In3 a p.
Proof.
  intros Hs (i & j & l & H & ->).
  exists (di + i), (dj + j), l. split; [eapply sub3_in_shape; eassumption|].
  destruct Hs as (_ & _ & _ & Hp). apply Hp.
Qed.

Lemma sub3_disj a' a di dj b' b ei ej :
  sub3 a' a di dj -> sub3 b' b ei ej -> disj3 a b -> disj3 a' b'.
Proof.
  intros Ha Hb Hd p H1 H2. apply (Hd p); eapply sub3_In; eassumption.
Qed.

(** Two windows of one view that differ in their rows or in their columns
    do not overlap. *)
Lemma sub3_disj_same a1 a2 a di1 dj1 di2 dj2 :
  sub3 a1 a di1 dj1 -> sub3 a2 a di2 dj2 -> inj3 a ->
  di1 + sh0 a1 <= di2 \/ di2 + sh0 a2 <= di1 \/
  dj1 + sh1 a1 <= dj2 \/ dj2 + sh1 a2 <= dj1 ->
  disj3 a1 a2.
Proof.
  intros H1 H2 Ha Hsep p (i & j & l & Hs & ->) (i' & j' & l' & Hs' & E).
  pose proof (sub3_in_shape _ _ _ _ _ _ _ H1 Hs) as G1.
  pose proof (sub3_in_shape _ _ _ _ _ _ _ H2 Hs') as G2.
  destruct H1 as (_ & _ & _ & P1), H2 as (_ & _ & _ & P2).
  rewrite P1, P2 in E. apply Ha in E; [|assumption..].
  unfold in_shape in *. lia.
Qed.

Lemma disj3_sym a b : disj3 a b -> disj3 b a.
Proof. intros H p Hb Ha. exact (H p Ha Hb). Qed.

(** The four quadrants of a [2h x 2h] matrix. *)
Section Quadrants.

Variables (a : view3) (h : nat).
Hypotheses (H0 : sh0 a = 2 * h) (H1 : sh1 a = 2 * h).

Lemma sub3_top_left : sub3 (top_left h a) a 0 0.
Proof.
  unfold sub3, top_left, cols_to, rows_to, pos3; simpl.
  repeat split; try lia.
Qed.

Lemma sub3_top_right : sub3 (top_right h a) a 0 h.
Proof.
  unfold sub3, top_right, cols_from, rows_to, pos3; simpl.
  rewrite (Nat.min_l h (sh1 a)) by lia. repeat split; try lia.
Qed.

Lemma sub3_bottom_left : sub3 (bottom_left h a) a h 0.
Proof.
  unfold sub3, bottom_left, cols_to, rows_from, pos3; simpl.
  rewrite (Nat.min_l h (sh0 a)) by lia. repeat split; try lia.
Qed.

Lemma sub3_bottom_right : sub3 (bottom_right h a) a h h.
Proof.
  unfold sub3, bottom_right, cols_from, rows_from, pos3; simpl.
  rewrite (Nat.min_l h (sh0 a)), (Nat.min_l h (sh1 a)) by lia.
  repeat split; try lia.
Qed.

Lemma shape_top_left :
  sh0 (top_left h a) = h /\ sh1 (top_left h a) = h /\ sh2 (top_left h a) = sh2 a.
Proof. simpl. lia. Qed.

Lemma shape_top_right :
  sh0 (top_right h a) = h /\ sh1 (top_right h a) = h /\ sh2 (top_right h a) = sh2 a.
Proof. simpl. lia. Qed.

Lemma shape_bottom_left :
  sh0 (bottom_left h a) = h /\ sh1 (bottom_left h a) = h /\
  sh2 (bottom_left h a) = sh2 a.
Proof. simpl. lia. Qed.

Lemma shape_bottom_right :
  sh0 (bottom_right h a) = h /\ sh1 (bottom_right h a) = h /\
  sh2 (bottom_right h a) = sh2 a.
Proof. simpl. lia. Qed.

End Quadrants.

Lemma pow2_pos (k : nat) : 0 < 2 ^ k.
Proof. induction k; simpl; lia. Qed.

Lemma pow2_gt (k : nat) : k < 2 ^ k.
Proof. induction k; simpl; lia. Qed.

Lemma shiftr1_pow2 (k : nat) : Nat.shiftr (2 ^ S k) 1 = 2 ^ k.
Proof.
  rewrite Nat.shiftr_div_pow2. change (2 ^ 1) with 2.
  rewrite Nat.pow_succ_r', Nat.mul_comm, Nat.div_mul; lia.
Qed.

Lemma vpos_cell (a : view3) i j l : vpos (cell a i j) l = pos3 a i j l.
Proof. unfold vpos, cell, pos3. simpl. lia. Qed.

Section Swap.

Context {A : Type}.
Implicit Types (s : state A) (a b : view3) (bf : list A).

Lemma swap_rec_unfold fuel a b :
  _swap_transpose_square_rec (A := A) (S fuel) a b =
  (let n := sh0 a in
   let m := sh2 a in
   assert ((n =? sh1 a) && (sh1 a =? sh0 b) && (sh0 b =? sh1 b)) >>
   assert (m =? sh2 b) >>
   if n =? 0 then ret tt
   else if n =? 1 then
     let a' := cell a 0 0 in
     let b' := cell b 0 0 in
     for_range m (fun i =>
       let* vb := rd b' i in
       let* va := rd a' i in
       wr a' i vb >> wr b' i va)
   else
     let half_n := Nat.shiftr n 1 in
     _swap_transpose_square_rec fuel (top_left half_n a) (top_left half_n b) >>
     _swap_transpose_square_rec fuel (top_right half_n a) (bottom_left half_n b) >>
     _swap_transpose_square_rec fuel (bottom_left half_n a) (top_right half_n b) >>
     _swap_transpose_square_rec fuel (bottom_right half_n a) (bottom_right half_n b)).
Proof. reflexivity. Qed.

(** The base case: two [1 x 1] matrices exchange their [m]-vectors. *)
Lemma swap_cells a b bf sc m :
  sh0 a = 1 -> sh1 a = 1 -> sh0 b = 1 -> sh1 b = 1 -> sh2 a = m -> sh2 b = m ->
  inj3 a -> inj3 b -> disj3 a b ->
  inb3 a (length bf) -> inb3 b (length bf) ->
  exists bf',
    for_range m (fun i =>
       let* vb := rd (cell b 0 0) i in
       let* va := rd (cell a 0 0) i in
       wr (cell a 0 0) i vb >> wr (cell b 0 0) i va) (mkState bf sc)
    = (Ok tt, mkState bf' sc) /\
    moves (swaps a b) (fun p => In3 a p \/ In3 b p) bf bf'.
Proof.
  intros Ha0 Ha1 Hb0 Hb1 Ha2 Hb2 Hia Hib Hd Hba Hbb.
  assert (Sa : forall l, l < m -> in_shape a 0 0 l) by (unfold in_shape; intros; lia).
  assert (Sb : forall l, l < m -> in_shape b 0 0 l) by (unfold in_shape; intros; lia).
  assert (Nab : forall l l', l < m -> l' < m -> pos3 a 0 0 l <> pos3 b 0 0 l').
  { intros l l' Hl Hl' E. apply (Hd (pos3 a 0 0 l)).
    - exists 0, 0, l. auto.
    - exists 0, 0, l'. auto. }
  assert (Naa : forall l l', l < m -> l' < m -> l <> l' ->
                             pos3 a 0 0 l <> pos3 a 0 0 l').
  { intros l l' Hl Hl' Hne E. apply Hia in E; auto. lia. }
  assert (Nbb : forall l l', l < m -> l' < m -> l <> l' ->
                             pos3 b 0 0 l <> pos3 b 0 0 l').
  { intros l l' Hl Hl' Hne E. apply Hib in E; auto. lia. }
  destruct (for_range_inv
    (fun i t => scratch t = sc /\ length (buf t) = length bf /\
       (forall l, l < i ->
          buf t !! pos3 a 0 0 l = bf !! pos3 b 0 0 l /\
          buf t !! pos3 b 0 0 l = bf !! pos3 a 0 0 l) /\
       (forall p, (forall l, l < i -> p <> pos3 a 0 0 l /\ p <> pos3 b 0 0 l) ->
          buf t !! p = bf !! p))
    (fun i =>
       let* vb := rd (cell b 0 0) i in
       let* va := rd (cell a 0 0) i in
       wr (cell a 0 0) i vb >> wr (cell b 0 0) i va) m
    (mkState bf sc)) as (s' & E & Hsc & Hlen & Hsw & Hfr).
  { repeat split; intros; lia. }
  { intros i t Hi (Hs & Hl & Hsw & Hfr).
    destruct (lookup_lt_is_Some_2 bf (pos3 a 0 0 i)) as [va Hva]; [apply Hba; auto|].
    destruct (lookup_lt_is_Some_2 bf (pos3 b 0 0 i)) as [vb Hvb]; [apply Hbb; auto|].
    assert (Ea : buf t !! pos3 a 0 0 i = Some va).
    { rewrite Hfr; [exact Hva|]. intros l Hl'. split.
      - apply Naa; lia.
      - apply Nab; lia. }
    assert (Eb : buf t !! pos3 b 0 0 i = Some vb).
    { rewrite Hfr; [exact Hvb|]. intros l Hl'. split.
      - apply not_eq_sym, Nab; lia.
      - apply Nbb; lia. }
    eexists. split.
    - erewrite bind_ok; [|apply rd_ok with (v := vb);
        [simpl; lia|rewrite vpos_cell; exact Eb]].
      erewrite bind_ok; [|apply rd_ok with (v := va);
        [simpl; lia|rewrite vpos_cell; exact Ea]].
      erewrite bind_ok; [|apply wr_ok;
        [simpl; lia|rewrite vpos_cell, Hl; apply Hba; auto]].
      apply wr_ok; [simpl; lia|].
      simpl. rewrite length_insert, !vpos_cell, Hl. apply Hbb; auto.
    - simpl. rewrite !vpos_cell.
      assert (La : pos3 a 0 0 i < length (buf t)) by (rewrite Hl; apply Hba; auto).
      assert (Lb : pos3 b 0 0 i < length (buf t)) by (rewrite Hl; apply Hbb; auto).
      split; [assumption|]. split; [rewrite !length_insert; assumption|]. split.
      + intros l Hl'. destruct (decide (l = i)) as [->|Hne].
        * split.
          -- rewrite list_lookup_insert_ne by (apply not_eq_sym, Nab; lia).
             rewrite list_lookup_insert_eq by assumption. symmetry. exact Hvb.
          -- rewrite list_lookup_insert_eq by (rewrite length_insert; assumption).
             symmetry. exact Hva.
        * rewrite !list_lookup_insert_ne;
            [apply Hsw; lia
            |try (apply Nbb; lia); try (apply Nab; lia);
             try (apply not_eq_sym, Nab; lia); try (apply Naa; lia)..].
      + intros p Hp. rewrite !list_lookup_insert_ne.
        * apply Hfr. intros l Hl'. apply Hp. lia.
        * intros E. destruct (Hp i ltac:(lia)). congruence.
        * intros E. destruct (Hp i ltac:(lia)). congruence. }
  destruct s' as [bf' sc']; simpl in Hsc, Hlen, Hsw, Hfr. subst sc'.
  exists bf'. split; [exact E|].
  split; [assumption|]. split.
  - intros p q (i & j & l & (Hi & Hj & Hl) & Hpq).
    assert (i = 0) as -> by lia. assert (j = 0) as -> by lia.
    destruct Hpq as [[-> ->]|[-> ->]]; apply Hsw; lia.
  - intros p Hp. apply Hfr. intros l Hl. split; intros ->; apply Hp.
    + left. exists 0, 0, l. auto.
    + right. exists 0, 0, l. auto.
Qed.

End Swap.

Lemma swaps_target a b n p q :
  sh0 a = n -> sh1 a = n -> sh0 b = n -> sh1 b = n -> sh2 b = sh2 a ->
  swaps a b p q -> In3 a p \/ In3 b p.
Proof.
  intros ? ? ? ? ? (i & j & l & Hs & [[-> _]|[-> _]]).
  - left. exists i, j, l. auto.
  - right. exists i, j, l. split; [|reflexivity]. unfold in_shape in *. lia.
Qed.

Lemma swaps_source a b n p q :
  sh0 a = n -> sh1 a = n -> sh0 b = n -> sh1 b = n -> sh2 b = sh2 a ->
  swaps a b p q -> In3 a q \/ In3 b q.
Proof.
  intros ? ? ? ? ? (i & j & l & Hs & [[_ ->]|[_ ->]]).
  - right. exists j, i, l. split; [|reflexivity]. unfold in_shape in *. lia.
  - left. exists j, i, l. split; [|reflexivity]. unfold in_shape in *. lia.
Qed.

Lemma pair_disj a1 b1 a2 b2 :
  disj3 a1 a2 -> disj3 a1 b2 -> disj3 b1 a2 -> disj3 b1 b2 ->
  forall p, In3 a1 p \/ In3 b1 p -> In3 a2 p \/ In3 b2 p -> False.
Proof. unfold disj3. intros ? ? ? ? p [?|?] [?|?]; eauto. Qed.

(** Closes [pos3] equations and shape bounds after a case analysis on the
    quadrant of an index. *)
Ltac quad_index :=
  repeat match goal with
         | H : forall i j l : nat, pos3 (_ _ _) i j l = _ |- _ =>
             rewrite ?H; clear H
         end;
  unfold in_shape in *; simpl;
  repeat split; try lia; try (f_equal; lia).

Section SwapRec.

Context {A : Type}.
Implicit Types (s : state A) (a b : view3) (bf : list A).

Lemma swap_spec :
  forall fuel k a b m bf sc,
    k < fuel ->
    sh0 a = 2 ^ k -> sh1 a = 2 ^ k -> sh0 b = 2 ^ k -> sh1 b = 2 ^ k ->
    sh2 a = m -> sh2 b = m ->
    inj3 a -> inj3 b -> disj3 a b ->
    inb3 a (length bf) -> inb3 b (length bf) ->
    exists bf',
      _swap_transpose_square_rec fuel a b (mkState bf sc)
      = (Ok tt, mkState bf' sc) /\
      moves (swaps a b) (fun p => In3 a p \/ In3 b p) bf bf'.
Proof.
  induction fuel as [|fuel IH];
    intros k a b m bf sc Hk Ha0 Ha1 Hb0 Hb1 Ha2 Hb2 Hia Hib Hd Hba Hbb; [lia|].
  rewrite swap_rec_unfold. cbv zeta.
  rewrite Ha0, Ha1, Hb0, Hb1, Ha2, Hb2, !Nat.eqb_refl. simpl andb.
  change (assert true) with (@ret A _ tt).
  rewrite !(bind_ok (ret tt) _ _ tt (mkState bf sc)) by reflexivity.
  pose proof (pow2_pos k) as Hpos.
  destruct (Nat.eqb_spec (2 ^ k) 0) as [?|_]; [lia|].
  destruct k as [|k].
  - change (2 ^ 0 =? 1) with true. cbv iota.
    apply swap_cells; assumption.
  - assert (Hbig : 2 ^ S k <> 1).
    { rewrite Nat.pow_succ_r'. pose proof (pow2_pos k). lia. }
    destruct (Nat.eqb_spec (2 ^ S k) 1) as [?|_]; [contradiction|].
    rewrite shiftr1_pow2. set (h := 2 ^ k).
    assert (Ha0' : sh0 a = 2 * h) by (rewrite Ha0; apply Nat.pow_succ_r').
    assert (Ha1' : sh1 a = 2 * h) by (rewrite Ha1; apply Nat.pow_succ_r').
    assert (Hb0' : sh0 b = 2 * h) by (rewrite Hb0; apply Nat.pow_succ_r').
    assert (Hb1' : sh1 b = 2 * h) by (rewrite Hb1; apply Nat.pow_succ_r').
    pose proof (sub3_top_left a h Ha0' Ha1') as Satl.
    pose proof (sub3_top_right a h Ha0' Ha1') as Satr.
    pose proof (sub3_bottom_left a h Ha0' Ha1') as Sabl.
    pose proof (sub3_bottom_right a h Ha0' Ha1') as Sabr.
    pose proof (sub3_top_left b h Hb0' Hb1') as Sbtl.
    pose proof (sub3_top_right b h Hb0' Hb1') as Sbtr.
    pose proof (sub3_bottom_left b h Hb0' Hb1') as Sbbl.
    pose proof (sub3_bottom_right b h Hb0' Hb1') as Sbbr.
    (* first call *)
    destruct (IH k (top_left h a) (top_left h b) m bf sc) as (bf1 & E1 & M1);
      try (simpl; lia);
      eauto using sub3_inj, sub3_inb, sub3_disj.
    (* second call *)
    pose proof M1 as (L1 & _ & _).
    destruct (IH k (top_right h a) (bottom_left h b) m bf1 sc) as (bf2 & E2 & M2);
      try (simpl; lia); try rewrite L1;
      eauto using sub3_inj, sub3_inb, sub3_disj.
    (* third call *)
    pose proof M2 as (L2 & _ & _).
    destruct (IH k (bottom_left h a) (top_right h b) m bf2 sc) as (bf3 & E3 & M3);
      try (simpl; lia); try rewrite L2, L1;
      eauto using sub3_inj, sub3_inb, sub3_disj.
    (* fourth call *)
    pose proof M3 as (L3 & _ & _).
    destruct (IH k (bottom_right h a) (bottom_right h b) m bf3 sc)
      as (bf4 & E4 & M4);
      try (simpl; lia); try rewrite L3, L2, L1;
      eauto using sub3_inj, sub3_inb, sub3_disj.
    exists bf4. split.
    { step E1. step E2. step E3. exact E4. }
    (* the four moves compose *)
    assert (Dsame : forall x1 x2 c di1 dj1 di2 dj2,
               inj3 c -> sub3 x1 c di1 dj1 -> sub3 x2 c di2 dj2 ->
               sh0 x1 = h -> sh1 x1 = h -> sh0 x2 = h -> sh1 x2 = h ->
               di1 + h <= di2 \/ di2 + h <= di1 \/ dj1 + h <= dj2 \/ dj2 + h <= dj1 ->
               disj3 x1 x2).
    { intros x1 x2 c di1 dj1 di2 dj2 Hc S1 S2 E10 E11 E20 E21 Hsep.
      eapply sub3_disj_same; eauto. rewrite E10, E11, E20, E21. exact Hsep. }
    assert (Dab : forall x1 x2 di1 dj1 di2 dj2,
               sub3 x1 a di1 dj1 -> sub3 x2 b di2 dj2 -> disj3 x1 x2)
      by (intros; eapply sub3_disj; eauto).
    assert (Dba : forall x1 x2 di1 dj1 di2 dj2,
               sub3 x1 b di1 dj1 -> sub3 x2 a di2 dj2 -> disj3 x1 x2)
      by (intros; apply disj3_sym; eapply sub3_disj; eauto).
    assert (Hh : 0 < h) by apply pow2_pos.
    pose proof (moves_seq _ _ _ _ _ _ _ M1 M2) as M12.
    specialize (M12 ltac:(apply pair_disj;
      [eapply (Dsame _ _ a); eauto; simpl; lia | eapply Dab; eauto
      | eapply Dba; eauto | eapply (Dsame _ _ b); eauto; simpl; lia])).
    specialize (M12 ltac:(intros p q; apply (swaps_target _ _ h); simpl; lia)).
    specialize (M12 ltac:(intros p q; apply (swaps_source _ _ h); simpl; lia)).
    pose proof (moves_seq _ _ _ _ _ _ _ M12 M3) as M123.
    specialize (M123 ltac:(intros p [H|H];
      revert p H; apply pair_disj;
      solve [eapply (Dsame _ _ a); eauto; simpl; lia | eapply Dab; eauto
            | eapply Dba; eauto | eapply (Dsame _ _ b); eauto; simpl; lia])).
    specialize (M123 ltac:(intros p q [H|H]; [left|right];
      revert H; apply (swaps_target _ _ h); simpl; lia)).
    specialize (M123 ltac:(intros p q; apply (swaps_source _ _ h); simpl; lia)).
    pose proof (moves_seq _ _ _ _ _ _ _ M123 M4) as M1234.
    specialize (M1234 ltac:(intros p [[H|H]|H];
      revert p H; apply pair_disj;
      solve [eapply (Dsame _ _ a); eauto; simpl; lia | eapply Dab; eauto
            | eapply Dba; eauto | eapply (Dsame _ _ b); eauto; simpl; lia])).
    specialize (M1234 ltac:(intros p q [[H|H]|H]; [left; left|left; right|right];
      revert H; apply (swaps_target _ _ h); simpl; lia)).
    specialize (M1234 ltac:(intros p q; apply (swaps_source _ _ h); simpl; lia)).
    eapply moves_weaken; [exact M1234| |].
    + clear - Satl Satr Sabl Sabr Sbtl Sbtr Sbbl Sbbr Ha0' Ha1' Hb0' Hb1' Ha2 Hb2.
      destruct Satl as (_ & _ & _ & Patl), Satr as (_ & _ & _ & Patr),
        Sabl as (_ & _ & _ & Pabl), Sabr as (_ & _ & _ & Pabr),
        Sbtl as (_ & _ & _ & Pbtl), Sbtr as (_ & _ & _ & Pbtr),
        Sbbl as (_ & _ & _ & Pbbl), Sbbr as (_ & _ & _ & Pbbr).
      intros p q (i & j & l & (Hi & Hj & Hl) & Hpq).
      destruct (Nat.lt_ge_cases i h) as [Hih|Hih],
               (Nat.lt_ge_cases j h) as [Hjh|Hjh].
      * left; left; left. exists i, j, l.
        split; [quad_index|].
        destruct Hpq as [[-> ->]|[-> ->]]; [left|right]; quad_index.
      * destruct Hpq as [[-> ->]|[-> ->]].
        -- left; left; right. exists i, (j - h), l.
           split; [quad_index|]. left. quad_index.
        -- left; right. exists i, (j - h), l.
           split; [quad_index|]. right. quad_index.
      * destruct Hpq as [[-> ->]|[-> ->]].
        -- left; right. exists (i - h), j, l.
           split; [quad_index|]. left. quad_index.
        -- left; left; right. exists (i - h), j, l.
           split; [quad_index|]. right. quad_index.
      * right. exists (i - h), (j - h), l.
        split; [quad_index|].
        destruct Hpq as [[-> ->]|[-> ->]]; [left|right]; quad_index.
    + intros p [[[[H|H]|[H|H]]|[H|H]]|[H|H]];
        solve [left; eapply sub3_In; [|exact H]; eassumption
              |right; eapply sub3_In; [|exact H]; eassumption].
Qed.

End SwapRec.

Lemma transposes_target a n p q :
  sh0 a = n -> sh1 a = n -> transposes a p q -> In3 a p.
Proof. intros ? ? (i & j & l & Hs & -> & _). exists i, j, l. auto. Qed.

Lemma transposes_source a n p q :
  sh0 a = n -> sh1 a = n -> transposes a p q -> In3 a q.
Proof.
  intros ? ? (i & j & l & Hs & _ & ->). exists j, i, l.
  split; [|reflexivity]. unfold in_shape in *. lia.
Qed.

Lemma bounded_ex_dec (P : nat -> Prop) (n : nat) :
  (forall i, P i \/ ~ P i) ->
  (exists i, i < n /\ P i) \/ ~ (exists i, i < n /\ P i).
Proof.
  intros Pdec. induction n as [|n [(i & Hi & HP)|Hno]].
  - right. intros (i & Hi & _). lia.
  - left. exists i. split; [lia|assumption].
  - destruct (Pdec n) as [HP|HnP].
    + left. exists n. split; [lia|assumption].
    + right. intros (i & Hi & HP). destruct (decide (i = n)) as [->|Hne].
      * contradiction.
      * apply Hno. exists i. split; [lia|assumption].
Qed.

Lemma In3_dec (a : view3) (p : nat) : In3 a p \/ ~ In3 a p.
Proof.
  destruct (bounded_ex_dec
    (fun i => exists j, j < sh1 a /\ exists l, l < sh2 a /\ p = pos3 a i j l)
    (sh0 a)) as [(i & Hi & j & Hj & l & Hl & E)|Hno].
  - intros i. apply bounded_ex_dec. intros j. apply bounded_ex_dec.
    intros l. destruct (decide (p = pos3 a i j l)); [left|right]; assumption.
  - left. exists i, j, l. unfold in_shape. auto.
  - right. intros (i & j & l & (Hi & Hj & Hl) & E). apply Hno.
    exists i. split; [assumption|]. exists j. split; [assumption|].
    exists l. split; assumption.
Qed.

Section TransposeRec.

Context {A : Type}.
Implicit Types (s : state A) (a b : view3) (bf : list A).

Lemma transpose_rec_unfold fuel a :
  transpose_square_rec (A := A) (S fuel) a =
  (let n := sh0 a in
   let n_ := sh1 a in
   if negb (n =? n_) then raise ValueError
   else
     let* _lb := lift (lb_exact (Z.of_nat n)) in
     if n <=? 1 then ret tt
     else
       let half_n := Nat.shiftr n 1 in
       transpose_square_rec fuel (top_left half_n a) >>
       _swap_transpose_square_rec fuel (top_right half_n a) (bottom_left half_n a) >>
       transpose_square_rec fuel (bottom_right half_n a)).
Proof. reflexivity. Qed.

Lemma transpose_spec :
  forall fuel k a bf sc,
    k < fuel ->
    sh0 a = 2 ^ k -> sh1 a = 2 ^ k ->
    inj3 a -> inb3 a (length bf) ->
    exists bf',
      transpose_square_rec fuel a (mkState bf sc) = (Ok tt, mkState bf' sc) /\
      moves (transposes a) (In3 a) bf bf'.
Proof.
  induction fuel as [|fuel IH]; intros k a bf sc Hk Ha0 Ha1 Hia Hba; [lia|].
  rewrite transpose_rec_unfold. cbv zeta.
  rewrite Ha0, Ha1, Nat.eqb_refl. change (negb true) with false. cbv iota.
  rewrite (bind_ok _ _ _ (Z.of_nat k) (mkState bf sc))
    by (unfold lift; rewrite lb_exact_of_nat_pow2; reflexivity).
  destruct k as [|k].
  - change (2 ^ 0 <=? 1) with true. cbv iota.
    exists bf. split; [reflexivity|].
    split; [reflexivity|]. split; [|reflexivity].
    intros p q (i & j & l & (Hi & Hj & Hl) & -> & ->).
    rewrite Ha0 in Hi. rewrite Ha1 in Hj. simpl in Hi, Hj.
    assert (i = 0) as -> by lia. assert (j = 0) as -> by lia. reflexivity.
  - assert (Hbig : 1 < 2 ^ S k).
    { rewrite Nat.pow_succ_r'. pose proof (pow2_pos k). lia. }
    destruct (Nat.leb_spec (2 ^ S k) 1) as [?|_]; [lia|].
    rewrite shiftr1_pow2. set (h := 2 ^ k).
    assert (Hh : 0 < h) by apply pow2_pos.
    assert (Ha0' : sh0 a = 2 * h) by (rewrite Ha0; apply Nat.pow_succ_r').
    assert (Ha1' : sh1 a = 2 * h) by (rewrite Ha1; apply Nat.pow_succ_r').
    pose proof (sub3_top_left a h Ha0' Ha1') as Stl.
    pose proof (sub3_top_right a h Ha0' Ha1') as Str.
    pose proof (sub3_bottom_left a h Ha0' Ha1') as Sbl.
    pose proof (sub3_bottom_right a h Ha0' Ha1') as Sbr.
    assert (Dq : forall x1 x2 di1 dj1 di2 dj2,
               sub3 x1 a di1 dj1 -> sub3 x2 a di2 dj2 ->
               sh0 x1 = h -> sh1 x1 = h -> sh0 x2 = h -> sh1 x2 = h ->
               di1 + h <= di2 \/ di2 + h <= di1 \/ dj1 + h <= dj2 \/ dj2 + h <= dj1 ->
               disj3 x1 x2).
    { intros x1 x2 di1 dj1 di2 dj2 S1 S2 E10 E11 E20 E21 Hsep.
      eapply sub3_disj_same; eauto. rewrite E10, E11, E20, E21. exact Hsep. }
    destruct (IH k (top_left h a) bf sc) as (bf1 & E1 & M1);
      try (simpl; lia); eauto using sub3_inj, sub3_inb.
    pose proof M1 as (L1 & _ & _).
    destruct (swap_spec fuel k (top_right h a) (bottom_left h a) (sh2 a) bf1 sc)
      as (bf2 & E2 & M2);
      try (simpl; lia); try rewrite L1; eauto using sub3_inj, sub3_inb.
    { eapply Dq; eauto; simpl; lia. }
    pose proof M2 as (L2 & _ & _).
    destruct (IH k (bottom_right h a) bf2 sc) as (bf3 & E3 & M3);
      try (simpl; lia); try rewrite L2, L1; eauto using sub3_inj, sub3_inb.
    exists bf3. split.
    { step E1. step E2. exact E3. }
    pose proof (moves_seq _ _ _ _ _ _ _ M1 M2) as M12.
    specialize (M12 ltac:(intros p H [H'|H']; revert p H H';
      [apply (Dq _ _ 0 0 0 h)|apply (Dq _ _ 0 0 h 0)]; auto; simpl; lia)).
    specialize (M12 ltac:(intros p q; apply (transposes_target _ h); simpl; lia)).
    specialize (M12 ltac:(intros p q; apply (swaps_source _ _ h); simpl; lia)).
    pose proof (moves_seq _ _ _ _ _ _ _ M12 M3) as M123.
    specialize (M123 ltac:(intros p [H|[H|H]]; revert p H;
      [apply (Dq _ _ 0 0 h h)|apply (Dq _ _ 0 h h h)|apply (Dq _ _ h 0 h h)];
      auto; simpl; lia)).
    specialize (M123 ltac:(intros p q [H|H]; [left|right]; revert H;
      [apply (transposes_target _ h)|apply (swaps_target _ _ h)]; simpl; lia)).
    specialize (M123 ltac:(intros p q; apply (transposes_source _ h); simpl; lia)).
    eapply moves_weaken; [exact M123| |].
    + clear - Stl Str Sbl Sbr Ha0' Ha1'.
      destruct Stl as (_ & _ & _ & Ptl), Str as (_ & _ & _ & Ptr),
        Sbl as (_ & _ & _ & Pbl), Sbr as (_ & _ & _ & Pbr).
      intros p q (i & j & l & (Hi & Hj & Hl) & -> & ->).
      destruct (Nat.lt_ge_cases i h) as [Hih|Hih],
               (Nat.lt_ge_cases j h) as [Hjh|Hjh].
      * left; left. exists i, j, l. quad_index.
      * left; right. exists i, (j - h), l.
        split; [quad_index|]. left. quad_index.
      * left; right. exists (i - h), j, l.
        split; [quad_index|]. right. quad_index.
      * right. exists (i - h), (j - h), l. quad_index.
    + intros p [[H|[H|H]]|H]; (eapply sub3_In; [|exact H]; eassumption).
Qed.

Lemma transpose_square_ok k a bf sc :
  sh0 a = 2 ^ k -> sh1 a = 2 ^ k ->
  inj3 a -> inb3 a (length bf) ->
  exists bf',
    transpose_square a (mkState bf sc) = (Ok tt, mkState bf' sc) /\
    moves (transposes a) (In3 a) bf bf'.
Proof.
  intros Ha0 Ha1 Hia Hba. unfold transpose_square.
  apply (transpose_spec _ k); try assumption.
  rewrite Ha0. pose proof (pow2_gt k). lia.
Qed.

End TransposeRec.

(** ** Contiguous segments of the buffer *)

Section Segments.

Context {A : Type}.
Implicit Types (bf : list A) (f g : nat -> A) (G : nat -> nat -> A).

Lemma seg_ext off n bf f g :
  (forall i, i < n -> f i = g i) -> seg off n bf f -> seg off n bf g.
Proof. intros E H i Hi. rewrite <- E by assumption. apply H, Hi. Qed.

Lemma rows_hold_ext off rows len bf G G' :
  (forall i j, i < rows -> j < len -> G i j = G' i j) ->
  rows_hold off rows len bf G -> rows_hold off rows len bf G'.
Proof. intros E H i j Hi Hj. rewrite <- E by assumption. apply H; assumption. Qed.

Lemma same_outside_refl off n bf : same_outside off n bf bf.
Proof. split; reflexivity. Qed.

Lemma same_outside_trans off n bf0 bf1 bf2 :
  same_outside off n bf0 bf1 -> same_outside off n bf1 bf2 ->
  same_outside off n bf0 bf2.
Proof.
  intros (L1 & F1) (L2 & F2). split; [congruence|].
  intros p Hp. rewrite F2, F1 by assumption. reflexivity.
Qed.

Lemma same_outside_widen off n off' n' bf bf' :
  off' <= off -> off + n <= off' + n' ->
  same_outside off n bf bf' -> same_outside off' n' bf bf'.
Proof.
  intros H1 H2 (L & F). split; [assumption|]. intros p Hp. apply F. lia.
Qed.

(** A segment that lies outside the changed cells is preserved. *)
Lemma seg_frame off n off' n' bf bf' f :
  off' + n' <= off \/ off + n <= off' ->
  same_outside off n bf bf' -> seg off' n' bf f -> seg off' n' bf' f.
Proof.
  intros Hsep (_ & F) H i Hi. rewrite F by lia. apply H, Hi.
Qed.

Lemma rows_hold_row off rows len bf G i :
  i < rows -> rows_hold off rows len bf G -> seg (off + i * len) len bf (G i).
Proof. intros Hi H j Hj. apply H; assumption. Qed.

Lemma rows_hold_of_rows off rows len bf G :
  (forall i, i < rows -> seg (off + i * len) len bf (G i)) ->
  rows_hold off rows len bf G.
Proof. intros H i j Hi Hj. apply H; assumption. Qed.

Lemma seg_rows off rows len bf f :
  seg off (rows * len) bf f ->
  rows_hold off rows len bf (fun i j => f (i * len + j)).
Proof.
  intros H i j Hi Hj. rewrite <- Nat.add_assoc. apply H. nia.
Qed.

Lemma rows_seg off rows len bf G :
  rows_hold off rows len bf G ->
  seg off (rows * len) bf (fun t => G (t / len) (t mod len)).
Proof.
  intros H t Ht.
  assert (Hlen : 0 < len) by (destruct len; [lia|lia]).
  pose proof (Nat.div_mod_eq t len) as E.
  pose proof (Nat.mod_upper_bound t len ltac:(lia)) as Hm.
  assert (Hd : t / len < rows).
  { apply Nat.Div0.div_lt_upper_bound. lia. }
  specialize (H (t / len) (t mod len) Hd Hm).
  replace (off + t) with (off + t / len * len + t mod len) by lia. exact H.
Qed.

Lemma seg_lt off n bf f i : seg off n bf f -> i < n -> off + i < length bf.
Proof. intros H Hi. eapply lookup_lt_Some. apply H, Hi. Qed.

End Segments.

(** ** Loops over the rows of a matrix *)

Section RowLoop.

Context {A : Type}.
Implicit Types (bf : list A) (sc : option (list A)).

(** A loop whose [i]-th iteration rewrites row [i] from [G i] to [R i], and
    touches nothing else but the scratch contents, rewrites the matrix from
    [G] to [R]. *)
Lemma for_rows (Pre : option nat -> Prop) (body : nat -> M A unit)
    off rows len G R bf sc :
  Pre (shape_of sc) ->
  rows_hold off rows len bf G ->
  (forall i bf1 sc1, i < rows -> Pre (shape_of sc1) ->
     seg (off + i * len) len bf1 (G i) ->
     exists bf2 sc2,
       body i (mkState bf1 sc1) = (Ok tt, mkState bf2 sc2) /\
       seg (off + i * len) len bf2 (R i) /\
       same_outside (off + i * len) len bf1 bf2 /\
       shape_of sc2 = shape_of sc1) ->
  exists bf' sc',
    for_range rows body (mkState bf sc) = (Ok tt, mkState bf' sc') /\
    rows_hold off rows len bf' R /\
    same_outside off (rows * len) bf bf' /\
    shape_of sc' = shape_of sc.
Proof.
  intros Hpre HG Hbody.
  destruct (for_range_inv
    (fun i t =>
       (forall r, r < rows ->
          seg (off + r * len) len (buf t) (if r <? i then R r else G r)) /\
       same_outside off (rows * len) bf (buf t) /\
       shape_of (scratch t) = shape_of sc)
    body rows (mkState bf sc)) as (s' & E & Hrows & Hout & Hsh).
  { split; [|split; [apply same_outside_refl|reflexivity]].
    intros r Hr. simpl. apply (rows_hold_row off rows); assumption. }
  { intros i [bf1 sc1] Hi (Hrows & Hout & Hsh). simpl in Hrows, Hout, Hsh.
    destruct (Hbody i bf1 sc1 Hi) as (bf2 & sc2 & E & HR & Hfr & Hsh2).
    - rewrite Hsh. exact Hpre.
    - specialize (Hrows i Hi). rewrite Nat.ltb_irrefl in Hrows. exact Hrows.
    - exists (mkState bf2 sc2). split; [exact E|]. simpl.
      split; [|split].
      + intros r Hr. destruct (Nat.ltb_spec r (S i)) as [Hlt|Hge].
        * destruct (decide (r = i)) as [->|Hne]; [exact HR|].
          apply (seg_frame (off + i * len) len _ _ bf1); [nia|assumption|].
          specialize (Hrows r Hr).
          destruct (Nat.ltb_spec r i); [assumption|lia].
        * apply (seg_frame (off + i * len) len _ _ bf1); [nia|assumption|].
          specialize (Hrows r Hr).
          destruct (Nat.ltb_spec r i); [lia|assumption].
      + eapply same_outside_trans; [exact Hout|].
        eapply same_outside_widen; [| |exact Hfr]; nia.
      + congruence. }
  destruct s' as [bf' sc']. simpl in Hrows, Hout, Hsh.
  exists bf', sc'. split; [exact E|]. split; [|split; assumption].
  apply rows_hold_of_rows. intros i Hi. specialize (Hrows i Hi).
  destruct (Nat.ltb_spec i rows); [assumption|lia].
Qed.

End RowLoop.

Lemma vpos_contig (x : view1) i : vstride x = 1 -> vpos x i = voff x + i.
Proof. unfold vpos. intros ->. lia. Qed.

Lemma mixed_radix_inj (b a r a' r' : nat) :
  a * b + r = a' * b + r' -> r < b -> r' < b -> a = a' /\ r = r'.
Proof.
  intros E Hr Hr'.
  assert (a = a') as ->.
  { destruct (Nat.lt_trichotomy a a') as [H|[H|H]]; [exfalso|assumption|exfalso].
    - assert ((a + 1) * b <= a' * b) by (apply Nat.mul_le_mono_r; lia). lia.
    - assert ((a' + 1) * b <= a * b) by (apply Nat.mul_le_mono_r; lia). lia. }
  split; [reflexivity|lia].
Qed.

Lemma radix_bound (b n a r : nat) : a < n -> r < b -> a * b + r < n * b.
Proof.
  intros Ha Hr.
  assert ((a + 1) * b <= n * b) by (apply Nat.mul_le_mono_r; lia). lia.
Qed.

Lemma pos3_square off n m i j l :
  pos3 (square_view off n m) i j l = off + i * (n * m) + (j * m + l).
Proof. unfold pos3, square_view. simpl. lia. Qed.

Lemma inj3_square off n m : inj3 (square_view off n m).
Proof.
  intros i j l i' j' l' (Hi & Hj & Hl) (Hi' & Hj' & Hl') E.
  simpl in Hi, Hj, Hl, Hi', Hj', Hl'. rewrite !pos3_square in E.
  assert (E1 : i * (n * m) + (j * m + l) = i' * (n * m) + (j' * m + l')) by lia.
  apply mixed_radix_inj in E1 as [-> E2]; [|apply radix_bound; assumption..].
  apply mixed_radix_inj in E2 as [-> ->]; auto.
Qed.

Lemma In3_square off n m p :
  In3 (square_view off n m) p -> off <= p < off + n * (n * m).
Proof.
  intros (i & j & l & (Hi & Hj & Hl) & ->). simpl in Hi, Hj, Hl.
  rewrite pos3_square.
  pose proof (radix_bound m n j l Hj Hl).
  pose proof (radix_bound (n * m) n i (j * m + l) Hi ltac:(assumption)). lia.
Qed.

Section RowsOps.

Context {A : Type}.
Implicit Types (bf : list A) (sc : option (list A)) (x : view1).

(** [transpose_square] on the square view of a contiguous segment. *)
Lemma transpose_rows k m off bf sc G :
  0 < m ->
  rows_hold off (2 ^ k) (2 ^ k * m) bf G ->
  exists bf',
    transpose_square (square_view off (2 ^ k) m) (mkState bf sc)
    = (Ok tt, mkState bf' sc) /\
    rows_hold off (2 ^ k) (2 ^ k * m) bf'
      (fun i e => G (e / m) (i * m + e mod m)) /\
    same_outside off (2 ^ k * (2 ^ k * m)) bf bf'.
Proof.
  intros Hm HG. set (n := 2 ^ k) in *.
  destruct (transpose_square_ok k (square_view off n m) bf sc)
    as (bf' & E & L & Mv & F); try reflexivity.
  - apply inj3_square.
  - intros i j l (Hi & Hj & Hl). simpl in Hi, Hj, Hl. rewrite pos3_square.
    eapply lookup_lt_Some.
    apply (HG i (j * m + l)); [assumption|apply radix_bound; assumption].
  - exists bf'. split; [exact E|]. split.
    + intros i e Hi He.
      pose proof (Nat.div_mod_eq e m) as Ee.
      pose proof (Nat.mod_upper_bound e m ltac:(lia)) as Hl.
      assert (Hj : e / m < n) by (apply Nat.Div0.div_lt_upper_bound; lia).
      rewrite (Mv (off + i * (n * m) + e)
                  (off + e / m * (n * m) + (i * m + e mod m))).
      * apply HG; [assumption|apply radix_bound; assumption].
      * exists i, (e / m), (e mod m). split; [split; [|split]; assumption|].
        rewrite !pos3_square. split; [|reflexivity]. lia.
    + split; [assumption|]. intros p Hp. apply F.
      intros Hin. apply In3_square in Hin. lia.
Qed.

Lemma wr_contig x i v bf sc :
  vstride x = 1 -> i < vlen x -> voff x + i < length bf ->
  wr x i v (mkState bf sc) = (Ok tt, mkState (<[voff x + i := v]> bf) sc).
Proof.
  intros Hs Hi Hl. rewrite wr_ok; simpl; rewrite ?vpos_contig by assumption; auto.
Qed.

Lemma rd_contig x i v bf sc :
  vstride x = 1 -> i < vlen x -> bf !! (voff x + i) = Some v ->
  rd x i (mkState bf sc) = (Ok v, mkState bf sc).
Proof.
  intros Hs Hi Hl. apply rd_ok; simpl; rewrite ?vpos_contig by assumption; auto.
Qed.

End RowsOps.

Section SegOps.

Context {A : Type}.
Implicit Types (bf : list A) (sc : option (list A)) (x : view1).

(** [_deinterleave] on a contiguous row: the even-indexed elements end in
    the first half, the odd-indexed ones in the second half. *)
Lemma deinterleave_seg x h bf c g :
  vlen x = h * 2 -> vstride x = 1 -> h <= length c ->
  seg (voff x) (h * 2) bf g ->
  exists bf' c',
    _deinterleave x (mkState bf (Some c)) = (Ok tt, mkState bf' (Some c')) /\
    seg (voff x) h bf' (fun p => g (2 * p)) /\
    seg (voff x + h) h bf' (fun p => g (2 * p + 1)) /\
    same_outside (voff x) (h * 2) bf bf' /\
    length c' = length c.
Proof.
  rewrite (Nat.mul_comm h 2). intros Hlen Hst Hc Hg.
  destruct (deinterleave_spec x h bf c Hlen ltac:(lia)) as
    (bf' & c' & E & L & Lc & Hmv & Hfr); [|assumption|].
  { intros i Hi. rewrite vpos_contig by assumption. eapply seg_lt; eassumption. }
  exists bf', c'. split; [exact E|].
  split; [|split; [|split; [split; [assumption|]|assumption]]].
  - intros p Hp. destruct (Hmv p Hp) as [E1 _].
    rewrite !vpos_contig in E1 by assumption. rewrite E1. apply Hg. lia.
  - intros p Hp. destruct (Hmv p Hp) as [_ E2].
    rewrite !vpos_contig in E2 by assumption.
    rewrite <- Nat.add_assoc, E2. apply Hg. lia.
  - intros p Hp. apply Hfr. intros i Hi. rewrite vpos_contig by assumption. lia.
Qed.

(** [_interleave] on a contiguous row whose halves hold [g0] and [g1]. *)
Lemma interleave_seg x h bf c g0 g1 :
  vlen x = h * 2 -> vstride x = 1 -> h <= length c ->
  seg (voff x) h bf g0 -> seg (voff x + h) h bf g1 ->
  length bf >= voff x + h * 2 ->
  exists bf' c',
    _interleave x (mkState bf (Some c)) = (Ok tt, mkState bf' (Some c')) /\
    seg (voff x) (h * 2) bf'
      (fun e => if Nat.even e then g0 (e / 2) else g1 (e / 2)) /\
    same_outside (voff x) (h * 2) bf bf' /\
    length c' = length c.
Proof.
  rewrite (Nat.mul_comm h 2). intros Hlen Hst Hc Hg0 Hg1 Hbf.
  destruct (interleave_spec x h bf c Hlen ltac:(lia)) as
    (bf' & c' & E & L & Lc & Hmv & Hfr); [|assumption|].
  { intros i Hi. rewrite vpos_contig by assumption. lia. }
  exists bf', c'. split; [exact E|].
  split; [|split; [split; [assumption|]|assumption]].
  - intros e He.
    pose proof (Nat.div_mod_eq e 2) as Ee.
    pose proof (Nat.mod_upper_bound e 2 ltac:(lia)) as Hm2.
    assert (Hp : e / 2 < h) by lia.
    destruct (Hmv (e / 2) Hp) as [E1 E2].
    rewrite !vpos_contig in E1, E2 by assumption.
    destruct (Nat.even e) eqn:Hev.
    + apply Nat.even_spec in Hev as [q ->].
      replace (2 * q / 2) with q in *
        by (rewrite Nat.mul_comm, Nat.div_mul; lia).
      rewrite E1. apply Hg0. lia.
    + assert (Hodd : Nat.odd e = true) by (rewrite <- Nat.negb_even, Hev; reflexivity).
      apply Nat.odd_spec in Hodd as [q ->].
      replace ((2 * q + 1) / 2) with q in *
        by (apply (Nat.div_unique _ 2 q 1); lia).
      rewrite E2, Nat.add_assoc. apply Hg1. lia.
  - intros p Hp. apply Hfr. intros i Hi. rewrite vpos_contig by assumption. lia.
Qed.

End SegOps.

Section CoreOps.

Context {A : Type}.
Context (add sub mul : A -> A -> A) (twiddle : nat -> nat -> A).
Implicit Types (bf : list A) (sc : option (list A)) (x : view1).

Lemma mul_twiddles_spec x n c vec_len bf sc g :
  vlen x = n -> vstride x = 1 -> seg (voff x) n bf g ->
  exists bf',
    mul_twiddles mul twiddle x n c vec_len (mkState bf sc)
    = (Ok tt, mkState bf' sc) /\
    seg (voff x) n bf' (fun j => mul (g j) (twiddle (c * j) vec_len)) /\
    same_outside (voff x) n bf bf'.
Proof.
  intros Hlen Hst Hg. unfold mul_twiddles.
  destruct (for_range_inv
    (fun i t => scratch t = sc /\
       seg (voff x) n (buf t)
         (fun j => if j <? i then mul (g j) (twiddle (c * j) vec_len) else g j) /\
       same_outside (voff x) n bf (buf t))
    (fun j => let* v := rd x j in wr x j (mul v (twiddle (c * j) vec_len)))
    n (mkState bf sc)) as (s' & E & Hsc & Hseg & Hout).
  { split; [reflexivity|]. split; [|apply same_outside_refl].
    intros j Hj. simpl. apply Hg, Hj. }
  { intros i [bf1 sc1] Hi (Hsc & Hseg & Hout). simpl in Hsc, Hseg, Hout. subst sc1.
    pose proof (Hseg i Hi) as Hv. cbv beta in Hv. rewrite Nat.ltb_irrefl in Hv.
    eexists. split.
    - erewrite bind_ok; [|apply rd_contig; [assumption|lia|exact Hv]].
      apply wr_contig; [assumption|lia|]. eapply lookup_lt_Some, Hv.
    - simpl. split; [reflexivity|]. split.
      + intros j Hj. destruct (decide (j = i)) as [->|Hne].
        * rewrite list_lookup_insert_eq by (eapply lookup_lt_Some, Hv).
          destruct (Nat.ltb_spec i (S i)); [reflexivity|lia].
        * rewrite list_lookup_insert_ne by lia.
          rewrite (Hseg j Hj). cbv beta.
          destruct (Nat.ltb_spec j i), (Nat.ltb_spec j (S i));
            try reflexivity; lia.
      + destruct Hout as (L & F). split; [rewrite length_insert; assumption|].
        intros p Hp. rewrite list_lookup_insert_ne by lia. apply F, Hp. }
  destruct s' as [bf' sc']. simpl in Hsc, Hseg, Hout. subst sc'.
  exists bf'. split; [exact E|]. split; [|assumption].
  intros j Hj. rewrite (Hseg j Hj). cbv beta.
  destruct (Nat.ltb_spec j n); [reflexivity|lia].
Qed.

(** The length-2 base case of [_fft_inplace]. *)
Lemma butterfly_spec x bf sc g :
  vlen x = 2 -> vstride x = 1 -> seg (voff x) 2 bf g ->
  exists bf',
    (let* x0 := rd x 0 in
     let* x1 := rd x 1 in
     wr x 0 (add x0 x1) >> wr x 1 (sub x0 x1)) (mkState bf sc)
    = (Ok tt, mkState bf' sc) /\
    seg (voff x) 2 bf'
      (fun j => if j =? 0 then add (g 0) (g 1) else sub (g 0) (g 1)) /\
    same_outside (voff x) 2 bf bf'.
Proof.
  intros Hlen Hst Hg.
  pose proof (Hg 0 ltac:(lia)) as H0. pose proof (Hg 1 ltac:(lia)) as H1.
  pose proof (lookup_lt_Some _ _ _ H0) as L0.
  pose proof (lookup_lt_Some _ _ _ H1) as L1.
  eexists. split.
  - erewrite bind_ok; [|apply rd_contig; [assumption|lia|exact H0]].
    erewrite bind_ok; [|apply rd_contig; [assumption|lia|exact H1]].
    erewrite bind_ok; [|apply wr_contig; [assumption|lia|exact L0]].
    apply wr_contig; [assumption|lia|]. rewrite length_insert. exact L1.
  - split.
    + intros j Hj. destruct j as [|[|j]]; [| |lia].
      * rewrite list_lookup_insert_ne by lia.
        rewrite list_lookup_insert_eq by assumption. reflexivity.
      * rewrite list_lookup_insert_eq by (rewrite length_insert; assumption).
        reflexivity.
    + split; [rewrite !length_insert; reflexivity|].
      intros p Hp. rewrite !list_lookup_insert_ne by lia. reflexivity.
Qed.

End CoreOps.

Lemma odd_half_zero (k' : Z) :
  (0 < k')%Z -> (k' mod 2 = 1)%Z -> ((k' - 1) / 2 = 0)%Z <-> k' = 1%Z.
Proof.
  intros Hpos Hodd. pose proof (Z.div_mod k' 2 ltac:(lia)) as Hdm. split.
  - intros H0. pose proof (Z.div_mod (k' - 1) 2 ltac:(lia)) as H1.
    pose proof (Z.mod_pos_bound (k' - 1) 2 ltac:(lia)). lia.
  - intros ->. reflexivity.
Qed.

Lemma scrach_length_pos (k : Z) :
  (0 < k)%Z ->
  exists k' j,
    halve_while_even (S (Z.to_nat (Z.abs k))) k = Some k' /\
    (0 < k')%Z /\ (k' mod 2 = 1)%Z /\ (0 <= j)%Z /\ k = (k' * 2 ^ j)%Z /\
    _scrach_length k = Ok (if (k' =? 1)%Z then 0%Z else 2 ^ ((k' - 1) / 2))%Z.
Proof.
  intros Hk.
  destruct (halve_while_even_total (S (Z.to_nat (Z.abs k))) k)
    as (k' & j & E & Hpos & Hodd & Hj & Hfac); [lia|lia|].
  exists k', j. repeat split; try assumption.
  unfold _scrach_length. destruct (Z.eqb_spec k 0) as [?|_]; [lia|].
  rewrite E. cbv zeta. rewrite shiftr_1.
  pose proof (odd_half_zero k' Hpos Hodd) as Hhalf.
  destruct (Z.eqb_spec ((k' - 1) / 2) 0) as [E0|N0].
  - destruct (Z.eqb_spec k' 1) as [_|N1]; [reflexivity|]. tauto.
  - destruct (Z.eqb_spec k' 1) as [E1|_]; [tauto|].
    assert (0 <= (k' - 1) / 2)%Z by (apply Z.div_pos; lia).
    destruct (Z.ltb_spec ((k' - 1) / 2) 0); [lia|].
    rewrite shiftl_1 by lia. reflexivity.
Qed.

(** C4 (as stated): the sizing procedure would return 0 exactly for
    [N = 2] and [N = 4].  It also returns 0 at [k = 4], that is
    [N = 16]: the loop takes 4 to 2 and then to 1. *)
Lemma scrach_length_zero_not_only_2_4 :
  _scrach_length 4 = Ok 0%Z /\
  halve_while_even 5 4 = Some 1%Z /\
  (2 ^ 4 <> 2)%Z /\ (2 ^ 4 <> 4)%Z /\
  ~ (forall k : Z, (0 <= k)%Z ->
       _scrach_length k = Ok 0%Z <-> (2 ^ k = 2 \/ 2 ^ k = 4)%Z).
Proof.
  split; [reflexivity|]. split; [reflexivity|].
  split; [discriminate|]. split; [discriminate|].
  intros H. destruct (H 4%Z ltac:(lia)) as [H16 _].
  specialize (H16 eq_refl). cbn in H16. lia.
Qed.

(** C4 (amended): for [k = log2 N >= 1] the procedure halves [k] down to
    its odd part [k'] and returns 0 exactly when [k' = 1], that is exactly
    when [k] itself is a power of two ([N] = 2, 4, 16, 256, ...); otherwise
    it returns [2 ^ ((k' - 1) / 2)].  At [k = 0] it returns 0 without
    running the loop. *)
Theorem scrach_length_odd_part (k : Z) :
  (0 <= k)%Z ->
  if (k =? 0)%Z then _scrach_length k = Ok 0%Z
  else exists k' j r,
    halve_while_even (S (Z.to_nat (Z.abs k))) k = Some k' /\
    (0 <= j)%Z /\ k = (k' * 2 ^ j)%Z /\ Z.odd k' = true /\
    _scrach_length k = Ok r /\
    r = (if (k' =? 1)%Z then 0 else 2 ^ ((k' - 1) / 2))%Z /\
    (r = 0%Z <-> k' = 1%Z) /\
    (k' = 1%Z <-> k = (2 ^ j)%Z).
Proof.
  intros Hk. destruct (Z.eqb_spec k 0) as [->|Hne]; [reflexivity|].
  destruct (scrach_length_pos k ltac:(lia))
    as (k' & j & E & Hpos & Hodd & Hj & Hfac & Hres).
  exists k', j, (if (k' =? 1)%Z then 0 else 2 ^ ((k' - 1) / 2))%Z.
  repeat split; try assumption.
  - rewrite Zodd_mod, Hodd. reflexivity.
  - destruct (Z.eqb_spec k' 1); [trivial|].
    intros H0. assert (0 <= (k' - 1) / 2)%Z by (apply Z.div_pos; lia).
    assert (0 < 2 ^ ((k' - 1) / 2))%Z by (apply Z.pow_pos_nonneg; lia). lia.
  - intros ->. reflexivity.
  - intros ->. lia.
  - intros E2. rewrite Hfac in E2.
    assert (0 < 2 ^ j)%Z by (apply Z.pow_pos_nonneg; lia). nia.
Qed.

Lemma scrach_length_odd_part_witness :
  exists k' j r,
    halve_while_even (S (Z.to_nat (Z.abs 12))) 12 = Some k' /\
    (0 <= j)%Z /\ 12%Z = (k' * 2 ^ j)%Z /\ Z.odd k' = true /\
    _scrach_length 12 = Ok r /\
    r = (if (k' =? 1)%Z then 0 else 2 ^ ((k' - 1) / 2))%Z /\
    (r = 0%Z <-> k' = 1%Z) /\
    (k' = 1%Z <-> 12%Z = (2 ^ j)%Z).
Proof. apply (scrach_length_odd_part 12). lia. Defined.

(** ** The scratch length covers the whole recursion *)

Lemma halve_while_even_mono (f f' : nat) (n r : Z) :
  halve_while_even f n = Some r -> f <= f' -> halve_while_even f' n = Some r.
Proof.
  revert f' n. induction f as [|f IH]; intros f' n E Hle; [discriminate|].
  destruct f' as [|f']; [lia|]. simpl in *.
  destruct (Z.land n 1 =? 0)%Z; [|assumption]. apply IH; [assumption|lia].
Qed.

Lemma scrach_length_double (k : Z) :
  (0 < k)%Z -> _scrach_length (2 * k) = _scrach_length k.
Proof.
  intros Hk.
  destruct (halve_while_even_total (S (Z.to_nat (Z.abs k))) k)
    as (k' & j & E & _); [lia|lia|].
  unfold _scrach_length.
  destruct (Z.eqb_spec (2 * k) 0), (Z.eqb_spec k 0); try lia.
  rewrite E.
  assert (E2 : halve_while_even (S (Z.to_nat (Z.abs (2 * k)))) (2 * k) = Some k').
  { cbn [halve_while_even]. rewrite land_1, shiftr_1.
    replace ((2 * k) mod 2)%Z with 0%Z
      by (rewrite Z.mul_comm, Z.mod_mul; lia).
    replace (2 * k / 2)%Z with k by (rewrite Z.mul_comm, Z.div_mul; lia).
    change (0 =? 0)%Z with true. cbv iota.
    eapply halve_while_even_mono; [exact E|lia]. }
  rewrite E2. reflexivity.
Qed.

Lemma scrach_length_odd (k : Z) :
  (3 <= k)%Z -> (k mod 2 = 1)%Z -> _scrach_length k = Ok (2 ^ ((k - 1) / 2))%Z.
Proof.
  intros Hk Hodd. unfold _scrach_length.
  destruct (Z.eqb_spec k 0); [lia|].
  cbn [halve_while_even]. rewrite land_1, Hodd. change (1 =? 0)%Z with false.
  cbv iota zeta. rewrite shiftr_1.
  assert (1 <= (k - 1) / 2)%Z by (apply Z.div_le_lower_bound; lia).
  destruct (Z.eqb_spec ((k - 1) / 2) 0); [lia|].
  destruct (Z.ltb_spec ((k - 1) / 2) 0); [lia|].
  rewrite shiftl_1 by lia. reflexivity.
Qed.

Lemma scrach_length_bound (k : Z) :
  (0 <= k)%Z ->
  exists r, _scrach_length k = Ok r /\
    (r = 0%Z \/ ((0 < r)%Z /\ (r <= 2 ^ ((k - 1) / 2))%Z)).
Proof.
  intros Hk. destruct (Z.eq_dec k 0%Z) as [->|Hne].
  { exists 0%Z. split; [reflexivity|lia]. }
  destruct (scrach_length_pos k ltac:(lia))
    as (k' & j & _ & Hpos & Hodd & Hj & Hfac & Hres).
  eexists. split; [exact Hres|].
  destruct (Z.eqb_spec k' 1); [left; reflexivity|right].
  assert (Hle : (k' <= k)%Z).
  { assert (1 <= 2 ^ j)%Z by (apply (Z.pow_le_mono_r 2 0 j); lia). nia. }
  assert (0 <= (k' - 1) / 2)%Z by (apply Z.div_pos; lia).
  split; [apply Z.pow_pos_nonneg; lia|].
  apply Z.pow_le_mono_r; [lia|]. apply Z.div_le_mono; lia.
Qed.

Lemma fits_even (k : nat) sl :
  2 <= k -> Nat.even k = true -> fits k sl -> fits (k / 2) sl.
Proof.
  intros Hk Hev. apply Nat.even_spec in Hev as [j ->].
  replace (2 * j / 2) with j by (rewrite Nat.mul_comm, Nat.div_mul; lia).
  unfold fits. rewrite Nat2Z.inj_mul. change (Z.of_nat 2) with 2%Z.
  rewrite scrach_length_double by lia. trivial.
Qed.

Lemma fits_odd (k : nat) sl :
  3 <= k -> Nat.odd k = true -> fits k sl ->
  exists n, sl = Some n /\ 2 ^ (k / 2) <= n /\
            fits (k / 2) sl /\ fits (k / 2 + 1) sl.
Proof.
  intros Hk Hodd Hfit. apply Nat.odd_spec in Hodd as [j ->].
  replace ((2 * j + 1) / 2) with j
    by (apply (Nat.div_unique _ 2 j 1); lia).
  assert (Hlen : _scrach_length (Z.of_nat (2 * j + 1)) = Ok (2 ^ Z.of_nat j)%Z).
  { rewrite scrach_length_odd.
    - do 2 f_equal. replace (Z.of_nat (2 * j + 1) - 1)%Z with (Z.of_nat j * 2)%Z by lia.
      apply Z.div_mul. lia.
    - lia.
    - replace (Z.of_nat (2 * j + 1)) with (1 + Z.of_nat j * 2)%Z by lia.
      rewrite Z.mod_add by lia. reflexivity. }
  assert (Hp : (0 < 2 ^ Z.of_nat j)%Z) by (apply Z.pow_pos_nonneg; lia).
  destruct sl as [n|]; unfold fits in Hfit.
  2:{ rewrite Hlen in Hfit. injection Hfit as Hfit. lia. }
  destruct Hfit as (r & Hr & Hle). rewrite Hlen in Hr. injection Hr as <-.
  assert (Hn : 2 ^ j <= n).
  { apply Nat2Z.inj_le. rewrite Nat2Z.inj_pow. exact Hle. }
  exists n. split; [reflexivity|]. split; [assumption|].
  assert (Hsub : forall i, i <= j + 1 -> fits i (Some n)).
  { intros i Hi. unfold fits.
    destruct (scrach_length_bound (Z.of_nat i) ltac:(lia)) as (r & Hr & Hb).
    exists r. split; [exact Hr|]. destruct Hb as [->|[_ Hb]]; [lia|].
    etransitivity; [exact Hb|]. etransitivity; [|exact Hle].
    apply Z.pow_le_mono_r; [lia|].
    apply Z.div_le_upper_bound; lia. }
  split; apply Hsub; lia.
Qed.

Lemma half_pow (k : nat) :
  Z.to_nat (Z.shiftl 1 (Z.shiftr (Z.of_nat k) 1)) = 2 ^ (k / 2).
Proof.
  rewrite shiftr_1, shiftl_1 by (apply Z.div_pos; lia).
  change 2%Z with (Z.of_nat 2). rewrite <- Nat2Z.inj_div, <- Nat2Z.inj_pow.
  apply Nat2Z.id.
Qed.

Lemma pow2_even_half (k : nat) :
  Nat.even k = true -> 2 ^ (k / 2) * 2 ^ (k / 2) = 2 ^ k.
Proof.
  intros Hev. apply Nat.even_spec in Hev as [j ->].
  replace (2 * j / 2) with j by (rewrite Nat.mul_comm, Nat.div_mul; lia).
  rewrite <- Nat.pow_add_r. f_equal. lia.
Qed.

Lemma pow2_odd_half (k : nat) :
  Nat.odd k = true -> 2 ^ (k / 2) * (2 ^ (k / 2) * 2) = 2 ^ k.
Proof.
  intros Hodd. apply Nat.odd_spec in Hodd as [j ->].
  replace ((2 * j + 1) / 2) with j by (apply (Nat.div_unique _ 2 j 1); lia).
  replace (2 * j + 1) with (j + (j + 1)) by lia.
  rewrite (Nat.pow_add_r 2 j (j + 1)), (Nat.pow_add_r 2 j 1). reflexivity.
Qed.

Lemma row_of_square off n i :
  row_of (square_view off n 1) i = mkView1 (off + i * n) n 1.
Proof. unfold row_of, square_view, pos3. simpl. f_equal; lia. Qed.

Section EvenPow.

Context {A : Type}.
Context (add sub mul : A -> A -> A) (twiddle : nat -> nat -> A).
Implicit Types (bf : list A) (sc : option (list A)) (x : view1).

Lemma evenpow_spec rec R k :
  2 <= k -> Nat.even k = true ->
  rec_ok rec R (k / 2) ->
  rec_ok (_fft_inplace_evenpow mul twiddle rec) (even_fun mul twiddle R k) k.
Proof.
  intros Hk Hev Hrec [off len st] bf sc f Hlen Hst Hf Hfit.
  simpl in Hlen, Hst, Hf. subst len st.
  apply fits_even in Hfit; [|assumption..].
  unfold _fft_inplace_evenpow. cbn [vlen].
  rewrite (bind_ok _ _ _ (Z.of_nat k) (mkState bf sc))
    by (unfold lift; rewrite lb_exact_of_nat_pow2; reflexivity).
  rewrite half_pow. set (n := 2 ^ (k / 2)).
  assert (Hnn : n * n = 2 ^ k) by (apply pow2_even_half; assumption).
  assert (Hn1 : n * 1 = n) by lia.
  rewrite (bind_ok _ _ _ (square_view off n 1) (mkState bf sc)).
  2:{ unfold reshape3. cbn [vlen voff vstride].
      replace (n * n * 1) with (2 ^ k) by lia. rewrite Nat.eqb_refl. reflexivity. }
  cbn [sh0 square_view].
  set (G1 := fun i j => f (j * n + i)).
  set (G2 := fun i j => mul (R (G1 i) j) (twiddle (i * j) (2 ^ k))).
  set (G3 := fun i j => G2 j i).
  set (G4 := fun i j => R (G3 i) j).
  (* transpose *)
  rewrite <- Hnn in Hf. apply seg_rows in Hf.
  destruct (transpose_rows (k / 2) 1 off bf sc (fun i j => f (i * n + j)))
    as (bf1 & E1 & H1 & O1); [lia|fold n; rewrite Hn1; exact Hf|].
  fold n in E1, H1, O1. rewrite Hn1 in H1, O1.
  apply (rows_hold_ext _ _ _ _ _ G1) in H1.
  2:{ intros i j _ _. unfold G1. rewrite Nat.div_1_r, Nat.mod_1_r. f_equal. lia. }
  step E1.
  (* first pass over the rows *)
  destruct (for_rows (fits (k / 2))
    (fun i => rec (row_of (square_view off n 1) i) >>
              mul_twiddles mul twiddle (row_of (square_view off n 1) i) n i (2 ^ k))
    off n n G1 G2 bf1 sc Hfit H1) as (bf2 & sc2 & E2 & H2 & O2 & S2).
  { intros i b1 s1 Hi Hs1 Hrow. rewrite row_of_square.
    destruct (Hrec (mkView1 (off + i * n) n 1) b1 s1 (G1 i))
      as (b2 & s2 & Ea & Ha & Oa & Sa); try reflexivity; try assumption.
    cbn [voff] in Ha, Oa. fold n in Ha, Oa.
    destruct (mul_twiddles_spec mul twiddle (mkView1 (off + i * n) n 1)
                n i (2 ^ k) b2 s2 (R (G1 i)))
      as (b3 & Eb & Hb & Ob); try reflexivity; try assumption.
    exists b3, s2. split; [step Ea; exact Eb|].
    split; [exact Hb|]. split; [|assumption].
    eapply same_outside_trans; eassumption. }
  step E2.
  (* transpose back *)
  destruct (transpose_rows (k / 2) 1 off bf2 sc2 G2)
    as (bf3 & E3 & H3 & O3); [lia|fold n; rewrite Hn1; exact H2|].
  fold n in E3, H3, O3. rewrite Hn1 in H3, O3.
  apply (rows_hold_ext _ _ _ _ _ G3) in H3.
  2:{ intros i j _ _. unfold G3. rewrite Nat.div_1_r, Nat.mod_1_r. f_equal. lia. }
  step E3.
  (* second pass over the rows *)
  assert (Hfit2 : fits (k / 2) (shape_of sc2)) by (rewrite S2; exact Hfit).
  destruct (for_rows (fits (k / 2))
    (fun i => rec (row_of (square_view off n 1) i))
    off n n G3 G4 bf3 sc2 Hfit2 H3) as (bf4 & sc4 & E4 & H4 & O4 & S4).
  { intros i b1 s1 Hi Hs1 Hrow. rewrite row_of_square.
    destruct (Hrec (mkView1 (off + i * n) n 1) b1 s1 (G3 i))
      as (b2 & s2 & Ea & Ha & Oa & Sa); try reflexivity; try assumption.
    exists b2, s2. auto. }
  step E4.
  (* last transpose *)
  destruct (transpose_rows (k / 2) 1 off bf4 sc4 G4)
    as (bf5 & E5 & H5 & O5); [lia|fold n; rewrite Hn1; exact H4|].
  fold n in E5, H5, O5. rewrite Hn1 in H5, O5.
  exists bf5, sc4. split; [exact E5|]. cbn [voff].
  split; [|split].
  - rewrite <- Hnn. apply rows_seg in H5. revert H5. apply seg_ext.
    intros t Ht. unfold even_fun. cbv zeta. fold n.
    rewrite Nat.div_1_r, Nat.mod_1_r.
    replace (t / n * 1 + 0) with (t / n) by lia. reflexivity.
  - rewrite <- Hnn.
    eapply same_outside_trans; [exact O1|].
    eapply same_outside_trans; [exact O2|].
    eapply same_outside_trans; [exact O3|].
    eapply same_outside_trans; [exact O4|exact O5].
  - congruence.
Qed.

End EvenPow.

Lemma row_flat_square {A} off c i :
  row_flat (A := A) (square_view off c 2) i (c * 2)
  = ret (mkView1 (off + i * (c * 2)) (c * 2) 1).
Proof.
  unfold row_flat, square_view, pos3. cbn [sh1 sh2 st0 st1 st2 off3].
  rewrite Nat.eqb_refl. cbn [negb]. rewrite Nat.eqb_refl.
  do 2 f_equal. lia.
Qed.

Lemma take1_half o c :
  take1 c (mkView1 o (c * 2) 1) = mkView1 o c 1.
Proof. unfold take1. cbn [voff vlen vstride]. f_equal. lia. Qed.

Lemma drop1_half o c :
  drop1 c (mkView1 o (c * 2) 1) = mkView1 (o + c) c 1.
Proof. unfold drop1. cbn [voff vlen vstride]. f_equal; lia. Qed.

Lemma seg_halves {A} off h (bf : list A) g0 g1 :
  seg off h bf g0 -> seg (off + h) h bf g1 ->
  seg off (h * 2) bf (fun e => if e <? h then g0 e else g1 (e - h)).
Proof.
  intros H0 H1 e He. destruct (Nat.ltb_spec e h) as [Hlt|Hge].
  - apply H0, Hlt.
  - replace (off + e) with (off + h + (e - h)) by lia. apply H1. lia.
Qed.

Lemma even_double_add (i q : nat) : q < 2 -> Nat.even (i * 2 + q) = (q =? 0).
Proof.
  intros Hq. rewrite Nat.add_comm, (Nat.mul_comm i 2), Nat.even_add_mul_2.
  destruct q as [|[|q]]; [reflexivity|reflexivity|lia].
Qed.

Lemma div_double_add (i q : nat) : q < 2 -> (i * 2 + q) / 2 = i.
Proof. intros Hq. symmetry. apply (Nat.div_unique _ 2 i q); lia. Qed.

Lemma mod_double_add (i q : nat) : q < 2 -> (i * 2 + q) mod 2 = q.
Proof. intros Hq. symmetry. apply (Nat.mod_unique _ 2 i q); lia. Qed.

Section CoreOdd.

Context {A : Type}.
Context (add sub mul : A -> A -> A) (twiddle : nat -> nat -> A).
Implicit Types (bf : list A) (sc : option (list A)) (x : view1).

Lemma shape_some sc n : shape_of sc = Some n -> exists c, sc = Some c /\ length c = n.
Proof.
  destruct sc as [c|]; simpl; [|discriminate]. intros [= <-]. eauto.
Qed.

(** One iteration of the first loop of [_fft_inplace_oddpow]: the row pair
    is split into two columns, each is transformed and multiplied by its
    twiddle factors, and the two are merged again. *)
Lemma oddpow_row rec Rc k i o c n' g0 g1 bf1 sc1 g :
  rec_ok rec Rc k -> c = 2 ^ k -> fits k (Some n') -> c <= n' ->
  shape_of sc1 = Some n' ->
  seg o (c * 2) bf1 g ->
  (forall p, p < c -> g (2 * p) = g0 p) ->
  (forall p, p < c -> g (2 * p + 1) = g1 p) ->
  forall vec_len,
  exists bf2 sc2,
    (_deinterleave (mkView1 o (c * 2) 1) >>
     rec (mkView1 o c 1) >>
     mul_twiddles mul twiddle (mkView1 o c 1) c (2 * i) vec_len >>
     rec (mkView1 (o + c) c 1) >>
     mul_twiddles mul twiddle (mkView1 (o + c) c 1) c (2 * i + 1) vec_len >>
     _interleave (mkView1 o (c * 2) 1)) (mkState bf1 sc1)
    = (Ok tt, mkState bf2 sc2) /\
    seg o (c * 2) bf2
      (fun e => if Nat.even e
                then mul (Rc g0 (e / 2)) (twiddle (2 * i * (e / 2)) vec_len)
                else mul (Rc g1 (e / 2)) (twiddle ((2 * i + 1) * (e / 2)) vec_len)) /\
    same_outside o (c * 2) bf1 bf2 /\
    shape_of sc2 = shape_of sc1.
Proof.
  intros Hrec Hc Hfit Hcn Hsh Hg Hg0 Hg1 vec_len.
  assert (Hcpos : 0 < c) by (subst c; apply pow2_pos).
  apply shape_some in Hsh as (c1 & -> & Hl1).
  (* deinterleave *)
  destruct (deinterleave_seg (mkView1 o (c * 2) 1) c bf1 c1 g)
    as (b2 & c2 & E2 & H2a & H2b & O2 & L2);
    [reflexivity|reflexivity|lia|exact Hg|].
  cbn [voff] in H2a, H2b, O2.
  apply (seg_ext _ _ _ _ g0) in H2a; [|exact Hg0].
  apply (seg_ext _ _ _ _ g1) in H2b; [|exact Hg1].
  step E2.
  (* first column *)
  destruct (Hrec (mkView1 o c 1) b2 (Some c2) g0)
    as (b3 & s3 & E3 & H3 & O3 & S3); try reflexivity.
  { cbn [vlen]. exact Hc. }
  { cbn [voff]. rewrite <- Hc. exact H2a. }
  { simpl. rewrite L2, Hl1. exact Hfit. }
  cbn [voff] in H3, O3. rewrite <- Hc in H3, O3.
  apply shape_some in S3 as (c3 & -> & L3).
  step E3.
  destruct (mul_twiddles_spec mul twiddle (mkView1 o c 1) c (2 * i) vec_len
              b3 (Some c3) (Rc g0))
    as (b4 & E4 & H4 & O4); try reflexivity; [exact H3|].
  cbn [voff] in H4, O4.
  step E4.
  assert (H4b : seg (o + c) c b4 g1).
  { eapply seg_frame; [|exact O4|]; [lia|].
    eapply seg_frame; [|exact O3|]; [lia|]. exact H2b. }
  (* second column *)
  destruct (Hrec (mkView1 (o + c) c 1) b4 (Some c3) g1)
    as (b5 & s5 & E5 & H5 & O5 & S5); try reflexivity.
  { cbn [vlen]. exact Hc. }
  { cbn [voff]. rewrite <- Hc. exact H4b. }
  { simpl. rewrite L3, L2, Hl1. exact Hfit. }
  cbn [voff] in H5, O5. rewrite <- Hc in H5, O5.
  apply shape_some in S5 as (c5 & -> & L5).
  step E5.
  destruct (mul_twiddles_spec mul twiddle (mkView1 (o + c) c 1) c (2 * i + 1)
              vec_len b5 (Some c5) (Rc g1))
    as (b6 & E6 & H6 & O6); try reflexivity; [exact H5|].
  cbn [voff] in H6, O6.
  step E6.
  assert (H6a : seg o c b6
            (fun j => mul (Rc g0 j) (twiddle (2 * i * j) vec_len))).
  { eapply seg_frame; [|exact O6|]; [lia|].
    eapply seg_frame; [|exact O5|]; [lia|]. exact H4. }
  (* interleave *)
  destruct (interleave_seg (mkView1 o (c * 2) 1) c b6 c5
              (fun j => mul (Rc g0 j) (twiddle (2 * i * j) vec_len))
              (fun j => mul (Rc g1 j) (twiddle ((2 * i + 1) * j) vec_len)))
    as (b7 & c7 & E7 & H7 & O7 & L7);
    [reflexivity|reflexivity|lia|exact H6a|exact H6| |].
  { cbn [voff]. pose proof (seg_lt _ _ _ _ (c - 1) H6 ltac:(lia)). lia. }
  cbn [voff] in H7, O7.
  exists b7, (Some c7). split; [exact E7|].
  split; [|split].
  - exact H7.
  - eapply same_outside_trans; [exact O2|].
    eapply same_outside_trans;
      [eapply same_outside_widen; [| |exact O3]; lia|].
    eapply same_outside_trans;
      [eapply same_outside_widen; [| |exact O4]; lia|].
    eapply same_outside_trans;
      [eapply same_outside_widen; [| |exact O5]; lia|].
    eapply same_outside_trans;
      [eapply same_outside_widen; [| |exact O6]; lia|].
    exact O7.
  - simpl. congruence.
Qed.

End CoreOdd.

Section CoreOddpow.

Context {A : Type}.
Context (add sub mul : A -> A -> A) (twiddle : nat -> nat -> A).
Implicit Types (bf : list A) (sc : option (list A)) (x : view1).

Lemma bind_ret {X Y} (v : X) (k : X -> M A Y) (s : state A) :
  bind (ret v) k s = k v s.
Proof. reflexivity. Qed.

Lemma oddpow_spec rec Rc Rr k :
  3 <= k -> Nat.odd k = true ->
  rec_ok rec Rc (k / 2) -> rec_ok rec Rr (k / 2 + 1) ->
  rec_ok (_fft_inplace_oddpow mul twiddle rec) (odd_fun mul twiddle Rc Rr k) k.
Proof.
  intros Hk Hodd Hc Hr [off len st] bf sc f Hlen Hst Hf Hfit.
  simpl in Hlen, Hst, Hf. subst len st.
  apply fits_odd in Hfit as (n' & Hsl & Hn' & Hfc & Hfr); [|assumption..].
  rewrite Hsl in Hfc, Hfr.
  unfold _fft_inplace_oddpow. cbn [vlen].
  rewrite (bind_ok _ _ _ (Z.of_nat k) (mkState bf sc))
    by (unfold lift; rewrite lb_exact_of_nat_pow2; reflexivity).
  rewrite half_pow. set (c := 2 ^ (k / 2)) in *.
  replace (Nat.shiftl c 1) with (c * 2)
    by (rewrite Nat.shiftl_mul_pow2; reflexivity).
  set (r := c * 2).
  assert (Hcpos : 0 < c) by apply pow2_pos.
  assert (Hcr : c * r = 2 ^ k) by (apply pow2_odd_half; assumption).
  assert (Hr2 : 2 ^ (k / 2 + 1) = r) by (rewrite Nat.pow_add_r; reflexivity).
  rewrite (bind_ok _ _ _ (square_view off c 2) (mkState bf sc)).
  2:{ unfold reshape3. cbn [vlen voff vstride].
      replace (c * c * 2) with (2 ^ k) by (unfold r in Hcr; lia).
      rewrite Nat.eqb_refl. reflexivity. }
  cbn [sh0 square_view].
  assert (Htake : forall o, take1 c (mkView1 o r 1) = mkView1 o c 1)
    by (intros; apply take1_half).
  assert (Hdrop : forall o, drop1 c (mkView1 o r 1) = mkView1 (o + c) c 1)
    by (intros; apply drop1_half).
  assert (Hflat : forall i, row_flat (A := A) (square_view off c 2) i r
                            = ret (mkView1 (off + i * r) r 1))
    by (intros; apply row_flat_square).
  set (Y := fun j b =>
              mul (Rc (fun p => f (p * r + b)) j) (twiddle (b * j) (2 ^ k))).
  set (Z := fun j d => Rr (Y j) d).
  (* transpose *)
  rewrite <- Hcr in Hf. apply seg_rows in Hf.
  destruct (transpose_rows (k / 2) 2 off bf sc (fun i j => f (i * r + j)))
    as (bf1 & E1 & H1 & O1); [lia|exact Hf|].
  fold c in E1, H1, O1. fold r in H1, O1.
  step E1.
  (* first loop: the columns, two at a time *)
  destruct (for_rows (fun sl => sl = Some n')
    (fun i =>
       let* row_pair := row_flat (square_view off c 2) i r in
       _deinterleave row_pair >>
       rec (take1 c row_pair) >>
       mul_twiddles mul twiddle (take1 c row_pair) c (2 * i) (2 ^ k) >>
       rec (drop1 c row_pair) >>
       mul_twiddles mul twiddle (drop1 c row_pair) c (2 * i + 1) (2 ^ k) >>
       _interleave row_pair)
    off c r _
    (fun i e => if Nat.even e then Y (e / 2) (2 * i) else Y (e / 2) (2 * i + 1))
    bf1 sc Hsl H1) as (bf2 & sc2 & E2 & H2 & O2 & S2).
  { intros i b1 s1 Hi Hs1 Hrow. rewrite Hflat, bind_ret, !Htake, !Hdrop.
    destruct (oddpow_row mul twiddle rec Rc (k / 2) i (off + i * r) c n'
                (fun p => f (p * r + 2 * i)) (fun p => f (p * r + (2 * i + 1)))
                b1 s1 _ Hc eq_refl Hfc Hn' Hs1 Hrow) with (vec_len := 2 ^ k)
      as (b2 & s2 & Ea & Ha & Oa & Sa).
    - intros p Hp. cbv beta. replace (2 * p) with (p * 2 + 0) by lia.
      rewrite div_double_add, mod_double_add by lia. f_equal. lia.
    - intros p Hp. cbv beta. replace (2 * p + 1) with (p * 2 + 1) by lia.
      rewrite div_double_add, mod_double_add by lia. f_equal. lia.
    - exists b2, s2. split; [exact Ea|]. split; [exact Ha|]. split; [exact Oa|].
      exact Sa. }
  step E2.
  (* transpose back *)
  destruct (transpose_rows (k / 2) 2 off bf2 sc2 _ ltac:(lia) H2)
    as (bf3 & E3 & H3 & O3).
  fold c in E3, H3, O3. fold r in H3, O3.
  apply (rows_hold_ext _ _ _ _ _ Y) in H3.
  2:{ intros i e _ _. cbv beta.
      pose proof (Nat.div_mod_eq e 2) as Ee.
      pose proof (Nat.mod_upper_bound e 2 ltac:(lia)) as Hq.
      rewrite even_double_add, div_double_add by assumption.
      destruct (e mod 2) as [|[|q]] eqn:Eq; [| |lia]; cbn [Nat.eqb]; f_equal; lia. }
  step E3.
  (* second loop: the rows *)
  assert (Hfr2 : fits (k / 2 + 1) (shape_of sc2)) by (rewrite S2, Hsl; exact Hfr).
  destruct (for_rows (fits (k / 2 + 1))
    (fun i => let* row := row_flat (square_view off c 2) i r in rec row)
    off c r Y Z bf3 sc2 Hfr2 H3) as (bf4 & sc4 & E4 & H4 & O4 & S4).
  { intros i b1 s1 Hi Hs1 Hrow. rewrite Hflat, bind_ret.
    destruct (Hr (mkView1 (off + i * r) r 1) b1 s1 (Y i))
      as (b2 & s2 & Ea & Ha & Oa & Sa); try reflexivity; try assumption.
    { cbn [vlen]. symmetry. exact Hr2. }
    { cbn [voff]. rewrite Hr2. exact Hrow. }
    cbn [voff] in Ha, Oa. rewrite Hr2 in Ha, Oa.
    exists b2, s2. auto. }
  step E4.
  (* last transpose *)
  destruct (transpose_rows (k / 2) 2 off bf4 sc4 _ ltac:(lia) H4)
    as (bf5 & E5 & H5 & O5).
  fold c in E5, H5, O5. fold r in H5, O5.
  step E5.
  (* third loop: restore the order of every row pair *)
  assert (Hs4 : shape_of sc4 = Some n') by congruence.
  destruct (for_rows (fun sl => sl = Some n')
    (fun i =>
       let* row_pair := row_flat (square_view off c 2) i r in
       _deinterleave row_pair)
    off c r _
    (fun i e => if e <? c then Z e (i * 2) else Z (e - c) (i * 2 + 1))
    bf5 sc4 Hs4 H5) as (bf6 & sc6 & E6 & H6 & O6 & S6).
  { intros i b1 s1 Hi Hs1 Hrow. rewrite Hflat, bind_ret.
    apply shape_some in Hs1 as (c1 & -> & Hl1).
    destruct (deinterleave_seg (mkView1 (off + i * r) r 1) c b1 c1 _
                eq_refl eq_refl ltac:(lia) Hrow)
      as (b2 & c2 & Ea & Ha & Hb & Oa & La).
    cbn [voff] in Ha, Hb, Oa.
    exists b2, (Some c2). split; [exact Ea|]. split; [|split].
    - pose proof (seg_halves _ _ _ _ _ Ha Hb) as Hab. fold r in Hab.
      revert Hab. apply seg_ext. intros e He. cbv beta.
      destruct (Nat.ltb_spec e c) as [Hlt|Hge].
      + replace (2 * e) with (e * 2 + 0) by lia.
        rewrite div_double_add, mod_double_add by lia. f_equal. lia.
      + replace (2 * (e - c) + 1) with ((e - c) * 2 + 1) by lia.
        rewrite div_double_add, mod_double_add by lia. reflexivity.
    - exact Oa.
    - simpl. congruence. }
  exists bf6, sc6. split; [exact E6|]. cbn [voff].
  split; [|split].
  - rewrite <- Hcr. apply rows_seg in H6. revert H6. apply seg_ext.
    intros t Ht. unfold odd_fun. cbv zeta beta. fold c. fold r. fold Y. fold Z.
    pose proof (Nat.div_mod_eq t r) as Et.
    assert (Hrpos : 0 < r) by (unfold r; lia).
    pose proof (Nat.mod_upper_bound t r ltac:(lia)) as He.
    destruct (Nat.ltb_spec (t mod r) c) as [Hlt|Hge].
    + rewrite <- (Nat.mod_unique t c (t / r * 2) (t mod r)) by (unfold r in *; lia).
      rewrite <- (Nat.div_unique t c (t / r * 2) (t mod r)) by (unfold r in *; lia).
      reflexivity.
    + rewrite <- (Nat.mod_unique t c (t / r * 2 + 1) (t mod r - c))
        by (unfold r in *; lia).
      rewrite <- (Nat.div_unique t c (t / r * 2 + 1) (t mod r - c))
        by (unfold r in *; lia).
      reflexivity.
  - rewrite <- Hcr.
    eapply same_outside_trans; [exact O1|].
    eapply same_outside_trans; [exact O2|].
    eapply same_outside_trans; [exact O3|].
    eapply same_outside_trans; [exact O4|].
    eapply same_outside_trans; [exact O5|exact O6].
  - congruence.
Qed.

End CoreOddpow.

Lemma land_1_odd (k : nat) :
  negb (Z.land (Z.of_nat k) 1 =? 0)%Z = Nat.odd k.
Proof.
  rewrite land_1. change 2%Z with (Z.of_nat 2). rewrite <- Nat2Z.inj_mod.
  destruct (Nat.odd k) eqn:Hodd.
  - apply Nat.odd_spec in Hodd as [j ->].
    rewrite <- (Nat.mod_unique (2 * j + 1) 2 j 1) by lia. reflexivity.
  - assert (Hev : Nat.even k = true) by (rewrite <- Nat.negb_odd, Hodd; reflexivity).
    apply Nat.even_spec in Hev as [j ->].
    rewrite <- (Nat.mod_unique (2 * j) 2 j 0) by lia. reflexivity.
Qed.

Section CoreRec.

Context {A : Type}.
Context (add sub mul : A -> A -> A) (twiddle : nat -> nat -> A).
Implicit Types (bf : list A) (sc : option (list A)) (x : view1).

Lemma fft_inplace_rec_unfold fuel x :
  _fft_inplace_rec add sub mul twiddle (S fuel) x =
  (assert (is_c_contiguous x) >>
   let n := vlen x in
   if n =? 1 then ret tt
   else if n =? 2 then
     let* x0 := rd x 0 in
     let* x1 := rd x 1 in
     wr x 0 (add x0 x1) >>
     wr x 1 (sub x0 x1)
   else
     let* lb_n := lift (lb_exact (Z.of_nat n)) in
     let is_odd := negb (Z.land lb_n 1 =? 0)%Z in
     if is_odd
     then _fft_inplace_oddpow mul twiddle
            (_fft_inplace_rec add sub mul twiddle fuel) x
     else _fft_inplace_evenpow mul twiddle
            (_fft_inplace_rec add sub mul twiddle fuel) x).
Proof. reflexivity. Qed.

(** The recursive core transforms a contiguous view of length [2 ^ k] by
    [fft_fun], whenever the scratch argument fits and the budget exceeds
    [k]; it raises nothing. *)
Lemma fft_inplace_spec :
  forall fuel k, k < fuel ->
    rec_ok (_fft_inplace_rec add sub mul twiddle fuel)
           (fft_fun add sub mul twiddle fuel k) k.
Proof.
  induction fuel as [|fuel IH]; intros k Hk; [lia|].
  intros x bf sc f Hlen Hst Hf Hfit.
  rewrite fft_inplace_rec_unfold.
  assert (Hcont : is_c_contiguous x = true).
  { unfold is_c_contiguous. rewrite Hst. apply orb_true_r. }
  rewrite Hcont. change (assert true) with (@ret A _ tt). rewrite bind_ret.
  cbv zeta. rewrite Hlen.
  destruct k as [|[|k]].
  - change (2 ^ 0 =? 1) with true. cbv iota.
    exists bf, sc. split; [reflexivity|]. split; [exact Hf|].
    split; [apply same_outside_refl|reflexivity].
  - change (2 ^ 1 =? 1) with false. change (2 ^ 1 =? 2) with true. cbv iota.
    destruct (butterfly_spec add sub x bf sc f Hlen Hst Hf) as (bf' & E & H & O).
    exists bf', sc. split; [exact E|]. split; [exact H|]. split; [exact O|].
    reflexivity.
  - assert (Hbig : 4 <= 2 ^ S (S k)).
    { rewrite !Nat.pow_succ_r'. pose proof (pow2_pos k). lia. }
    destruct (Nat.eqb_spec (2 ^ S (S k)) 1); [lia|].
    destruct (Nat.eqb_spec (2 ^ S (S k)) 2); [lia|].
    rewrite (bind_ok _ _ _ (Z.of_nat (S (S k))) (mkState bf sc))
      by (unfold lift; rewrite lb_exact_of_nat_pow2; reflexivity).
    rewrite land_1_odd.
    change (fft_fun add sub mul twiddle (S fuel) (S (S k)) f) with
      (if Nat.odd (S (S k))
       then odd_fun mul twiddle (fft_fun add sub mul twiddle fuel (S (S k) / 2))
              (fft_fun add sub mul twiddle fuel (S (S k) / 2 + 1)) (S (S k)) f
       else even_fun mul twiddle (fft_fun add sub mul twiddle fuel (S (S k) / 2))
              (S (S k)) f).
    assert (Hhalf : S (S k) / 2 < S (S k))
      by (apply Nat.div_lt; lia).
    destruct (Nat.odd (S (S k))) eqn:Hodd.
    + assert (Hk3 : 3 <= S (S k)).
      { destruct k; [discriminate Hodd|lia]. }
      assert (Hhalf1 : S (S k) / 2 + 1 < S (S k)).
      { pose proof (Nat.div_mod_eq (S (S k)) 2).
        pose proof (Nat.mod_upper_bound (S (S k)) 2 ltac:(lia)).
        apply Nat.odd_spec in Hodd as [j Hj].
        assert (S (S k) / 2 = j)
          by (symmetry; apply (Nat.div_unique _ 2 j 1); lia).
        lia. }
      apply (oddpow_spec mul twiddle _ _ _ (S (S k)));
        try assumption; apply IH; lia.
    + assert (Hev : Nat.even (S (S k)) = true)
        by (rewrite <- Nat.negb_odd, Hodd; reflexivity).
      apply (evenpow_spec mul twiddle _ _ (S (S k)));
        try assumption; [lia|apply IH; lia].
Qed.

End CoreRec.

Section Algebra.

Context {A : Type}.
Context (zero one : A) (add mul sub : A -> A -> A) (opp : A -> A).
Context (twiddle : nat -> nat -> A).

Hypothesis Rth : ring_theory zero one add mul sub opp (@eq A).

(** [twiddle e n] behaves like [exp(-2 pi i e / n)]. *)
Hypothesis tw_0 : forall n, twiddle 0 n = one.
Hypothesis tw_add :
  forall a b n, twiddle (a + b) n = mul (twiddle a n) (twiddle b n).
Hypothesis tw_period : forall n, 0 < n -> twiddle n n = one.
Hypothesis tw_scale :
  forall c a n, 0 < c -> 0 < n -> twiddle (c * a) (c * n) = twiddle a n.
Hypothesis tw_half : twiddle 1 2 = opp one.

Add Ring Aring : Rth.

Local Abbreviation sum := (sum_n zero add).
Local Abbreviation DFT := (dft zero add mul twiddle).

Lemma sum_n_ext n g g' :
  (forall i, i < n -> g i = g' i) -> sum n g = sum n g'.
Proof.
  induction n as [|n IH]; intros E; [reflexivity|].
  simpl. rewrite IH, E by (intros; try apply E; lia). reflexivity.
Qed.

Lemma sum_n_add n g g' :
  sum n (fun i => add (g i) (g' i)) = add (sum n g) (sum n g').
Proof. induction n as [|n IH]; simpl; [|rewrite IH]; ring. Qed.

Lemma sum_n_mul_r n g c :
  sum n (fun i => mul (g i) c) = mul (sum n g) c.
Proof. induction n as [|n IH]; simpl; [|rewrite IH]; ring. Qed.

Lemma sum_n_app a b g :
  sum (a + b) g = add (sum a g) (sum b (fun i => g (a + i))).
Proof.
  induction b as [|b IH].
  - rewrite Nat.add_0_r. simpl. ring.
  - rewrite Nat.add_succ_r. simpl. rewrite IH. ring.
Qed.

Lemma sum_n_prod n1 n2 g :
  sum (n1 * n2) g = sum n1 (fun p => sum n2 (fun b => g (p * n2 + b))).
Proof.
  induction n1 as [|n1 IH]; [reflexivity|].
  replace (S n1 * n2) with (n1 * n2 + n2) by lia.
  rewrite sum_n_app, IH. reflexivity.
Qed.

Lemma sum_n_swap a c (F : nat -> nat -> A) :
  sum a (fun p => sum c (fun b => F p b)) =
  sum c (fun b => sum a (fun p => F p b)).
Proof.
  induction a as [|a IH]; simpl.
  - induction c as [|c IHc]; simpl; [reflexivity|]. rewrite <- IHc. ring.
  - rewrite IH, <- sum_n_add. reflexivity.
Qed.

Lemma tw_multiple m n : 0 < n -> twiddle (m * n) n = one.
Proof.
  intros Hn. induction m as [|m IH]; [apply tw_0|].
  replace (S m * n) with (n + m * n) by lia.
  rewrite tw_add, IH, tw_period by assumption. ring.
Qed.

(** The twiddle factor of a product index splits as in the Cooley-Tukey
    factorisation. *)
Lemma tw_split n1 n2 d j p b :
  0 < n1 -> 0 < n2 ->
  twiddle ((d * n1 + j) * (p * n2 + b)) (n1 * n2) =
  mul (mul (twiddle (j * p) n1) (twiddle (b * j) (n1 * n2))) (twiddle (d * b) n2).
Proof.
  intros H1 H2.
  replace ((d * n1 + j) * (p * n2 + b))
    with ((d * p) * (n1 * n2) + (n1 * (d * b) + (n2 * (j * p) + b * j))) by lia.
  rewrite !tw_add, tw_multiple, tw_scale by lia.
  rewrite (Nat.mul_comm n1 n2) at 1. rewrite tw_scale by lia. ring.
Qed.

(** One step of the factorisation: a DFT of length [n1 * n2] is [n1]-point
    DFTs of the columns, a multiplication by twiddle factors, and
    [n2]-point DFTs of the rows. *)
Lemma dft_split n1 n2 f d j :
  0 < n1 -> 0 < n2 ->
  DFT (n1 * n2) f (d * n1 + j) =
  DFT n2
    (fun b => mul (DFT n1 (fun p => f (p * n2 + b)) j)
                  (twiddle (b * j) (n1 * n2))) d.
Proof.
  intros H1 H2. unfold dft.
  rewrite sum_n_prod, sum_n_swap.
  apply sum_n_ext. intros b Hb. rewrite <- !sum_n_mul_r.
  apply sum_n_ext. intros p Hp. rewrite tw_split by assumption. ring.
Qed.

Lemma dft_ext n f g j :
  (forall i, i < n -> f i = g i) -> DFT n f j = DFT n g j.
Proof.
  intros E. unfold dft. apply sum_n_ext. intros i Hi. rewrite E by assumption.
  reflexivity.
Qed.

Local Abbreviation FFT := (fft_fun add sub mul twiddle).

(** The function computed by the recursion is the DFT. *)
Lemma fft_fun_dft :
  forall fuel k f j, k < fuel -> j < 2 ^ k -> FFT fuel k f j = DFT (2 ^ k) f j.
Proof.
  induction fuel as [|fuel IH]; intros k f j Hk Hj; [lia|].
  destruct k as [|[|k]].
  - simpl in Hj. assert (j = 0) as -> by lia.
    unfold dft. simpl. rewrite tw_0. ring.
  - simpl in Hj. destruct j as [|[|j]]; [| |lia]; unfold dft; simpl.
    + rewrite !tw_0. ring.
    + rewrite tw_0, tw_half. ring.
  - assert (Hhalf : S (S k) / 2 < S (S k)) by (apply Nat.div_lt; lia).
    change (FFT (S fuel) (S (S k)) f) with
      (if Nat.odd (S (S k))
       then odd_fun mul twiddle (FFT fuel (S (S k) / 2))
              (FFT fuel (S (S k) / 2 + 1)) (S (S k)) f
       else even_fun mul twiddle (FFT fuel (S (S k) / 2)) (S (S k)) f).
    set (K := S (S k)) in *.
    destruct (Nat.odd K) eqn:Hodd.
    + (* odd power: col_len x row_len *)
      pose proof (pow2_odd_half K Hodd) as HN.
      assert (Hhalf1 : K / 2 + 1 < K).
      { apply Nat.odd_spec in Hodd as [q Hq].
        assert (K / 2 = q) by (symmetry; apply (Nat.div_unique _ 2 q 1); lia).
        destruct q; [unfold K in Hq; lia|lia]. }
      unfold odd_fun. cbv zeta.
      set (c := 2 ^ (K / 2)) in *.
      assert (Hc : 0 < c) by apply pow2_pos.
      assert (Hr : 2 ^ (K / 2 + 1) = c * 2) by (rewrite Nat.pow_add_r; reflexivity).
      assert (Hjc : j mod c < c) by (apply Nat.mod_upper_bound; lia).
      assert (Hd : j / c < c * 2).
      { apply Nat.Div0.div_lt_upper_bound. lia. }
      rewrite IH by (rewrite ?Hr; lia). rewrite Hr.
      rewrite <- HN.
      replace (DFT (c * (c * 2)) f j)
        with (DFT (c * (c * 2)) f (j / c * c + j mod c))
        by (f_equal; pose proof (Nat.div_mod_eq j c); lia).
      rewrite dft_split by lia.
      apply dft_ext. intros b Hb. rewrite IH by lia. reflexivity.
    + (* even power: n x n *)
      assert (Hev : Nat.even K = true)
        by (rewrite <- Nat.negb_odd, Hodd; reflexivity).
      pose proof (pow2_even_half K Hev) as HN.
      unfold even_fun. cbv zeta.
      set (n := 2 ^ (K / 2)) in *.
      assert (Hn : 0 < n) by apply pow2_pos.
      assert (Hjn : j mod n < n) by (apply Nat.mod_upper_bound; lia).
      assert (Hd : j / n < n).
      { apply Nat.Div0.div_lt_upper_bound. lia. }
      rewrite IH by lia.
      rewrite <- HN.
      replace (DFT (n * n) f j)
        with (DFT (n * n) f (j / n * n + j mod n))
        by (f_equal; pose proof (Nat.div_mod_eq j n); lia).
      rewrite dft_split by lia.
      apply dft_ext. intros b Hb. rewrite IH by lia. reflexivity.
Qed.

End Algebra.

(** ** The complex numbers form a ring with roots of unity *)

Module CxFacts.

Import Cx.

Lemma C_ring : ring_theory C0 C1 Cadd Cmul Csub Copp (@eq C).
Proof.
  constructor; intros; repeat match goal with x : C |- _ => destruct x end;
    unfold Cadd, Cmul, Csub, Copp, C0, C1; simpl; f_equal; ring.
Qed.

Lemma cexp_0 n : cexp 0 n = C1.
Proof.
  unfold cexp, C1. cbv zeta. simpl INR.
  replace (2 * PI * 0 / INR n)%R with 0%R by (unfold Rdiv; ring).
  rewrite cos_0, sin_0. f_equal. ring.
Qed.

Lemma cexp_add a b n : cexp (a + b) n = Cmul (cexp a n) (cexp b n).
Proof.
  unfold cexp, Cmul. cbv zeta. simpl fst. simpl snd.
  replace (2 * PI * INR (a + b) / INR n)%R
    with (2 * PI * INR a / INR n + 2 * PI * INR b / INR n)%R
    by (rewrite plus_INR; unfold Rdiv; ring).
  rewrite cos_plus, sin_plus. f_equal; ring.
Qed.

Lemma INR_pos_neq (n : nat) : 0 < n -> INR n <> 0%R.
Proof. intros Hn. apply not_0_INR. lia. Qed.

Lemma cexp_period n : 0 < n -> cexp n n = C1.
Proof.
  intros Hn. unfold cexp, C1. cbv zeta.
  replace (2 * PI * INR n / INR n)%R with (2 * PI)%R
    by (field; apply INR_pos_neq; assumption).
  rewrite cos_2PI, sin_2PI. f_equal. ring.
Qed.

Lemma cexp_scale c a n : 0 < c -> 0 < n -> cexp (c * a) (c * n) = cexp a n.
Proof.
  intros Hc Hn. unfold cexp. cbv zeta.
  replace (2 * PI * INR (c * a) / INR (c * n))%R with (2 * PI * INR a / INR n)%R.
  - reflexivity.
  - rewrite !mult_INR. field. split; apply INR_pos_neq; assumption.
Qed.

Lemma cexp_half : cexp 1 2 = Copp C1.
Proof.
  unfold cexp, Copp, C1. cbv zeta. simpl fst. simpl snd.
  replace (2 * PI * INR 1 / INR 2)%R with PI by (simpl; field).
  rewrite cos_PI, sin_PI. reflexivity.
Qed.

End CxFacts.

Section Entry.

Context {A : Type}.
Context (add sub mul : A -> A -> A) (twiddle : nat -> nat -> A).

Lemma shape_none (sc : option (list A)) : shape_of sc = None -> sc = None.
Proof. destruct sc; [discriminate|reflexivity]. Qed.

(** The core, run from [fft]'s starting state. *)
Lemma fft_inplace_run (xs : list A) (scr : option (list A)) (k : nat) (d : A) :
  length xs = 2 ^ k -> fits k (shape_of scr) ->
  exists ys scr',
    _fft_inplace add sub mul twiddle (mkView1 0 (length xs) 1) (mkState xs scr)
    = (Ok tt, mkState ys scr') /\
    length ys = length xs /\ shape_of scr' = shape_of scr /\
    forall j, j < 2 ^ k ->
      ys !! j = Some (fft_fun add sub mul twiddle (S (2 ^ k)) k
                        (fun i => nth i xs d) j).
Proof.
  intros Hlen Hfit. unfold _fft_inplace. cbn [vlen]. rewrite Hlen.
  destruct (fft_inplace_spec add sub mul twiddle (S (2 ^ k)) k
              ltac:(pose proof (pow2_gt k); lia)
              (mkView1 0 (2 ^ k) 1) xs scr (fun i => nth i xs d))
    as (ys & scr' & E & Hseg & (L & _) & Hsh); try reflexivity; try assumption.
  - intros i Hi. cbn [voff]. simpl.
    destruct (nth_lookup_or_length xs i d) as [E|Hge]; [exact E|lia].
  - exists ys, scr'. split; [exact E|]. split; [congruence|]. split; [exact Hsh|].
    intros j Hj. apply (Hseg j Hj).
Qed.

(** [fft] on an array of length [2 ^ k]: it returns a fresh array that
    holds the values of [fft_fun], and leaves every array of the caller as
    it was. *)
Lemma fft_run (garbage : nat -> A) (h : heap) (x : nat) (xs : list A)
    (k : nat) (d : A) :
  h !! x = Some xs -> length xs = 2 ^ k ->
  exists res h' ys,
    fft add sub mul twiddle garbage x h = (Ok res, h') /\
    length h <= res /\
    (forall l, l < length h -> h' !! l = h !! l) /\
    h' !! res = Some ys /\
    length ys = length xs /\
    forall j, j < 2 ^ k ->
      ys !! j = Some (fft_fun add sub mul twiddle (S (2 ^ k)) k
                        (fun i => nth i xs d) j).
Proof.
  intros Hx Hlen. unfold fft, run_core, heap in *.
  rewrite Hx, Hlen, lb_exact_of_nat_pow2.
  cbv zeta.
  destruct (scrach_length_bound (Z.of_nat k) ltac:(lia)) as (r & Hr & Hb).
  rewrite Hr.
  destruct (Z.eqb_spec r 0) as [->|Hne].
  - (* no scratch array *)
    assert (Hfit : fits k (shape_of (@None (list A)))) by exact Hr.
    destruct (fft_inplace_run xs None k d Hlen Hfit)
      as (ys & scr' & E & L & Hsh & Hval).
    apply shape_none in Hsh. subst scr'.
    rewrite (list_lookup_middle h [] xs (length h) eq_refl).
    rewrite E. cbn [buf scratch].
    exists (length h), (<[length h := ys]> (h ++ [xs])), ys.
    split; [reflexivity|]. split; [lia|]. split; [|split; [|split]].
    + intros l Hl. rewrite list_lookup_insert_ne by lia.
      apply lookup_app_l, Hl.
    + apply list_lookup_insert_eq. rewrite length_app. simpl. lia.
    + congruence.
    + exact Hval.
  - (* one scratch array, allocated before the working copy *)
    destruct Hb as [?|[Hpos Hle]]; [contradiction|].
    set (g := map garbage (seq 0 (Z.to_nat r))).
    assert (Hg : length g = Z.to_nat r)
      by (unfold g; rewrite length_map, length_seq; reflexivity).
    assert (Hsc : ((h ++ [g]) ++ [xs]) !! length h = Some g).
    { rewrite lookup_app_l by (rewrite length_app; simpl; lia).
      apply list_lookup_middle. reflexivity. }
    rewrite (list_lookup_middle (h ++ [g]) [] xs (length (h ++ [g])) eq_refl).
    rewrite Hsc.
    assert (Hfit : fits k (shape_of (Some g))).
    { simpl. exists r. split; [exact Hr|]. rewrite Hg. lia. }
    destruct (fft_inplace_run xs (Some g) k d Hlen Hfit)
      as (ys & scr' & E & L & Hsh & Hval).
    apply shape_some in Hsh as (c' & -> & Hc').
    rewrite E. cbn [buf scratch].
    exists (length (h ++ [g])),
      (<[length h := c']> (<[length (h ++ [g]) := ys]> ((h ++ [g]) ++ [xs]))), ys.
    assert (Hl1 : length (h ++ [g]) = S (length h))
      by (rewrite length_app; simpl; lia).
    split; [reflexivity|]. split; [lia|]. split; [|split; [|split]].
    + intros l Hl. rewrite !list_lookup_insert_ne by lia.
      rewrite !lookup_app_l by (rewrite ?length_app; simpl; lia). reflexivity.
    + rewrite list_lookup_insert_ne by lia.
      apply list_lookup_insert_eq. rewrite !length_app. simpl. lia.
    + congruence.
    + exact Hval.
Qed.

End Entry.

(** ** The interleaving helpers *)

(** C8: for an even-length view [x = [a0..a_{h-1}, b0..b_{h-1}]] and a
    scratch array of at least [h] cells, [_interleave] rewrites [x] in
    place to [[a0, b0, a1, b1, ...]] (element [i] goes to [2 i], element
    [h + i] to [2 i + 1]) and [_deinterleave] does the inverse move
    (element [2 i] goes to [i], element [2 i + 1] to [h + i]); nothing
    outside [x] changes.  In particular [1..8] becomes
    [1,5,2,6,3,7,4,8], and [_deinterleave] brings it back. *)
Theorem interleave_deinterleave_correct
    {A : Type} (x : view1) (h : nat) (bf c : list A) :
  vlen x = 2 * h -> 0 < vstride x ->
  (forall i, i < 2 * h -> vpos x i < length bf) ->
  h <= length c ->
  (exists bf' c',
     _interleave x (mkState bf (Some c)) = (Ok tt, mkState bf' (Some c')) /\
     length bf' = length bf /\
     (forall i, i < h ->
        bf' !! vpos x (2 * i) = bf !! vpos x i /\
        bf' !! vpos x (2 * i + 1) = bf !! vpos x (h + i)) /\
     (forall p, (forall i, i < 2 * h -> p <> vpos x i) -> bf' !! p = bf !! p)) /\
  (exists bf' c',
     _deinterleave x (mkState bf (Some c)) = (Ok tt, mkState bf' (Some c')) /\
     length bf' = length bf /\
     (forall i, i < h ->
        bf' !! vpos x i = bf !! vpos x (2 * i) /\
        bf' !! vpos x (h + i) = bf !! vpos x (2 * i + 1)) /\
     (forall p, (forall i, i < 2 * h -> p <> vpos x i) -> bf' !! p = bf !! p)) /\
  _interleave (mkView1 0 8 1) (mkState [1; 2; 3; 4; 5; 6; 7; 8] (Some [0; 0; 0; 0]))
  = (Ok tt, mkState [1; 5; 2; 6; 3; 7; 4; 8] (Some [1; 2; 3; 4])) /\
  _deinterleave (mkView1 0 8 1)
    (mkState [1; 5; 2; 6; 3; 7; 4; 8] (Some [1; 2; 3; 4]))
  = (Ok tt, mkState [1; 2; 3; 4; 5; 6; 7; 8] (Some [5; 6; 7; 8])).
Proof.
  intros Hlen Hst Hin Hc. split; [|split; [|split; reflexivity]].
  - destruct (interleave_spec x h bf c Hlen Hst Hin Hc)
      as (bf' & c' & E & L & _ & Hmv & Hfr).
    exists bf', c'. auto.
  - destruct (deinterleave_spec x h bf c Hlen Hst Hin Hc)
      as (bf' & c' & E & L & _ & Hmv & Hfr).
    exists bf', c'. auto.
Qed.

Lemma interleave_deinterleave_correct_witness :
  (exists bf' c',
     _interleave (mkView1 1 4 2) (mkState [9; 1; 9; 2; 9; 3; 9; 4] (Some [0; 0]))
     = (Ok tt, mkState bf' (Some c')) /\
     length bf' = 8 /\
     (forall i, i < 2 ->
        bf' !! vpos (mkView1 1 4 2) (2 * i)
        = [9; 1; 9; 2; 9; 3; 9; 4] !! vpos (mkView1 1 4 2) i /\
        bf' !! vpos (mkView1 1 4 2) (2 * i + 1)
        = [9; 1; 9; 2; 9; 3; 9; 4] !! vpos (mkView1 1 4 2) (2 + i)) /\
     (forall p, (forall i, i < 2 * 2 -> p <> vpos (mkView1 1 4 2) i) ->
        bf' !! p = [9; 1; 9; 2; 9; 3; 9; 4] !! p)) /\
  (exists bf' c',
     _deinterleave (mkView1 1 4 2) (mkState [9; 1; 9; 2; 9; 3; 9; 4] (Some [0; 0]))
     = (Ok tt, mkState bf' (Some c')) /\
     length bf' = 8 /\
     (forall i, i < 2 ->
        bf' !! vpos (mkView1 1 4 2) i
        = [9; 1; 9; 2; 9; 3; 9; 4] !! vpos (mkView1 1 4 2) (2 * i) /\
        bf' !! vpos (mkView1 1 4 2) (2 + i)
        = [9; 1; 9; 2; 9; 3; 9; 4] !! vpos (mkView1 1 4 2) (2 * i + 1)) /\
     (forall p, (forall i, i < 2 * 2 -> p <> vpos (mkView1 1 4 2) i) ->
        bf' !! p = [9; 1; 9; 2; 9; 3; 9; 4] !! p)) /\
  _interleave (mkView1 0 8 1) (mkState [1; 2; 3; 4; 5; 6; 7; 8] (Some [0; 0; 0; 0]))
  = (Ok tt, mkState [1; 5; 2; 6; 3; 7; 4; 8] (Some [1; 2; 3; 4])) /\
  _deinterleave (mkView1 0 8 1)
    (mkState [1; 5; 2; 6; 3; 7; 4; 8] (Some [1; 2; 3; 4]))
  = (Ok tt, mkState [1; 2; 3; 4; 5; 6; 7; 8] (Some [5; 6; 7; 8])).
Proof.
  apply (interleave_deinterleave_correct
           (mkView1 1 4 2) 2 [9; 1; 9; 2; 9; 3; 9; 4] [0; 0]).
  - reflexivity.
  - simpl. lia.
  - intros i Hi. unfold vpos. simpl. lia.
  - simpl. lia.
Defined.

Lemma in_view_dec (x : view1) (n p : nat) :
  (exists i, i < n /\ p = vpos x i) \/ (forall i, i < n -> p <> vpos x i).
Proof.
  destruct (bounded_ex_dec (fun i => p = vpos x i) n) as [H|H].
  - intros i. destruct (decide (p = vpos x i)); [left|right]; assumption.
  - left. exact H.
  - right. intros i Hi E. apply H. exists i. auto.
Qed.

(** C9: on an even-length view, with a scratch array of at least half its
    length, [_deinterleave] after [_interleave] and [_interleave] after
    [_deinterleave] both restore the buffer. *)
Theorem interleave_deinterleave_inverse
    {A : Type} (x : view1) (h : nat) (bf c : list A) :
  vlen x = 2 * h -> 0 < vstride x ->
  (forall i, i < 2 * h -> vpos x i < length bf) ->
  h <= length c ->
  (exists c', (_interleave x >> _deinterleave x) (mkState bf (Some c))
              = (Ok tt, mkState bf (Some c'))) /\
  (exists c', (_deinterleave x >> _interleave x) (mkState bf (Some c))
              = (Ok tt, mkState bf (Some c'))).
Proof.
  intros Hlen Hst Hin Hc. split.
  - destruct (interleave_spec x h bf c Hlen Hst Hin Hc)
      as (b1 & c1 & E1 & L1 & Lc1 & M1 & F1).
    destruct (deinterleave_spec x h b1 c1 Hlen Hst)
      as (b2 & c2 & E2 & L2 & Lc2 & M2 & F2);
      [intros i Hi; rewrite L1; apply Hin, Hi|lia|].
    exists c2. step E1. rewrite E2. do 2 f_equal.
    apply list_eq. intros p.
    destruct (in_view_dec x (2 * h) p) as [(i & Hi & ->)|Hout].
    + destruct (Nat.lt_ge_cases i h) as [Hlt|Hge].
      * destruct (M2 i Hlt) as [-> _]. destruct (M1 i Hlt) as [-> _]. reflexivity.
      * replace i with (h + (i - h)) by lia.
        destruct (M2 (i - h) ltac:(lia)) as [_ ->].
        destruct (M1 (i - h) ltac:(lia)) as [_ ->]. reflexivity.
    + rewrite F2, F1 by assumption. reflexivity.
  - destruct (deinterleave_spec x h bf c Hlen Hst Hin Hc)
      as (b1 & c1 & E1 & L1 & Lc1 & M1 & F1).
    destruct (interleave_spec x h b1 c1 Hlen Hst)
      as (b2 & c2 & E2 & L2 & Lc2 & M2 & F2);
      [intros i Hi; rewrite L1; apply Hin, Hi|lia|].
    exists c2. step E1. rewrite E2. do 2 f_equal.
    apply list_eq. intros p.
    destruct (in_view_dec x (2 * h) p) as [(i & Hi & ->)|Hout].
    + pose proof (Nat.div_mod_eq i 2) as Ei.
      pose proof (Nat.mod_upper_bound i 2 ltac:(lia)) as Hm.
      assert (Hq : i / 2 < h) by lia.
      destruct (M2 (i / 2) Hq) as [Ea Eb]. destruct (M1 (i / 2) Hq) as [Ec Ed].
      destruct (i mod 2) as [|[|r]] eqn:Er; [| |lia].
      * replace i with (2 * (i / 2)) at 1 2 by lia. rewrite Ea, Ec. reflexivity.
      * replace i with (2 * (i / 2) + 1) at 1 2 by lia. rewrite Eb, Ed. reflexivity.
    + rewrite F2, F1 by assumption. reflexivity.
Qed.

Lemma interleave_deinterleave_inverse_witness :
  (exists c', (_interleave (mkView1 0 6 1) >> _deinterleave (mkView1 0 6 1))
                (mkState [10; 20; 30; 40; 50; 60] (Some [0; 0; 0; 0]))
              = (Ok tt, mkState [10; 20; 30; 40; 50; 60] (Some c'))) /\
  (exists c', (_deinterleave (mkView1 0 6 1) >> _interleave (mkView1 0 6 1))
                (mkState [10; 20; 30; 40; 50; 60] (Some [0; 0; 0; 0]))
              = (Ok tt, mkState [10; 20; 30; 40; 50; 60] (Some c'))).
Proof.
  apply (interleave_deinterleave_inverse
           (mkView1 0 6 1) 3 [10; 20; 30; 40; 50; 60] [0; 0; 0; 0]).
  - reflexivity.
  - simpl. lia.
  - intros i Hi. unfold vpos. simpl. lia.
  - simpl. lia.
Defined.

(** ** The in-place transpose *)

(** C6: on a view of shape [(n, n, m)], [n] a power of two, whose cells
    are distinct cells of the buffer, [transpose_square] moves the
    [m]-vector at [(j, i)] to [(i, j)], element by element and unchanged,
    touches nothing outside the view, and undoes itself when applied
    twice. *)
Theorem transpose_square_correct
    {A : Type} (k : nat) (a : view3) (bf : list A) (sc : option (list A)) :
  sh0 a = 2 ^ k -> sh1 a = 2 ^ k ->
  inj3 a -> inb3 a (length bf) ->
  exists bf',
    transpose_square a (mkState bf sc) = (Ok tt, mkState bf' sc) /\
    length bf' = length bf /\
    (forall i j l, i < 2 ^ k -> j < 2 ^ k -> l < sh2 a ->
       bf' !! pos3 a i j l = bf !! pos3 a j i l) /\
    (forall p, ~ In3 a p -> bf' !! p = bf !! p) /\
    transpose_square a (mkState bf' sc) = (Ok tt, mkState bf sc).
Proof.
  intros Ha0 Ha1 Hinj Hinb.
  destruct (transpose_square_ok k a bf sc Ha0 Ha1 Hinj Hinb)
    as (bf1 & E1 & L1 & M1 & F1).
  destruct (transpose_square_ok k a bf1 sc Ha0 Ha1 Hinj)
    as (bf2 & E2 & L2 & M2 & F2); [rewrite L1; exact Hinb|].
  assert (Hmv : forall b b' : list A, (forall p q, transposes a p q -> b' !! p = b !! q) ->
            forall i j l, i < 2 ^ k -> j < 2 ^ k -> l < sh2 a ->
              b' !! pos3 a i j l = b !! pos3 a j i l).
  { intros b b' M i j l Hi Hj Hl. apply M. exists i, j, l.
    split; [|split; reflexivity]. unfold in_shape. rewrite Ha0, Ha1. auto. }
  exists bf1. split; [exact E1|]. split; [exact L1|].
  split; [apply Hmv, M1|]. split; [exact F1|].
  rewrite E2. do 2 f_equal. apply list_eq. intros p.
  destruct (In3_dec a p) as [(i & j & l & (Hi & Hj & Hl) & ->)|Hout].
  - rewrite Ha0 in Hi. rewrite Ha1 in Hj.
    rewrite (Hmv bf1 bf2 M2), (Hmv bf bf1 M1) by assumption. reflexivity.
  - rewrite F2, F1 by assumption. reflexivity.
Qed.

Lemma transpose_square_correct_witness :
  exists bf',
    transpose_square (mkView3 0 2 2 2 4 2 1)
      (mkState [0; 1; 2; 3; 4; 5; 6; 7] None)
    = (Ok tt, mkState bf' None) /\
    length bf' = 8 /\
    (forall i j l, i < 2 ^ 1 -> j < 2 ^ 1 -> l < 2 ->
       bf' !! pos3 (mkView3 0 2 2 2 4 2 1) i j l
       = [0; 1; 2; 3; 4; 5; 6; 7] !! pos3 (mkView3 0 2 2 2 4 2 1) j i l) /\
    (forall p, ~ In3 (mkView3 0 2 2 2 4 2 1) p ->
       bf' !! p = [0; 1; 2; 3; 4; 5; 6; 7] !! p) /\
    transpose_square (mkView3 0 2 2 2 4 2 1) (mkState bf' None)
    = (Ok tt, mkState [0; 1; 2; 3; 4; 5; 6; 7] None).
Proof.
  apply (transpose_square_correct 1 (mkView3 0 2 2 2 4 2 1)
           [0; 1; 2; 3; 4; 5; 6; 7] None).
  - reflexivity.
  - reflexivity.
  - unfold inj3, in_shape, pos3. simpl. lia.
  - unfold inb3, in_shape, pos3. simpl. lia.
Defined.

(** C7 (as stated): a view with [n = 0] would be accepted as a no-op.
    On the empty [0 x 0] matrix [lb_exact 0] raises before the base case
    is tested. *)
Lemma transpose_square_rejects_empty :
  transpose_square (mkView3 0 0 0 1 0 1 1) (mkState (@nil nat) None)
  = (Raise ValueError, mkState [] None) /\
  ~ (forall (a : view3) (s : state nat),
       sh1 a = sh0 a -> sh0 a <= 1 -> transpose_square a s = (Ok tt, s)).
Proof.
  split; [reflexivity|]. intros H.
  specialize (H (mkView3 0 0 0 1 0 1 1) (mkState [] None) eq_refl ltac:(simpl; lia)).
  discriminate H.
Qed.

(** C7 (amended): [transpose_square] accepts every view of shape
    [(n, n, m)] with [n >= 1] a power of two; for [n = 1] it succeeds as a
    no-op that leaves the buffer unchanged; for [n = 0] the power-of-two
    check raises [ValueError] and nothing is touched. *)
Theorem transpose_square_small_sizes
    {A : Type} (a : view3) (s : state A) :
  sh1 a = sh0 a ->
  sh0 a = 0 \/ (exists k, sh0 a = 2 ^ k) ->
  inj3 a -> inb3 a (length (buf s)) ->
  match sh0 a with
  | 0 => transpose_square a s = (Raise ValueError, s)
  | 1 => transpose_square a s = (Ok tt, s)
  | _ => exists bf', transpose_square a s = (Ok tt, mkState bf' (scratch s)) /\
                     length bf' = length (buf s)
  end.
Proof.
  intros Hsq Hn Hinj Hinb. destruct s as [bf sc]. cbn [buf scratch] in *.
  destruct (sh0 a) as [|[|n]] eqn:E0.
  - unfold transpose_square. rewrite E0, transpose_rec_unfold. cbv zeta.
    rewrite Hsq, E0. reflexivity.
  - unfold transpose_square. rewrite E0, transpose_rec_unfold. cbv zeta.
    rewrite Hsq, E0. reflexivity.
  - destruct Hn as [?|[k Hk]]; [discriminate|].
    destruct (transpose_square_ok k a bf sc) as (bf' & E & L & _);
      try assumption; try congruence.
    exists bf'. auto.
Qed.

Lemma transpose_square_small_sizes_witness :
  transpose_square (mkView3 2 1 1 3 3 3 1) (mkState [0; 1; 2; 3; 4; 5] None)
  = (Ok tt, mkState [0; 1; 2; 3; 4; 5] None).
Proof.
  apply (transpose_square_small_sizes (mkView3 2 1 1 3 3 3 1)
           (mkState [0; 1; 2; 3; 4; 5] None)).
  - reflexivity.
  - right. exists 0. reflexivity.
  - unfold inj3, in_shape, pos3. simpl. lia.
  - unfold inb3, in_shape, pos3. simpl. lia.
Defined.

(** ** The public entry point *)

(** C2: on an array whose length is not a power of two (0 included) [fft]
    raises [ValueError], the invalid-length condition, and returns the
    caller's store as it was: nothing allocated, copied or changed. *)
Theorem fft_rejects_invalid_length
    {A : Type} (add sub mul : A -> A -> A) (twiddle : nat -> nat -> A)
    (garbage : nat -> A) (h : heap) (x : nat) (xs : list A) :
  h !! x = Some xs ->
  (forall k, length xs <> 2 ^ k) ->
  fft add sub mul twiddle garbage x h = (Raise ValueError, h).
Proof.
  intros Hx Hlen. unfold fft, heap in *. rewrite Hx.
  rewrite lb_exact_not_pow2; [reflexivity|].
  intros k Hk E. apply (Hlen (Z.to_nat k)).
  apply Nat2Z.inj. rewrite E, Nat2Z.inj_pow, Z2Nat.id by assumption. reflexivity.
Qed.

Lemma fft_rejects_invalid_length_witness :
  fft Nat.add Nat.sub Nat.mul (fun _ _ => 1) (fun _ => 0) 1 [[7]; [1; 2; 3]]
  = (Raise ValueError, [[7]; [1; 2; 3]]).
Proof.
  apply (fft_rejects_invalid_length Nat.add Nat.sub Nat.mul (fun _ _ => 1)
           (fun _ => 0) [[7]; [1; 2; 3]] 1 [1; 2; 3]).
  - reflexivity.
  - intros [|[|k]]; simpl; lia.
Defined.

(** C10: [lb_exact] raises [ValueError] on every [n <= 0], the error it
    raises on positive numbers that are not powers of two (3, 5, 100); so
    [fft] on an empty array raises it and returns the caller's store as it
    was, with nothing allocated. *)
Theorem lb_exact_nonpositive
    {A : Type} (add sub mul : A -> A -> A) (twiddle : nat -> nat -> A)
    (garbage : nat -> A) (h : heap) (x : nat) (n : Z) :
  (n <= 0)%Z -> h !! x = Some [] ->
  lb_exact n = Raise ValueError /\
  lb_exact n = lb_exact 3 /\ lb_exact n = lb_exact 5 /\
  lb_exact n = lb_exact 100 /\
  fft add sub mul twiddle garbage x h = (Raise ValueError, h).
Proof.
  intros Hn Hx. rewrite (lb_exact_nonpos n Hn).
  repeat split; try reflexivity.
  unfold fft, heap in *. rewrite Hx. reflexivity.
Qed.

Lemma lb_exact_nonpositive_witness :
  lb_exact (-4) = Raise ValueError /\
  lb_exact (-4) = lb_exact 3 /\ lb_exact (-4) = lb_exact 5 /\
  lb_exact (-4) = lb_exact 100 /\
  fft Nat.add Nat.sub Nat.mul (fun _ _ => 1) (fun _ => 0) 0 [[]]
  = (Raise ValueError, [[]]).
Proof.
  apply (lb_exact_nonpositive Nat.add Nat.sub Nat.mul (fun _ _ => 1)
           (fun _ => 0) [[]] 0 (-4)%Z).
  - lia.
  - reflexivity.
Defined.

(** C5: on an array of valid length [fft] returns a fresh array and every
    array of the caller, the argument included, is what it was before the
    call. *)
Theorem fft_preserves_input
    {A : Type} (add sub mul : A -> A -> A) (twiddle : nat -> nat -> A)
    (garbage : nat -> A) (h : heap) (x : nat) (xs : list A) (k : nat) :
  h !! x = Some xs -> length xs = 2 ^ k ->
  exists res h' ys,
    fft add sub mul twiddle garbage x h = (Ok res, h') /\
    h' !! x = Some xs /\
    res <> x /\ length h <= res /\
    h' !! res = Some ys /\ length ys = length xs /\
    forall l, l < length h -> h' !! l = h !! l.
Proof.
  intros Hx Hlen.
  assert (d : A).
  { destruct xs as [|d ?]; [|exact d]. simpl in Hlen.
    pose proof (pow2_pos k). lia. }
  destruct (fft_run add sub mul twiddle garbage h x xs k d Hx Hlen)
    as (res & h' & ys & E & Hfresh & Hframe & Hres & Hl & _).
  pose proof (lookup_lt_Some _ _ _ Hx) as Hxl.
  exists res, h', ys. split; [exact E|].
  split; [rewrite Hframe by assumption; exact Hx|].
  split; [lia|]. auto.
Qed.

Lemma fft_preserves_input_witness :
  exists res h' ys,
    fft Nat.add Nat.sub Nat.mul (fun _ _ => 1) (fun _ => 0) 0
      [[1; 2; 3; 4; 5; 6; 7; 8]] = (Ok res, h') /\
    h' !! 0 = Some [1; 2; 3; 4; 5; 6; 7; 8] /\
    res <> 0 /\ 1 <= res /\
    h' !! res = Some ys /\ length ys = 8 /\
    forall l, l < 1 -> h' !! l = [[1; 2; 3; 4; 5; 6; 7; 8]] !! l.
Proof.
  apply (fft_preserves_input Nat.add Nat.sub Nat.mul (fun _ _ => 1) (fun _ => 0)
           [[1; 2; 3; 4; 5; 6; 7; 8]] 0 [1; 2; 3; 4; 5; 6; 7; 8] 3).
  - reflexivity.
  - reflexivity.
Defined.

(** C3: from the public entry point no internal check fails.  On an
    array of length [2 ^ k] [fft] returns normally; and the core itself
    returns normally from every state whose scratch argument is [None]
    when [_scrach_length k] is 0 and an array of at least
    [_scrach_length k] cells otherwise, so that every [_interleave] and
    [_deinterleave] of the recursion finds the scratch it asserts. *)
Theorem fft_no_internal_failure
    {A : Type} (add sub mul : A -> A -> A) (twiddle : nat -> nat -> A)
    (garbage : nat -> A) (h : heap) (x : nat) (xs : list A) (k : nat)
    (scr : option (list A)) :
  h !! x = Some xs -> length xs = 2 ^ k ->
  fits k (length <$> scr) ->
  (exists res h', fft add sub mul twiddle garbage x h = (Ok res, h')) /\
  (exists ys scr',
     _fft_inplace add sub mul twiddle (mkView1 0 (length xs) 1) (mkState xs scr)
     = (Ok tt, mkState ys scr') /\
     length ys = length xs /\ (length <$> scr') = (length <$> scr)).
Proof.
  intros Hx Hlen Hfit.
  assert (d : A).
  { destruct xs as [|d ?]; [|exact d]. simpl in Hlen.
    pose proof (pow2_pos k). lia. }
  split.
  - destruct (fft_run add sub mul twiddle garbage h x xs k d Hx Hlen)
      as (res & h' & ys & E & _).
    exists res, h'. exact E.
  - destruct (fft_inplace_run add sub mul twiddle xs scr k d Hlen Hfit)
      as (ys & scr' & E & L & Hsh & _).
    exists ys, scr'. auto.
Qed.

Lemma fft_no_internal_failure_witness :
  (exists res h',
     fft Nat.add Nat.sub Nat.mul (fun _ _ => 1) (fun _ => 0) 0
       [[1; 2; 3; 4; 5; 6; 7; 8]] = (Ok res, h')) /\
  (exists ys scr',
     _fft_inplace Nat.add Nat.sub Nat.mul (fun _ _ => 1) (mkView1 0 8 1)
       (mkState [1; 2; 3; 4; 5; 6; 7; 8] (Some [0; 0]))
     = (Ok tt, mkState ys scr') /\
     length ys = 8 /\ (length <$> scr') = Some 2).
Proof.
  apply (fft_no_internal_failure Nat.add Nat.sub Nat.mul (fun _ _ => 1)
           (fun _ => 0) [[1; 2; 3; 4; 5; 6; 7; 8]] 0 [1; 2; 3; 4; 5; 6; 7; 8] 3
           (Some [0; 0])).
  - reflexivity.
  - reflexivity.
  - exists 2%Z. split; [reflexivity|simpl; lia].
Defined.

(** The checks of the model are live: with a scratch array that is too
    short, or none at all, a transform of length 8 fails. *)
Example fft_inplace_short_scratch :
  fst (_fft_inplace Nat.add Nat.sub Nat.mul (fun _ _ => 1) (mkView1 0 8 1)
         (mkState [1; 2; 3; 4; 5; 6; 7; 8] (Some [0])))
  = Raise AssertionError /\
  fst (_fft_inplace Nat.add Nat.sub Nat.mul (fun _ _ => 1) (mkView1 0 8 1)
         (mkState [1; 2; 3; 4; 5; 6; 7; 8] None))
  = Raise AttributeError.
Proof. split; reflexivity. Qed.

(** ** The transform *)

(** C1: on an array of length [n = 2 ^ k], over the exact complex
    numbers, [fft] returns an array of length [n] whose element [j] is
    the forward DFT sum [sum over t < n of x[t] * exp(-2 pi i j t / n)]. *)
Theorem fft_computes_dft
    (garbage : nat -> Cx.C) (h : heap) (x : nat) (xs : list Cx.C) (k : nat) :
  h !! x = Some xs -> length xs = 2 ^ k ->
  exists res h' ys,
    fft Cx.Cadd Cx.Csub Cx.Cmul Cx.cexp garbage x h = (Ok res, h') /\
    h' !! res = Some ys /\
    length ys = length xs /\
    forall j, j < length xs ->
      ys !! j = Some (dft Cx.C0 Cx.Cadd Cx.Cmul Cx.cexp (length xs)
                        (fun t => nth t xs Cx.C0) j).
Proof.
  intros Hx Hlen.
  destruct (fft_run Cx.Cadd Cx.Csub Cx.Cmul Cx.cexp garbage h x xs k Cx.C0 Hx Hlen)
    as (res & h' & ys & E & _ & _ & Hres & Hl & Hval).
  exists res, h', ys. split; [exact E|]. split; [exact Hres|].
  split; [exact Hl|]. intros j Hj. rewrite Hlen in Hj |- *.
  rewrite (Hval j Hj). f_equal.
  apply (fft_fun_dft Cx.C0 Cx.C1 Cx.Cadd Cx.Cmul Cx.Csub Cx.Copp Cx.cexp
           CxFacts.C_ring CxFacts.cexp_0 CxFacts.cexp_add CxFacts.cexp_period CxFacts.cexp_scale
           CxFacts.cexp_half).
  - pose proof (pow2_gt k). lia.
  - exact Hj.
Qed.

Lemma fft_computes_dft_witness :
  exists res h' ys,
    fft Cx.Cadd Cx.Csub Cx.Cmul Cx.cexp (fun _ => Cx.C0) 0
      [[Cx.C1; Cx.C0; Cx.C1; Cx.C1]] = (Ok res, h') /\
    h' !! res = Some ys /\
    length ys = 4 /\
    forall j, j < 4 ->
      ys !! j = Some (dft Cx.C0 Cx.Cadd Cx.Cmul Cx.cexp 4
                        (fun t => nth t [Cx.C1; Cx.C0; Cx.C1; Cx.C1] Cx.C0) j).
Proof.
  apply (fft_computes_dft (fun _ => Cx.C0) [[Cx.C1; Cx.C0; Cx.C1; Cx.C1]] 0
           [Cx.C1; Cx.C0; Cx.C1; Cx.C1] 2).
  - reflexivity.
  - reflexivity.
Defined.

(** * Further properties of the code *)

(** ** util.py *)

(** X1: [lb_exact n] returns [lb] exactly when [n = 2 ^ lb] with
    [lb >= 0], and raises [ValueError] exactly when [n] is no power of
    two. *)
Theorem lb_exact_characterised (n lb : Z) :
  (lb_exact n = Ok lb <-> (0 <= lb)%Z /\ n = (2 ^ lb)%Z) /\
  (lb_exact n = Raise ValueError <->
   forall k, (0 <= k)%Z -> n <> (2 ^ k)%Z).
Proof.
  split; split.
  - apply lb_exact_Ok_inv.
  - intros [Hlb ->]. apply lb_exact_pow2, Hlb.
  - intros E k Hk ->. rewrite lb_exact_pow2 in E by assumption. discriminate.
  - apply lb_exact_not_pow2.
Qed.

(** ** Scratch sizing *)

(** X2: for every [k >= 0] the sizing procedure returns normally: its loop
    ends and its shift count is not negative.  The length it returns is 0
    or a power of two [2 ^ e] with [2 e + 1 <= k], so the scratch never
    has more than [sqrt (N / 2)] cells. *)
Theorem scrach_length_total_bounded (k : Z) :
  (0 <= k)%Z ->
  exists r, _scrach_length k = Ok r /\
    (r = 0%Z \/ exists e, (0 <= e)%Z /\ r = (2 ^ e)%Z /\ (2 * e + 1 <= k)%Z).
Proof.
  intros Hk. destruct (Z.eq_dec k 0%Z) as [->|Hne].
  { exists 0%Z. split; [reflexivity|left; reflexivity]. }
  destruct (scrach_length_pos k ltac:(lia))
    as (k' & j & _ & Hpos & Hodd & Hj & Hfac & Hres).
  eexists. split; [exact Hres|].
  destruct (Z.eqb_spec k' 1); [left; reflexivity|right].
  exists ((k' - 1) / 2)%Z.
  assert (Hle : (k' <= k)%Z).
  { assert (1 <= 2 ^ j)%Z by (apply (Z.pow_le_mono_r 2 0 j); lia). nia. }
  pose proof (Z.mul_div_le (k' - 1) 2 ltac:(lia)) as Hdm.
  split; [apply Z.div_pos; lia|]. split; [reflexivity|]. lia.
Qed.

Lemma scrach_length_total_bounded_witness :
  exists r, _scrach_length 10 = Ok r /\
    (r = 0%Z \/ exists e, (0 <= e)%Z /\ r = (2 ^ e)%Z /\ (2 * e + 1 <= 10)%Z).
Proof. apply (scrach_length_total_bounded 10). lia. Defined.

(** X3: the scratch of a transform of length [N * N] is that of length
    [N] (an even-power layer asks for none of its own), and for an odd
    power [2 k + 1 >= 3] it is [2 ^ k], the [col_len] of
    [_fft_inplace_oddpow], half the row pairs it interleaves. *)
Theorem scrach_length_layers (k : Z) :
  (1 <= k)%Z ->
  _scrach_length (2 * k) = _scrach_length k /\
  _scrach_length (2 * k + 1) = Ok (2 ^ k)%Z.
Proof.
  intros Hk. split; [apply scrach_length_double; lia|].
  rewrite scrach_length_odd.
  - do 2 f_equal. replace (2 * k + 1 - 1)%Z with (k * 2)%Z by lia.
    apply Z.div_mul. lia.
  - lia.
  - replace (2 * k + 1)%Z with (1 + k * 2)%Z by lia.
    rewrite Z.mod_add by lia. reflexivity.
Qed.

Lemma scrach_length_layers_witness :
  _scrach_length (2 * 5) = _scrach_length 5 /\
  _scrach_length (2 * 5 + 1) = Ok (2 ^ 5)%Z.
Proof. apply (scrach_length_layers 5). lia. Defined.

(** ** Rejected arguments *)

Lemma lb_exact_of_nat_not_pow2 (n : nat) :
  (forall k, n <> 2 ^ k) -> lb_exact (Z.of_nat n) = Raise ValueError.
Proof.
  intros Hn. apply lb_exact_not_pow2. intros k Hk E. apply (Hn (Z.to_nat k)).
  apply Nat2Z.inj. rewrite E, Nat2Z.inj_pow, Z2Nat.id by assumption. reflexivity.
Qed.

(** X4: [transpose_square] validates before it moves anything: on a view
    that is not square, or whose side is no power of two, it raises
    [ValueError] and the buffer is what it was. *)
Theorem transpose_square_rejects {A : Type} (a : view3) (s : state A) :
  sh0 a <> sh1 a \/ (forall k, sh0 a <> 2 ^ k) ->
  transpose_square a s = (Raise ValueError, s).
Proof.
  intros H. unfold transpose_square. rewrite transpose_rec_unfold. cbv zeta.
  destruct (Nat.eqb_spec (sh0 a) (sh1 a)) as [E|N]; cbn [negb]; [|reflexivity].
  destruct H as [H|H]; [contradiction|].
  unfold bind, lift. rewrite lb_exact_of_nat_not_pow2 by assumption. reflexivity.
Qed.

Lemma transpose_square_rejects_witness :
  transpose_square (mkView3 0 3 3 1 3 1 1)
    (mkState [1; 2; 3; 4; 5; 6; 7; 8; 9] None)
  = (Raise ValueError, mkState [1; 2; 3; 4; 5; 6; 7; 8; 9] None).
Proof.
  apply (transpose_square_rejects (mkView3 0 3 3 1 3 1 1)
           (mkState [1; 2; 3; 4; 5; 6; 7; 8; 9] None)).
  right. intros [|[|k]]; simpl; lia.
Defined.

(** X5: [_interleave] and [_deinterleave] check their arguments before
    they write: without a scratch array they raise [AttributeError]; on a
    view of odd length, or with a scratch array shorter than half the
    view, they raise [AssertionError]; in each case the buffer and the
    scratch are what they were. *)
Theorem interleave_precondition_failure
    {A : Type} (x : view1) (bf : list A) (sc : option (list A)) :
  sc = None \/
  (exists c, sc = Some c /\ (vlen x mod 2 <> 0 \/ length c < vlen x / 2)) ->
  let e := match sc with None => AttributeError | Some _ => AssertionError end in
  _interleave x (mkState bf sc) = (Raise e, mkState bf sc) /\
  _deinterleave x (mkState bf sc) = (Raise e, mkState bf sc).
Proof.
  intros [->|(c & -> & H)]; cbv zeta; [split; reflexivity|].
  unfold _interleave, _deinterleave, bind, scratch_len, assert. cbn [scratch].
  destruct (Nat.eqb_spec (vlen x mod 2) 0) as [E|N]; [|split; reflexivity].
  destruct H as [H|H]; [contradiction|].
  cbn [ret]. destruct (Nat.leb_spec (vlen x / 2) (length c)); [lia|].
  split; reflexivity.
Qed.

Lemma interleave_precondition_failure_witness :
  _interleave (mkView1 0 6 1) (mkState [1; 2; 3; 4; 5; 6] (Some [0; 0]))
  = (Raise AssertionError, mkState [1; 2; 3; 4; 5; 6] (Some [0; 0])) /\
  _deinterleave (mkView1 0 6 1) (mkState [1; 2; 3; 4; 5; 6] (Some [0; 0]))
  = (Raise AssertionError, mkState [1; 2; 3; 4; 5; 6] (Some [0; 0])).
Proof.
  apply (interleave_precondition_failure (mkView1 0 6 1) [1; 2; 3; 4; 5; 6]
           (Some [0; 0])).
  right. exists [0; 0]. split; [reflexivity|]. right. simpl. lia.
Defined.

Section Rejections.

Context {A : Type}.
Context (add sub mul : A -> A -> A) (twiddle : nat -> nat -> A).

(** X6: each variant of the core refuses the lengths of the other one:
    [_fft_inplace_evenpow] on an odd power of two and
    [_fft_inplace_oddpow] on an even one cannot reshape the vector to
    their matrix, and raise [ValueError] before anything is written. *)
Theorem variants_reject_other_parity
    (rec : view1 -> M A unit) (x : view1) (s : state A) (k : nat) :
  vlen x = 2 ^ k ->
  (if Nat.odd k
   then _fft_inplace_evenpow mul twiddle rec x s
   else _fft_inplace_oddpow mul twiddle rec x s) = (Raise ValueError, s).
Proof.
  intros Hlen. destruct (Nat.odd k) eqn:Hodd.
  - unfold _fft_inplace_evenpow. rewrite Hlen.
    rewrite (bind_ok _ _ _ (Z.of_nat k) s)
      by (unfold lift; rewrite lb_exact_of_nat_pow2; reflexivity).
    rewrite half_pow. unfold bind, reshape3. rewrite Hlen.
    pose proof (pow2_odd_half k Hodd) as HN.
    pose proof (pow2_pos (k / 2)).
    destruct (Nat.eqb_spec (2 ^ (k / 2) * 2 ^ (k / 2) * 1) (2 ^ k)); [lia|].
    reflexivity.
  - assert (Hev : Nat.even k = true)
      by (rewrite <- Nat.negb_odd, Hodd; reflexivity).
    unfold _fft_inplace_oddpow. rewrite Hlen.
    rewrite (bind_ok _ _ _ (Z.of_nat k) s)
      by (unfold lift; rewrite lb_exact_of_nat_pow2; reflexivity).
    rewrite half_pow. unfold bind, reshape3. rewrite Hlen.
    pose proof (pow2_even_half k Hev) as HN.
    pose proof (pow2_pos k).
    destruct (Nat.eqb_spec (2 ^ (k / 2) * 2 ^ (k / 2) * 2) (2 ^ k)); [lia|].
    reflexivity.
Qed.

(** X7: [_fft_inplace] checks its view before it writes: a view that is
    not contiguous fails the assertion, and a contiguous view whose length
    is no power of two (0 included) gets [ValueError] from [lb_exact]; in
    both cases the buffer and the scratch are what they were. *)
Theorem fft_inplace_rejects (x : view1) (s : state A) :
  is_c_contiguous x = false \/ (forall k, vlen x <> 2 ^ k) ->
  _fft_inplace add sub mul twiddle x s
  = (Raise (if is_c_contiguous x then ValueError else AssertionError), s).
Proof.
  intros H. unfold _fft_inplace. rewrite fft_inplace_rec_unfold.
  destruct (is_c_contiguous x); [|reflexivity].
  destruct H as [H|H]; [discriminate|].
  change (assert true) with (@ret A _ tt). rewrite bind_ret. cbv zeta.
  destruct (Nat.eqb_spec (vlen x) 1) as [E|_]; [destruct (H 0 E)|].
  destruct (Nat.eqb_spec (vlen x) 2) as [E|_]; [destruct (H 1 E)|].
  unfold bind, lift. rewrite lb_exact_of_nat_not_pow2 by assumption. reflexivity.
Qed.

End Rejections.

Lemma variants_reject_other_parity_witness :
  _fft_inplace_evenpow Nat.mul (fun _ _ => 1) (fun _ => ret tt) (mkView1 0 8 1)
    (mkState [1; 2; 3; 4; 5; 6; 7; 8] None)
  = (Raise ValueError, mkState [1; 2; 3; 4; 5; 6; 7; 8] None).
Proof.
  apply (variants_reject_other_parity Nat.mul (fun _ _ => 1) (fun _ => ret tt)
           (mkView1 0 8 1) (mkState [1; 2; 3; 4; 5; 6; 7; 8] None) 3).
  reflexivity.
Defined.

Lemma fft_inplace_rejects_witness :
  _fft_inplace Nat.add Nat.sub Nat.mul (fun _ _ => 1) (mkView1 0 3 2)
    (mkState [1; 2; 3; 4; 5; 6] None)
  = (Raise AssertionError, mkState [1; 2; 3; 4; 5; 6] None).
Proof.
  apply (fft_inplace_rejects Nat.add Nat.sub Nat.mul (fun _ _ => 1)
           (mkView1 0 3 2) (mkState [1; 2; 3; 4; 5; 6] None)).
  left. reflexivity.
Defined.

Section Preservation.

Context {A : Type}.
Implicit Types (Q : state A -> Prop) (x : view1).

Lemma preserves_ret {X} Q (v : X) : preserves Q (ret v).
Proof. intros s H. exact H. Qed.




Lemma preserves_assert Q b : preserves Q (assert b).
Proof. destruct b; intros s H; exact H. Qed.

Lemma preserves_bind {X Y} Q (m : M A X) (k : X -> M A Y) :
  preserves Q m -> (forall v, preserves Q (k v)) -> preserves Q (bind m k).
Proof.
  intros Hm Hk s H. unfold bind. specialize (Hm s H).
  destruct (m s) as [[v| |] s']; cbn [snd] in *; [apply Hk|..]; assumption.
Qed.

Lemma preserves_for_from Q (body : nat -> M A unit) :
  (forall i, preserves Q (body i)) ->
  forall n i, preserves Q (for_from i n body).
Proof.
  intros Hb. induction n as [|n IH]; intros i; cbn [for_from].
  - apply preserves_ret.
  - apply preserves_bind; [apply Hb|intros _; apply IH].
Qed.

Lemma preserves_for_range Q (body : nat -> M A unit) n :
  (forall i, preserves Q (body i)) -> preserves Q (for_range n body).
Proof. intros Hb. apply preserves_for_from, Hb. Qed.

Lemma preserves_rd Q x i : preserves Q (rd x i).
Proof.
  intros s H. unfold rd. destruct (i <? vlen x); [|exact H].
  destruct (buf s !! vpos x i); exact H.
Qed.

Lemma preserves_rd_scratch Q n i : preserves Q (rd_scratch n i).
Proof.
  intros s H. unfold rd_scratch. destruct (scratch s) as [c|]; [|exact H].
  destruct (i <? Nat.min n (length c)); [|exact H].
  destruct (c !! i); exact H.
Qed.

Lemma preserves_scratch_len Q : preserves Q scratch_len.
Proof. intros s H. unfold scratch_len. destruct (scratch s); exact H. Qed.

Lemma preserves_wr h Q x i v : stable h Q -> preserves Q (wr x i v).
Proof.
  intros [Hb _] s H. unfold wr.
  destruct ((i <? vlen x) && (vpos x i <? length (buf s))); [|exact H].
  apply Hb, H.
Qed.

Lemma preserves_wr_scratch h Q n i v :
  stable h Q -> n <= h -> preserves Q (wr_scratch n i v).
Proof.
  intros [_ Hs] Hn s H. unfold wr_scratch.
  destruct (scratch s) as [c|] eqn:E; [|exact H].
  destruct (Nat.ltb_spec i (Nat.min n (length c))); [|exact H].
  cbn [snd]. apply Hs; [assumption..|lia].
Qed.

Lemma stable_mono h h' Q : h' <= h -> stable h Q -> stable h' Q.
Proof.
  intros Hle [Hb Hs]. split; [exact Hb|].
  intros s c i v H E Hi. apply Hs; [assumption..|lia].
Qed.

Lemma preserves_interleave Q x :
  stable (vlen x / 2) Q -> preserves Q (_interleave x).
Proof.
  intros Hst. unfold _interleave.
  apply preserves_bind; [apply preserves_scratch_len|intros slen].
  apply preserves_bind; [apply preserves_assert|intros _].
  apply preserves_bind; [apply preserves_assert|intros _].
  apply preserves_bind; [|intros _]; apply preserves_for_range; intros i.
  - apply preserves_bind; [apply preserves_rd|intros v].
    eapply preserves_wr_scratch; [exact Hst|lia].
  - apply preserves_bind; [apply preserves_rd_scratch|intros v].
    apply preserves_bind; [eapply preserves_wr, Hst|intros _].
    apply preserves_bind; [apply preserves_rd|intros w].
    eapply preserves_wr, Hst.
Qed.

Lemma preserves_deinterleave Q x :
  stable (vlen x / 2) Q -> preserves Q (_deinterleave x).
Proof.
  intros Hst. unfold _deinterleave.
  apply preserves_bind; [apply preserves_scratch_len|intros slen].
  apply preserves_bind; [apply preserves_assert|intros _].
  apply preserves_bind; [apply preserves_assert|intros _].
  apply preserves_bind; [|intros _]; apply preserves_for_range; intros i.
  - apply preserves_bind; [apply preserves_rd|intros v].
    apply preserves_bind; [eapply preserves_wr, Hst|intros _].
    apply preserves_bind; [apply preserves_rd|intros w].
    eapply preserves_wr_scratch; [exact Hst|lia].
  - apply preserves_bind; [apply preserves_rd_scratch|intros v].
    eapply preserves_wr, Hst.
Qed.



End Preservation.

Section CorePreservation.

Context {A : Type}.
Context (add sub mul : A -> A -> A) (twiddle : nat -> nat -> A).
Implicit Types (Q : state A -> Prop) (x : view1).








End CorePreservation.


Lemma stable_scratch_tail {A : Type} h (c : list A) : stable h (scratch_tail h c).
Proof.
  split.
  - intros s p v H. exact H.
  - intros s c1 i v (c' & E' & Hl & Ht) E Hi. rewrite E in E'. injection E' as <-.
    exists (<[i := v]> c1). cbn [scratch]. split; [reflexivity|].
    split; [rewrite length_insert; exact Hl|].
    intros j Hj. rewrite list_lookup_insert_ne by lia. apply Ht, Hj.
Qed.


(** X9: [_interleave] and [_deinterleave] use the scratch array only
    through [scratch[:half_n]]: on every path the cells from
    [len(x) // 2] on keep their contents, and the array keeps its
    length. *)
Theorem interleave_scratch_frame
    {A : Type} (x : view1) (bf c : list A) :
  (exists c', scratch (snd (_interleave x (mkState bf (Some c)))) = Some c' /\
     length c' = length c /\
     forall j, vlen x / 2 <= j -> c' !! j = c !! j) /\
  (exists c', scratch (snd (_deinterleave x (mkState bf (Some c)))) = Some c' /\
     length c' = length c /\
     forall j, vlen x / 2 <= j -> c' !! j = c !! j).
Proof.
  assert (H0 : scratch_tail (vlen x / 2) c (mkState bf (Some c))).
  { exists c. split; [reflexivity|]. split; reflexivity. }
  split.
  - apply (preserves_interleave _ x (stable_scratch_tail _ c) _ H0).
  - apply (preserves_deinterleave _ x (stable_scratch_tail _ c) _ H0).
Qed.

(** ** Termination *)

Lemma halve_while_even_ends (fuel : nat) (n : Z) :
  n <> 0%Z -> Z.to_nat (Z.abs n) < fuel -> halve_while_even fuel n <> None.
Proof.
  revert n. induction fuel as [|fuel IH]; intros n Hn Hfuel; [lia|].
  cbn [halve_while_even]. rewrite land_1, shiftr_1.
  destruct (Z.eqb_spec (n mod 2) 0) as [Heven|Hodd]; [|discriminate].
  pose proof (Z.div_mod n 2 ltac:(lia)) as Hdm.
  apply IH; lia.
Qed.

Lemma scrach_length_ends (k : Z) : _scrach_length k <> OutOfFuel.
Proof.
  unfold _scrach_length. destruct (k =? 0)%Z eqn:E; [discriminate|].
  apply Z.eqb_neq in E.
  pose proof (halve_while_even_ends (S (Z.to_nat (Z.abs k))) k E ltac:(lia)) as H.
  destruct (halve_while_even _ k) as [k'|]; [|contradiction]. cbv zeta.
  destruct (_ =? 0)%Z; [discriminate|]. destruct (_ <? 0)%Z; discriminate.
Qed.

Lemma lb_exact_ends (n : Z) : lb_exact n <> OutOfFuel.
Proof. destruct (lb_exact_cases n) as [->|[lb ->]]; discriminate. Qed.

Section Termination.

Context {A : Type}.
Implicit Types (x : view1) (a b : view3).

Lemma terminates_ret {X} (v : X) : terminates (ret (A := A) v).
Proof. intros s. discriminate. Qed.

Lemma terminates_raise {X} e : terminates (raise (A := A) (X := X) e).
Proof. intros s. discriminate. Qed.

Lemma terminates_assert (c : bool) : terminates (assert (A := A) c).
Proof. destruct c; intros s; discriminate. Qed.

Lemma terminates_bind {X Y} (m : M A X) (k : X -> M A Y) :
  terminates m -> (forall v, terminates (k v)) -> terminates (bind m k).
Proof.
  intros Hm Hk s. unfold bind. specialize (Hm s).
  destruct (m s) as [[v| |] s']; cbn [fst] in *;
    [apply Hk|discriminate|contradiction].
Qed.

Lemma terminates_for_from (body : nat -> M A unit) :
  (forall i, terminates (body i)) -> forall n i, terminates (for_from i n body).
Proof.
  intros Hb. induction n as [|n IH]; intros i; cbn [for_from].
  - apply terminates_ret.
  - apply terminates_bind; [apply Hb|intros _; apply IH].
Qed.

Lemma terminates_for_range (body : nat -> M A unit) n :
  (forall i, terminates (body i)) -> terminates (for_range n body).
Proof. intros Hb. apply terminates_for_from, Hb. Qed.

Lemma terminates_rd x i : terminates (rd (A := A) x i).
Proof.
  intros s. unfold rd. destruct (i <? vlen x); [|discriminate].
  destruct (buf s !! vpos x i); discriminate.
Qed.

Lemma terminates_wr x i v : terminates (wr (A := A) x i v).
Proof. intros s. unfold wr. destruct (_ && _); discriminate. Qed.

Lemma terminates_rd_scratch n i : terminates (rd_scratch (A := A) n i).
Proof.
  intros s. unfold rd_scratch. destruct (scratch s) as [c|]; [|discriminate].
  destruct (i <? _); [|discriminate]. destruct (c !! i); discriminate.
Qed.

Lemma terminates_wr_scratch n i v : terminates (wr_scratch (A := A) n i v).
Proof.
  intros s. unfold wr_scratch. destruct (scratch s) as [c|]; [|discriminate].
  destruct (i <? _); discriminate.
Qed.

Lemma terminates_scratch_len : terminates (scratch_len (A := A)).
Proof. intros s. unfold scratch_len. destruct (scratch s); discriminate. Qed.

Lemma terminates_lb_exact n : terminates (lift (A := A) (lb_exact n)).
Proof. intros s. apply lb_exact_ends. Qed.

Lemma terminates_interleave x : terminates (_interleave (A := A) x).
Proof.
  unfold _interleave.
  apply terminates_bind; [apply terminates_scratch_len|intros slen].
  apply terminates_bind; [apply terminates_assert|intros _].
  apply terminates_bind; [apply terminates_assert|intros _].
  apply terminates_bind; [|intros _]; apply terminates_for_range; intros i.
  - apply terminates_bind; [apply terminates_rd|intros v].
    apply terminates_wr_scratch.
  - apply terminates_bind; [apply terminates_rd_scratch|intros v].
    apply terminates_bind; [apply terminates_wr|intros _].
    apply terminates_bind; [apply terminates_rd|intros w].
    apply terminates_wr.
Qed.

Lemma terminates_deinterleave x : terminates (_deinterleave (A := A) x).
Proof.
  unfold _deinterleave.
  apply terminates_bind; [apply terminates_scratch_len|intros slen].
  apply terminates_bind; [apply terminates_assert|intros _].
  apply terminates_bind; [apply terminates_assert|intros _].
  apply terminates_bind; [|intros _]; apply terminates_for_range; intros i.
  - apply terminates_bind; [apply terminates_rd|intros v].
    apply terminates_bind; [apply terminates_wr|intros _].
    apply terminates_bind; [apply terminates_rd|intros w].
    apply terminates_wr_scratch.
  - apply terminates_bind; [apply terminates_rd_scratch|intros v].
    apply terminates_wr.
Qed.

(** Every quadrant of a matrix with at least two rows has fewer rows. *)
Lemma quadrant_rows a (n : nat) :
  sh0 a = n -> 2 <= n ->
  sh0 (top_left (Nat.shiftr n 1) a) < n /\
  sh0 (top_right (Nat.shiftr n 1) a) < n /\
  sh0 (bottom_left (Nat.shiftr n 1) a) < n /\
  sh0 (bottom_right (Nat.shiftr n 1) a) < n.
Proof.
  intros Hn H2. rewrite Nat.shiftr_div_pow2. change (2 ^ 1) with 2.
  assert (0 < n / 2) by (apply Nat.div_str_pos; lia).
  assert (n / 2 < n) by (apply Nat.div_lt; lia).
  cbn [top_left top_right bottom_left bottom_right cols_to cols_from
       rows_to rows_from sh0]. lia.
Qed.

Lemma terminates_swap_rec :
  forall fuel a b,
    sh0 a < fuel -> terminates (_swap_transpose_square_rec (A := A) fuel a b).
Proof.
  induction fuel as [|fuel IH]; intros a b Hf; [lia|].
  rewrite swap_rec_unfold. cbv zeta.
  apply terminates_bind; [apply terminates_assert|intros _].
  apply terminates_bind; [apply terminates_assert|intros _].
  destruct (Nat.eqb_spec (sh0 a) 0); [apply terminates_ret|].
  destruct (Nat.eqb_spec (sh0 a) 1).
  - apply terminates_for_range. intros i.
    apply terminates_bind; [apply terminates_rd|intros vb].
    apply terminates_bind; [apply terminates_rd|intros va].
    apply terminates_bind; [apply terminates_wr|intros _].
    apply terminates_wr.
  - destruct (quadrant_rows a (sh0 a) eq_refl ltac:(lia)) as (H1 & H2 & H3 & H4).
    repeat (apply terminates_bind; [apply IH; lia|intros _]). apply IH. lia.
Qed.

Lemma terminates_transpose_rec :
  forall fuel a,
    sh0 a < fuel -> terminates (transpose_square_rec (A := A) fuel a).
Proof.
  induction fuel as [|fuel IH]; intros a Hf; [lia|].
  rewrite transpose_rec_unfold. cbv zeta.
  destruct (negb (sh0 a =? sh1 a)); [apply terminates_raise|].
  apply terminates_bind; [apply terminates_lb_exact|intros _].
  destruct (Nat.leb_spec (sh0 a) 1); [apply terminates_ret|].
  destruct (quadrant_rows a (sh0 a) eq_refl ltac:(lia)) as (H1 & H2 & H3 & H4).
  apply terminates_bind; [apply IH; lia|intros _].
  apply terminates_bind; [apply terminates_swap_rec; lia|intros _].
  apply IH. lia.
Qed.

Lemma terminates_transpose a : terminates (transpose_square (A := A) a).
Proof. apply terminates_transpose_rec. lia. Qed.

End Termination.

Section CoreTermination.

Context {A : Type}.
Context (add sub mul : A -> A -> A) (twiddle : nat -> nat -> A).
Implicit Types (x : view1) (a b : view3).

(** A [bind] ends when its first command ends and its continuation ends
    on every value the first command can return. *)
Lemma terminates_bind_val {X Y} (P : X -> Prop) (m : M A X) (k : X -> M A Y) :
  (forall s, match fst (m s) with
             | Ok v => P v
             | Raise _ => True
             | OutOfFuel => False
             end) ->
  (forall v, P v -> terminates (k v)) -> terminates (bind m k).
Proof.
  intros Hm Hk s. unfold bind. specialize (Hm s).
  destruct (m s) as [[v| |] s']; cbn [fst] in *;
    [apply Hk, Hm|discriminate|contradiction].
Qed.

Lemma lb_exact_value (n : nat) (s : state A) :
  match fst (lift (lb_exact (Z.of_nat n)) s) with
  | Ok lb => exists k, lb = Z.of_nat k /\ n = 2 ^ k
  | Raise _ => True
  | OutOfFuel => False
  end.
Proof.
  unfold lift. cbn [fst].
  destruct (lb_exact (Z.of_nat n)) as [lb| |] eqn:E; [|trivial|].
  - apply lb_exact_Ok_inv in E as [Hlb E]. exists (Z.to_nat lb).
    split; [lia|]. apply Nat2Z.inj. rewrite E, Nat2Z.inj_pow, Z2Nat.id by lia.
    reflexivity.
  - exact (lb_exact_ends _ E).
Qed.

Lemma reshape3_value x d0 d1 d2 (s : state A) :
  match fst (reshape3 x d0 d1 d2 s) with
  | Ok x3 => sh0 x3 = d0 /\ sh1 x3 = d1
  | Raise _ => True
  | OutOfFuel => False
  end.
Proof. unfold reshape3. destruct (_ =? _); cbn; auto. Qed.

Lemma row_flat_value a i n (s : state A) :
  match fst (row_flat a i n s) with
  | Ok v => vlen v = n
  | Raise _ => True
  | OutOfFuel => False
  end.
Proof.
  unfold row_flat. destruct (negb _); cbn; [trivial|].
  destruct (_ =? _); cbn; auto.
Qed.

Lemma terminates_row_flat a i n : terminates (row_flat (A := A) a i n).
Proof.
  unfold row_flat. destruct (negb _); [apply terminates_raise|].
  destruct (_ =? _); [apply terminates_ret|apply terminates_raise].
Qed.

Lemma terminates_mul_twiddles row n c vec_len :
  terminates (mul_twiddles mul twiddle row n c vec_len).
Proof.
  apply terminates_for_range. intros j.
  apply terminates_bind; [apply terminates_rd|intros v]. apply terminates_wr.
Qed.

Lemma terminates_evenpow rec x :
  (forall lb y, vlen x = 2 ^ lb -> vlen y = 2 ^ (lb / 2) -> terminates (rec y)) ->
  terminates (_fft_inplace_evenpow mul twiddle rec x).
Proof.
  intros Hrec. unfold _fft_inplace_evenpow.
  eapply terminates_bind_val; [apply lb_exact_value|].
  intros lb (k & -> & Hk). cbv beta. rewrite half_pow.
  eapply terminates_bind_val; [apply reshape3_value|].
  intros x3 (H0 & H1). cbv beta.
  assert (Hrow : forall i, terminates (rec (row_of x3 i))).
  { intros i. apply (Hrec k); [exact Hk|exact H1]. }
  apply terminates_bind; [apply terminates_transpose|intros _].
  apply terminates_bind; [|intros _].
  { apply terminates_for_range. intros i.
    apply terminates_bind; [apply Hrow|intros _]. apply terminates_mul_twiddles. }
  apply terminates_bind; [apply terminates_transpose|intros _].
  apply terminates_bind; [|intros _].
  { apply terminates_for_range. intros i. apply Hrow. }
  apply terminates_transpose.
Qed.

Lemma terminates_oddpow rec x :
  (forall lb y, vlen x = 2 ^ lb ->
     vlen y = 2 ^ (lb / 2) \/ vlen y = 2 ^ (lb / 2) * 2 -> terminates (rec y)) ->
  terminates (_fft_inplace_oddpow mul twiddle rec x).
Proof.
  intros Hrec. unfold _fft_inplace_oddpow.
  eapply terminates_bind_val; [apply lb_exact_value|].
  intros lb (k & -> & Hk). cbv beta. rewrite half_pow.
  replace (Nat.shiftl (2 ^ (k / 2)) 1) with (2 ^ (k / 2) * 2)
    by (rewrite Nat.shiftl_mul_pow2; reflexivity).
  set (c := 2 ^ (k / 2)).
  eapply terminates_bind_val; [apply reshape3_value|].
  intros x3 (H0 & H1). cbv beta.
  apply terminates_bind; [apply terminates_transpose|intros _].
  apply terminates_bind; [|intros _].
  { apply terminates_for_range. intros i.
    eapply terminates_bind_val; [apply row_flat_value|].
    intros row_pair Hrp. cbv beta.
    assert (Hhalf : forall y, vlen y = c -> terminates (rec y)).
    { intros y Hy. apply (Hrec k); [exact Hk|left; exact Hy]. }
    apply terminates_bind; [apply terminates_deinterleave|intros _].
    apply terminates_bind;
      [apply Hhalf; cbn [take1 vlen]; rewrite Hrp; lia|intros _].
    apply terminates_bind; [apply terminates_mul_twiddles|intros _].
    apply terminates_bind;
      [apply Hhalf; cbn [drop1 vlen]; rewrite Hrp; lia|intros _].
    apply terminates_bind; [apply terminates_mul_twiddles|intros _].
    apply terminates_interleave. }
  apply terminates_bind; [apply terminates_transpose|intros _].
  apply terminates_bind; [|intros _].
  { apply terminates_for_range. intros i.
    eapply terminates_bind_val; [apply row_flat_value|].
    intros row Hrow. cbv beta. apply (Hrec k); [exact Hk|right; exact Hrow]. }
  apply terminates_bind; [apply terminates_transpose|intros _].
  apply terminates_for_range. intros i.
  apply terminates_bind; [apply terminates_row_flat|intros row_pair].
  apply terminates_deinterleave.
Qed.

End CoreTermination.

Section CoreEnds.

Context {A : Type}.
Context (add sub mul : A -> A -> A) (twiddle : nat -> nat -> A).
Implicit Types (x : view1) (a b : view3).

Lemma terminates_fft_inplace_rec :
  forall fuel x,
    vlen x < fuel -> terminates (_fft_inplace_rec add sub mul twiddle fuel x).
Proof.
  induction fuel as [|fuel IH]; intros x Hf; [lia|].
  rewrite fft_inplace_rec_unfold.
  apply terminates_bind; [apply terminates_assert|intros _]. cbv zeta.
  destruct (vlen x =? 1) eqn:E1; [apply terminates_ret|].
  destruct (vlen x =? 2) eqn:E2.
  { apply terminates_bind; [apply terminates_rd|intros x0].
    apply terminates_bind; [apply terminates_rd|intros x1].
    apply terminates_bind; [apply terminates_wr|intros _]. apply terminates_wr. }
  apply Nat.eqb_neq in E1, E2.
  eapply terminates_bind_val; [apply lb_exact_value|].
  intros lb (k & -> & Hk). cbv beta. rewrite land_1_odd.
  pose proof (pow2_pos (k / 2)) as Hc.
  destruct (Nat.odd k) eqn:Hodd.
  - apply terminates_oddpow. intros k' y Hk' Hy.
    assert (k' = k) as -> by (apply (Nat.pow_inj_r 2); lia).
    pose proof (pow2_odd_half k Hodd) as Hsq.
    assert (2 ^ (k / 2) <> 1) by (intros Hone; rewrite Hone in Hsq; lia).
    apply IH. destruct Hy as [-> | ->]; nia.
  - apply terminates_evenpow. intros k' y Hk' Hy.
    assert (k' = k) as -> by (apply (Nat.pow_inj_r 2); lia).
    assert (Hev : Nat.even k = true) by (rewrite <- Nat.negb_odd, Hodd; reflexivity).
    pose proof (pow2_even_half k Hev) as Hsq.
    assert (2 ^ (k / 2) <> 1) by (intros Hone; rewrite Hone in Hsq; lia).
    apply IH. rewrite Hy. nia.
Qed.

Lemma terminates_fft_inplace x : terminates (_fft_inplace add sub mul twiddle x).
Proof. apply terminates_fft_inplace_rec. lia. Qed.

Lemma run_core_ends res sc (h : list (list A)) :
  fst (run_core add sub mul twiddle res sc h) <> OutOfFuel.
Proof.
  unfold run_core, heap in *. destruct (h !! res) as [work|]; [|discriminate].
  cbv zeta.
  pose proof (terminates_fft_inplace (mkView1 0 (length work) 1)
                (mkState work match sc with None => None | Some l => h !! l end))
    as Hend.
  destruct (_fft_inplace _ _ _ _ _ _) as [o s]. exact Hend.
Qed.

Lemma fft_ends garbage xloc (h : list (list A)) :
  fst (fft add sub mul twiddle garbage xloc h) <> OutOfFuel.
Proof.
  unfold fft, heap in *. destruct (h !! xloc) as [xs|]; [|discriminate].
  cbv zeta.
  pose proof (lb_exact_ends (Z.of_nat (length xs))) as Hlb.
  destruct (lb_exact _) as [lb|e|]; [|discriminate|contradiction].
  pose proof (scrach_length_ends lb) as Hsl.
  destruct (_scrach_length lb) as [sl|e|]; [|discriminate|contradiction].
  destruct (sl =? 0)%Z.
  - pose proof (run_core_ends (length h) None (h ++ [xs])) as Hrc.
    destruct (run_core _ _ _ _ _ _ _) as [[u|e|] h3]; cbn [fst] in *;
      [discriminate|discriminate|contradiction].
  - set (h1 := h ++ [_]).
    pose proof (run_core_ends (length h1) (Some (length h)) (h1 ++ [xs])) as Hrc.
    destruct (run_core _ _ _ _ _ _ _) as [[u|e|] h3]; cbn [fst] in *;
      [discriminate|discriminate|contradiction].
Qed.

(** X10: Every routine of the package ends on every argument and every
    store: the recursion of the transposes halves the matrix and the one
    of the core works on rows of at most twice the square root of the
    length, so a run is always a return or a Python exception, never an
    exhausted budget; [_scrach_length] ends on every integer, negative
    ones included. *)
Theorem routines_terminate (garbage : nat -> A) (x : view1) (a b : view3)
    (s : state A) (xloc : nat) (h : list (list A)) (k : Z) :
  fst (_interleave x s) <> OutOfFuel /\
  fst (_deinterleave x s) <> OutOfFuel /\
  fst (_swap_transpose_square a b s) <> OutOfFuel /\
  fst (transpose_square a s) <> OutOfFuel /\
  fst (_fft_inplace add sub mul twiddle x s) <> OutOfFuel /\
  fst (fft add sub mul twiddle garbage xloc h) <> OutOfFuel /\
  _scrach_length k <> OutOfFuel /\
  lb_exact k <> OutOfFuel.
Proof.
  repeat split.
  - apply terminates_interleave.
  - apply terminates_deinterleave.
  - apply terminates_swap_rec. lia.
  - apply terminates_transpose.
  - apply terminates_fft_inplace.
  - apply fft_ends.
  - apply scrach_length_ends.
  - apply lb_exact_ends.
Qed.

End CoreEnds.

(** ** The swapping transpose *)

(** What [moves (swaps a b)] says cell by cell. *)
Lemma swaps_cells {A : Type} (k : nat) (a b : view3) (D : nat -> Prop)
    (bf bf' : list A) :
  sh0 a = 2 ^ k -> sh1 a = 2 ^ k -> sh0 b = 2 ^ k -> sh1 b = 2 ^ k ->
  sh2 b = sh2 a ->
  (moves (swaps a b) D bf bf' \/ moves (swaps b a) D bf bf') ->
  forall i j l, i < 2 ^ k -> j < 2 ^ k -> l < sh2 a ->
    bf' !! pos3 a i j l = bf !! pos3 b j i l /\
    bf' !! pos3 b i j l = bf !! pos3 a j i l.
Proof.
  intros Ha0 Ha1 Hb0 Hb1 Hb2 [(_ & M & _)|(_ & M & _)] i j l Hi Hj Hl;
    split; apply M; exists i, j, l; unfold in_shape;
    rewrite ?Ha0, ?Ha1, ?Hb0, ?Hb1, ?Hb2; auto.
Qed.

(** X11: [_swap_transpose_square a b] on two disjoint views of shape
    [(n, n, m)], [n] a power of two: cell [(i, j)] of each matrix receives
    cell [(j, i)] of the other, nothing else changes, the scratch argument
    is not used, the two arguments can be exchanged, and a second call
    restores the buffer. *)
Theorem swap_transpose_square_correct
    {A : Type} (k : nat) (a b : view3) (bf : list A) (sc : option (list A)) :
  sh0 a = 2 ^ k -> sh1 a = 2 ^ k -> sh0 b = 2 ^ k -> sh1 b = 2 ^ k ->
  sh2 b = sh2 a ->
  inj3 a -> inj3 b -> disj3 a b ->
  inb3 a (length bf) -> inb3 b (length bf) ->
  exists bf',
    _swap_transpose_square a b (mkState bf sc) = (Ok tt, mkState bf' sc) /\
    length bf' = length bf /\
    (forall i j l, i < 2 ^ k -> j < 2 ^ k -> l < sh2 a ->
       bf' !! pos3 a i j l = bf !! pos3 b j i l /\
       bf' !! pos3 b i j l = bf !! pos3 a j i l) /\
    (forall p, ~ In3 a p -> ~ In3 b p -> bf' !! p = bf !! p) /\
    _swap_transpose_square b a (mkState bf sc) = (Ok tt, mkState bf' sc) /\
    _swap_transpose_square a b (mkState bf' sc) = (Ok tt, mkState bf sc).
Proof.
  intros Ha0 Ha1 Hb0 Hb1 Hb2 Hia Hib Hd Hba Hbb.
  pose proof (pow2_gt k) as Hk. unfold _swap_transpose_square.
  destruct (swap_spec (S (sh0 a)) k a b (sh2 a) bf sc) as (bf1 & E1 & M1);
    try assumption; try lia; try reflexivity.
  destruct (swap_spec (S (sh0 b)) k b a (sh2 a) bf sc) as (bf2 & E2 & M2);
    try assumption; try lia; try reflexivity; [apply disj3_sym, Hd|].
  assert (L1 : length bf1 = length bf) by apply M1.
  destruct (swap_spec (S (sh0 a)) k a b (sh2 a) bf1 sc) as (bf3 & E3 & M3);
    try assumption; try lia; try reflexivity; [rewrite L1; assumption..|].
  pose proof (swaps_cells k a b _ bf bf1 Ha0 Ha1 Hb0 Hb1 Hb2 (or_introl M1)) as C1.
  pose proof (swaps_cells k a b _ bf bf2 Ha0 Ha1 Hb0 Hb1 Hb2 (or_intror M2)) as C2.
  pose proof (swaps_cells k a b _ bf1 bf3 Ha0 Ha1 Hb0 Hb1 Hb2 (or_introl M3)) as C3.
  destruct M1 as (_ & _ & F1), M2 as (_ & _ & F2), M3 as (_ & _ & F3).
  assert (Hcase : forall p,
            (exists i j l, i < 2 ^ k /\ j < 2 ^ k /\ l < sh2 a /\
               (p = pos3 a i j l \/ p = pos3 b i j l)) \/
            ~ (In3 a p \/ In3 b p)).
  { intros p.
    destruct (In3_dec a p) as [(i & j & l & (Hi & Hj & Hl) & ->)|Hna].
    { left. exists i, j, l. rewrite Ha0 in Hi. rewrite Ha1 in Hj. auto. }
    destruct (In3_dec b p) as [(i & j & l & (Hi & Hj & Hl) & ->)|Hnb].
    { left. exists i, j, l. rewrite Hb0 in Hi. rewrite Hb1 in Hj.
      rewrite Hb2 in Hl. auto. }
    right. tauto. }
  exists bf1. split; [exact E1|]. split; [exact L1|]. split; [exact C1|].
  split; [intros p Hna Hnb; apply F1; tauto|]. split.
  - rewrite E2. do 2 f_equal. apply list_eq. intros p.
    destruct (Hcase p) as [(i & j & l & Hi & Hj & Hl & [-> | ->])|Hout].
    + rewrite (proj1 (C2 i j l Hi Hj Hl)), (proj1 (C1 i j l Hi Hj Hl)).
      reflexivity.
    + rewrite (proj2 (C2 i j l Hi Hj Hl)), (proj2 (C1 i j l Hi Hj Hl)).
      reflexivity.
    + rewrite F1 by exact Hout. apply F2. tauto.
  - rewrite E3. do 2 f_equal. apply list_eq. intros p.
    destruct (Hcase p) as [(i & j & l & Hi & Hj & Hl & [-> | ->])|Hout].
    + rewrite (proj1 (C3 i j l Hi Hj Hl)), (proj2 (C1 j i l Hj Hi Hl)).
      reflexivity.
    + rewrite (proj2 (C3 i j l Hi Hj Hl)), (proj1 (C1 j i l Hj Hi Hl)).
      reflexivity.
    + rewrite F3, F1 by exact Hout. reflexivity.
Qed.

Lemma swap_transpose_square_correct_witness :
  exists bf',
    _swap_transpose_square (mkView3 0 2 2 1 4 1 1) (mkView3 2 2 2 1 4 1 1)
      (mkState [0; 1; 2; 3; 4; 5; 6; 7] None)
    = (Ok tt, mkState bf' None) /\
    length bf' = 8 /\
    (forall i j l, i < 2 ^ 1 -> j < 2 ^ 1 -> l < 1 ->
       bf' !! pos3 (mkView3 0 2 2 1 4 1 1) i j l
       = [0; 1; 2; 3; 4; 5; 6; 7] !! pos3 (mkView3 2 2 2 1 4 1 1) j i l /\
       bf' !! pos3 (mkView3 2 2 2 1 4 1 1) i j l
       = [0; 1; 2; 3; 4; 5; 6; 7] !! pos3 (mkView3 0 2 2 1 4 1 1) j i l) /\
    (forall p, ~ In3 (mkView3 0 2 2 1 4 1 1) p ->
               ~ In3 (mkView3 2 2 2 1 4 1 1) p ->
       bf' !! p = [0; 1; 2; 3; 4; 5; 6; 7] !! p) /\
    _swap_transpose_square (mkView3 2 2 2 1 4 1 1) (mkView3 0 2 2 1 4 1 1)
      (mkState [0; 1; 2; 3; 4; 5; 6; 7] None)
    = (Ok tt, mkState bf' None) /\
    _swap_transpose_square (mkView3 0 2 2 1 4 1 1) (mkView3 2 2 2 1 4 1 1)
      (mkState bf' None)
    = (Ok tt, mkState [0; 1; 2; 3; 4; 5; 6; 7] None).
Proof.
  apply (swap_transpose_square_correct 1 (mkView3 0 2 2 1 4 1 1)
           (mkView3 2 2 2 1 4 1 1) [0; 1; 2; 3; 4; 5; 6; 7] None).
  - reflexivity.
  - reflexivity.
  - reflexivity.
  - reflexivity.
  - reflexivity.
  - unfold inj3, in_shape, pos3. simpl. lia.
  - unfold inj3, in_shape, pos3. simpl. lia.
  - unfold disj3, In3, in_shape, pos3. simpl.
    intros p (i & j & l & Hi & ->) (i' & j' & l' & Hi' & E). lia.
  - unfold inb3, in_shape, pos3. simpl. lia.
  - unfold inb3, in_shape, pos3. simpl. lia.
Defined.

Section SwapShapes.

Context {A : Type}.
Implicit Types (a b : view3) (bf : list A) (sc : option (list A)).

Lemma bind_ret_eq {X Y} (v : X) (k : X -> M A Y) : bind (ret v) k = k v.
Proof. reflexivity. Qed.

Lemma fails_asserts_only L sc (m : M A unit) :
  assertion_fails L sc m -> asserts_only L sc m.
Proof.
  intros H bf Hl. destruct (H bf Hl) as (bf' & E & L').
  exists (Raise AssertionError), bf'. auto.
Qed.

Lemma asserts_only_seq L sc (m1 m2 : M A unit) :
  asserts_only L sc m1 -> asserts_only L sc m2 -> asserts_only L sc (m1 >> m2).
Proof.
  intros H1 H2 bf Hl. destruct (H1 bf Hl) as (o & bf1 & E1 & L1 & [-> | ->]).
  - destruct (H2 bf1 L1) as (o2 & bf2 & E2 & L2 & G2).
    exists o2, bf2. rewrite (bind_ok _ _ _ _ _ E1). auto.
  - exists (Raise AssertionError), bf1. rewrite (bind_raise _ _ _ _ _ E1). auto.
Qed.

Lemma fails_first L sc (m1 m2 : M A unit) :
  assertion_fails L sc m1 -> assertion_fails L sc (m1 >> m2).
Proof.
  intros H1 bf Hl. destruct (H1 bf Hl) as (bf1 & E1 & L1).
  exists bf1. rewrite (bind_raise _ _ _ _ _ E1). auto.
Qed.

Lemma fails_second L sc (m1 m2 : M A unit) :
  asserts_only L sc m1 -> assertion_fails L sc m2 ->
  assertion_fails L sc (m1 >> m2).
Proof.
  intros H1 H2 bf Hl. destruct (H1 bf Hl) as (o & bf1 & E1 & L1 & [-> | ->]).
  - destruct (H2 bf1 L1) as (bf2 & E2 & L2).
    exists bf2. rewrite (bind_ok _ _ _ _ _ E1). auto.
  - exists bf1. rewrite (bind_raise _ _ _ _ _ E1). auto.
Qed.

(** [a[:h, :h]] is a window of [a] whenever [h] rows and columns exist. *)
Lemma sub3_top_left_le a h :
  h <= sh0 a -> h <= sh1 a -> sub3 (top_left h a) a 0 0.
Proof.
  intros H0 H1. unfold sub3, top_left, cols_to, rows_to, pos3; simpl.
  repeat split; try lia.
Qed.

(** The base case exchanges cells that exist. *)
Lemma swap_cells_in_bounds a b sc :
  forall L, inb3 a L -> inb3 b L -> sh0 a = 1 -> sh1 a = 1 ->
    sh0 b = 1 -> sh1 b = 1 -> sh2 b = sh2 a ->
    asserts_only L sc
      (for_range (sh2 a) (fun i =>
         let* vb := rd (cell b 0 0) i in
         let* va := rd (cell a 0 0) i in
         wr (cell a 0 0) i vb >> wr (cell b 0 0) i va)).
Proof.
  intros L Hba Hbb Ha0 Ha1 Hb0 Hb1 Hb2 bf Hl.
  destruct (for_range_inv
    (fun (_ : nat) t => scratch t = sc /\ length (buf t) = L)
    (fun i =>
       let* vb := rd (cell b 0 0) i in
       let* va := rd (cell a 0 0) i in
       wr (cell a 0 0) i vb >> wr (cell b 0 0) i va) (sh2 a)
    (mkState bf sc)) as ([bf' sc'] & E & Hsc & Hlen).
  { split; [reflexivity|exact Hl]. }
  { intros i [bt st] Hi (Hs & Ht). cbn [scratch buf] in Hs, Ht. subst st.
    assert (Pa : pos3 a 0 0 i < length bt).
    { rewrite Ht. apply Hba. unfold in_shape. lia. }
    assert (Pb : pos3 b 0 0 i < length bt).
    { rewrite Ht. apply Hbb. unfold in_shape. lia. }
    destruct (lookup_lt_is_Some_2 bt _ Pa) as [va Hva].
    destruct (lookup_lt_is_Some_2 bt _ Pb) as [vb Hvb].
    rewrite (bind_ok _ _ _ _ _ (rd_ok (cell b 0 0) i (mkState bt sc) vb
               ltac:(cbn; lia) ltac:(rewrite vpos_cell; exact Hvb))).
    rewrite (bind_ok _ _ _ _ _ (rd_ok (cell a 0 0) i (mkState bt sc) va
               ltac:(cbn; lia) ltac:(rewrite vpos_cell; exact Hva))).
    rewrite (bind_ok _ _ _ _ _ (wr_ok (cell a 0 0) i vb (mkState bt sc)
               ltac:(cbn; lia) ltac:(rewrite vpos_cell; exact Pa))).
    cbn [buf scratch].
    eexists. split.
    - apply wr_ok; [cbn; lia|].
      cbn [buf]. rewrite length_insert, vpos_cell. exact Pb.
    - cbn [buf scratch]. rewrite !length_insert. auto. }
  cbn [scratch buf] in Hsc, Hlen. subst sc'.
  exists (Ok tt), bf'. auto.
Qed.

Lemma not_pow2_half n h :
  n = 2 * h -> (forall k, n <> 2 ^ k) -> forall k, h <> 2 ^ k.
Proof.
  intros -> H k E. apply (H (S k)). rewrite Nat.pow_succ_r'. lia.
Qed.

Lemma odd_not_pow2 h k : 1 <= h -> 2 * h + 1 <> 2 ^ k.
Proof.
  intros Hh. destruct k as [|k]; [simpl; lia|]. rewrite Nat.pow_succ_r'. lia.
Qed.

Lemma shiftr1_half n : Nat.shiftr n 1 = n / 2.
Proof. rewrite Nat.shiftr_div_pow2. reflexivity. Qed.

(** On matrices of one shape [(n, n, m)] that lie inside the buffer, the
    swapping transpose returns or fails an assertion, and it fails when
    [n] is neither zero nor a power of two. *)
Lemma swap_shapes sc L :
  forall fuel a b,
    sh0 a < fuel ->
    sh1 a = sh0 a -> sh0 b = sh0 a -> sh1 b = sh0 a -> sh2 b = sh2 a ->
    inb3 a L -> inb3 b L ->
    asserts_only L sc (_swap_transpose_square_rec fuel a b) /\
    (sh0 a <> 0 -> (forall k, sh0 a <> 2 ^ k) ->
     assertion_fails L sc (_swap_transpose_square_rec fuel a b)).
Proof.
  induction fuel as [|fuel IH]; intros a b Hf Ha1 Hb0 Hb1 Hb2 Hba Hbb; [lia|].
  rewrite swap_rec_unfold. cbv zeta.
  rewrite Ha1, Hb0, Hb1, Hb2, !Nat.eqb_refl. simpl andb.
  change (assert true) with (@ret A _ tt). rewrite !bind_ret_eq.
  destruct (Nat.eqb_spec (sh0 a) 0) as [E0|N0].
  { split; [|contradiction]. intros bf Hl. exists (Ok tt), bf. auto. }
  destruct (Nat.eqb_spec (sh0 a) 1) as [E1|N1].
  { split.
    - apply swap_cells_in_bounds; try assumption; congruence.
    - intros _ H. destruct (H 0). exact E1. }
  rewrite shiftr1_half. set (h := sh0 a / 2).
  pose proof (Nat.div_mod_eq (sh0 a) 2) as Hdm. fold h in Hdm.
  pose proof (Nat.mod_upper_bound (sh0 a) 2 ltac:(lia)) as Hm.
  assert (Hh : 1 <= h) by lia. clearbody h.
  assert (Hquad : forall qa qb,
            sh0 qa = h -> sh1 qa = h -> sh0 qb = h -> sh1 qb = h ->
            sh2 qa = sh2 a -> sh2 qb = sh2 b ->
            inb3 qa L -> inb3 qb L ->
            asserts_only L sc (_swap_transpose_square_rec fuel qa qb) /\
            ((forall k, h <> 2 ^ k) ->
             assertion_fails L sc (_swap_transpose_square_rec fuel qa qb))).
  { intros qa qb Q0 Q1 Q2 Q3 Q4 Q5 Q6 Q7.
    destruct (IH qa qb) as [S1 F1]; try assumption; try lia; try congruence.
    split; [exact S1|]. intros Hn. apply F1; [lia|]. rewrite Q0. exact Hn. }
  destruct (Nat.eq_dec (sh0 a mod 2) 0) as [Ev|Od].
  - assert (Ha0 : sh0 a = 2 * h) by lia.
    assert (Ha1' : sh1 a = 2 * h) by lia.
    assert (Hb0' : sh0 b = 2 * h) by lia.
    assert (Hb1' : sh1 b = 2 * h) by lia.
    destruct (Hquad (top_left h a) (top_left h b)) as [S1 F1];
      try (cbn; lia);
      [eapply sub3_inb; [apply sub3_top_left; assumption|assumption]..|].
    destruct (Hquad (top_right h a) (bottom_left h b)) as [S2 _];
      try (cbn; lia);
      [eapply sub3_inb; [apply sub3_top_right; assumption|assumption]
      |eapply sub3_inb; [apply sub3_bottom_left; assumption|assumption]|].
    destruct (Hquad (bottom_left h a) (top_right h b)) as [S3 _];
      try (cbn; lia);
      [eapply sub3_inb; [apply sub3_bottom_left; assumption|assumption]
      |eapply sub3_inb; [apply sub3_top_right; assumption|assumption]|].
    destruct (Hquad (bottom_right h a) (bottom_right h b)) as [S4 _];
      try (cbn; lia);
      [eapply sub3_inb; [apply sub3_bottom_right; assumption|assumption]..|].
    split.
    + repeat apply asserts_only_seq; assumption.
    + intros _ Hn. apply fails_first, F1.
      exact (not_pow2_half _ _ Ha0 Hn).
  - assert (Ha0 : sh0 a = 2 * h + 1) by lia.
    assert (Hfail : assertion_fails L sc
              (_swap_transpose_square_rec fuel (top_left h a) (top_left h b) >>
               _swap_transpose_square_rec fuel (top_right h a) (bottom_left h b) >>
               _swap_transpose_square_rec fuel (bottom_left h a) (top_right h b) >>
               _swap_transpose_square_rec fuel (bottom_right h a)
                 (bottom_right h b))).
    { destruct (Hquad (top_left h a) (top_left h b)) as [S1 _];
        try (cbn; lia);
        [eapply sub3_inb; [apply sub3_top_left_le; lia|assumption]..|].
      apply fails_second; [exact S1|]. apply fails_first.
      destruct fuel as [|fuel']; [lia|]. rewrite swap_rec_unfold. cbv zeta.
      intros bf Hl. exists bf. split; [|exact Hl].
      replace (sh0 (top_right h a) =? sh1 (top_right h a)) with false
        by (symmetry; apply Nat.eqb_neq; cbn; lia).
      reflexivity. }
    split; [apply fails_asserts_only, Hfail|]. intros _ _. exact Hfail.
Qed.

End SwapShapes.

(** X12: [_swap_transpose_square] asks for more than its docstring says:
    on two matrices of one shape [(n, n, m)] that lie inside the buffer,
    with [n] neither zero nor a power of two, a quadrant of the recursion
    is not square and the call raises [AssertionError]; the scratch
    argument and the length of the buffer are kept. *)
Theorem swap_transpose_square_not_pow2
    {A : Type} (a b : view3) (bf : list A) (sc : option (list A)) :
  sh1 a = sh0 a -> sh0 b = sh0 a -> sh1 b = sh0 a -> sh2 b = sh2 a ->
  inb3 a (length bf) -> inb3 b (length bf) ->
  sh0 a <> 0 -> (forall k, sh0 a <> 2 ^ k) ->
  exists bf',
    _swap_transpose_square a b (mkState bf sc)
    = (Raise AssertionError, mkState bf' sc) /\
    length bf' = length bf.
Proof.
  intros Ha1 Hb0 Hb1 Hb2 Hba Hbb Hn0 Hn. unfold _swap_transpose_square.
  destruct (swap_shapes sc (length bf) (S (sh0 a)) a b) as [_ F];
    try assumption; [lia|].
  exact (F Hn0 Hn bf eq_refl).
Qed.

Lemma swap_transpose_square_not_pow2_witness :
  exists bf',
    _swap_transpose_square (mkView3 0 3 3 1 3 1 1) (mkView3 9 3 3 1 3 1 1)
      (mkState [1; 2; 3; 4; 5; 6; 7; 8; 9; 10; 11; 12; 13; 14; 15; 16; 17; 18]
               None)
    = (Raise AssertionError, mkState bf' None) /\
    length bf' = 18.
Proof.
  apply (swap_transpose_square_not_pow2 (mkView3 0 3 3 1 3 1 1)
           (mkView3 9 3 3 1 3 1 1)
           [1; 2; 3; 4; 5; 6; 7; 8; 9; 10; 11; 12; 13; 14; 15; 16; 17; 18] None).
  - reflexivity.
  - reflexivity.
  - reflexivity.
  - reflexivity.
  - unfold inb3, in_shape, pos3. simpl. lia.
  - unfold inb3, in_shape, pos3. simpl. lia.
  - simpl. lia.
  - intros [|[|k]]; simpl; lia.
Defined.

(** ** The core on a part of a larger array *)

Section RingCore.

Context {A : Type}.
Context (zero one : A) (add mul sub : A -> A -> A) (opp : A -> A).
Context (twiddle : nat -> nat -> A).

Hypothesis Rth : ring_theory zero one add mul sub opp (@eq A).
Hypothesis tw_0 : forall n, twiddle 0 n = one.
Hypothesis tw_add :
  forall a b n, twiddle (a + b) n = mul (twiddle a n) (twiddle b n).
Hypothesis tw_period : forall n, 0 < n -> twiddle n n = one.
Hypothesis tw_scale :
  forall c a n, 0 < c -> 0 < n -> twiddle (c * a) (c * n) = twiddle a n.
Hypothesis tw_half : twiddle 1 2 = opp one.

(** X13: Over any commutative ring whose [twiddle e n] behaves like
    [exp(-2 pi i e / n)] (a field with roots of unity as well as the
    complex numbers), [_fft_inplace] on a contiguous view of [2 ^ k]
    cells of a larger buffer, with a scratch argument of the required
    length or longer, replaces the cells of the view by their forward DFT
    and changes no other cell of the buffer; the scratch argument keeps
    its shape. *)
Theorem fft_inplace_dft_on_view
    (x : view1) (bf : list A) (sc : option (list A)) (k : nat) :
  vlen x = 2 ^ k -> vstride x = 1 -> voff x + 2 ^ k <= length bf ->
  fits k (shape_of sc) ->
  exists bf' sc',
    _fft_inplace add sub mul twiddle x (mkState bf sc)
    = (Ok tt, mkState bf' sc') /\
    length bf' = length bf /\
    shape_of sc' = shape_of sc /\
    (forall j, j < 2 ^ k ->
       bf' !! (voff x + j)
       = Some (dft zero add mul twiddle (2 ^ k)
                 (fun t => nth (voff x + t) bf zero) j)) /\
    (forall p, p < voff x \/ voff x + 2 ^ k <= p -> bf' !! p = bf !! p).
Proof.
  intros Hlen Hst Hin Hfit. unfold _fft_inplace. rewrite Hlen.
  destruct (fft_inplace_spec add sub mul twiddle (S (2 ^ k)) k
              ltac:(pose proof (pow2_gt k); lia) x bf sc
              (fun t => nth (voff x + t) bf zero) Hlen Hst)
    as (bf' & sc' & E & Hseg & (L & Hout) & Hsh).
  { intros i Hi.
    destruct (nth_lookup_or_length bf (voff x + i) zero) as [H|H];
      [exact H|lia]. }
  { exact Hfit. }
  exists bf', sc'. split; [exact E|]. split; [exact L|]. split; [exact Hsh|].
  split; [|exact Hout].
  intros j Hj. rewrite (Hseg j Hj). f_equal.
  apply (fft_fun_dft zero one add mul sub opp twiddle Rth tw_0 tw_add
           tw_period tw_scale tw_half).
  - pose proof (pow2_gt k). lia.
  - exact Hj.
Qed.

End RingCore.

Lemma fft_inplace_dft_on_view_witness :
  exists bf' sc',
    _fft_inplace Cx.Cadd Cx.Csub Cx.Cmul Cx.cexp (mkView1 1 4 1)
      (mkState [Cx.C1; Cx.C1; Cx.C0; Cx.C1; Cx.C1; Cx.C0] None)
    = (Ok tt, mkState bf' sc') /\
    length bf' = 6 /\
    shape_of sc' = None /\
    (forall j, j < 2 ^ 2 ->
       bf' !! (1 + j)
       = Some (dft Cx.C0 Cx.Cadd Cx.Cmul Cx.cexp (2 ^ 2)
                 (fun t => nth (1 + t) [Cx.C1; Cx.C1; Cx.C0; Cx.C1; Cx.C1; Cx.C0] Cx.C0) j)) /\
    (forall p, p < 1 \/ 1 + 2 ^ 2 <= p ->
       bf' !! p = [Cx.C1; Cx.C1; Cx.C0; Cx.C1; Cx.C1; Cx.C0] !! p).
Proof.
  apply (fft_inplace_dft_on_view Cx.C0 Cx.C1 Cx.Cadd Cx.Cmul Cx.Csub Cx.Copp
           Cx.cexp CxFacts.C_ring CxFacts.cexp_0 CxFacts.cexp_add CxFacts.cexp_period
           CxFacts.cexp_scale CxFacts.cexp_half (mkView1 1 4 1)
           [Cx.C1; Cx.C1; Cx.C0; Cx.C1; Cx.C1; Cx.C0] None 2).
  - reflexivity.
  - reflexivity.
  - simpl. lia.
  - reflexivity.
Defined.

(** ** The store of the caller *)

Section Store.

Context {A : Type}.
Context (add sub mul : A -> A -> A) (twiddle : nat -> nat -> A).

(** What [run_core] does to the store, whatever the outcome of the core:
    only the working array and the scratch array can change. *)
Lemma run_core_store res sc (h : list (list A)) :
  length (snd (run_core add sub mul twiddle res sc h)) = length h /\
  forall l, l <> res -> sc <> Some l ->
    snd (run_core add sub mul twiddle res sc h) !! l = h !! l.
Proof.
  unfold run_core, heap in *. destruct (h !! res) as [work|]; [|auto].
  cbv zeta. destruct (_fft_inplace _ _ _ _ _ _) as [o s]. cbn [snd].
  destruct sc as [l0|]; [destruct (scratch s) as [c|]|];
    rewrite ?length_insert; (split; [reflexivity|]); intros l Hl Hs;
    rewrite ?list_lookup_insert_ne by congruence; reflexivity.
Qed.

Lemma run_core_outcome res sc (h : list (list A)) :
  forall r, fst (run_core add sub mul twiddle res sc h) = Ok r -> res < length h.
Proof.
  unfold run_core, heap in *. intros r.
  destruct (h !! res) as [work|] eqn:E; [|discriminate].
  intros _. eapply lookup_lt_Some, E.
Qed.

(** The number of arrays that [fft] allocates on the array named [x]:
    none when the call is rejected, the working copy, and a scratch array
    when [_scrach_length] asks for one. *)
Lemma fft_length (garbage : nat -> A) (x : nat) (h : list (list A)) :
  length (snd (fft add sub mul twiddle garbage x h))
  = length h +
    match h !! x with
    | None => 0
    | Some xs =>
        match lb_exact (Z.of_nat (length xs)) with
        | Ok lb =>
            match _scrach_length lb with
            | Ok r => if (r =? 0)%Z then 1 else 2
            | _ => 0
            end
        | _ => 0
        end
    end.
Proof.
  unfold fft, heap in *. destruct (h !! x) as [xs|]; [|simpl; lia].
  cbv zeta. destruct (lb_exact _) as [lb|e|]; [|simpl; lia..].
  destruct (_scrach_length lb) as [r|e|]; [|simpl; lia..].
  destruct (r =? 0)%Z.
  - destruct (run_core_store (length h) None (h ++ [xs])) as [L _].
    destruct (run_core _ _ _ _ _ _ _) as [[u|e|] h3]; cbn [snd] in *;
      rewrite L, length_app; simpl; lia.
  - set (h1 := h ++ [_]).
    destruct (run_core_store (length h1) (Some (length h)) (h1 ++ [xs]))
      as [L _].
    destruct (run_core _ _ _ _ _ _ _) as [[u|e|] h3]; cbn [snd] in *;
      rewrite L; unfold h1; rewrite !length_app; simpl; lia.
Qed.

Lemma fft_store (garbage : nat -> A) (x : nat) (h : list (list A)) :
  (forall l, l < length h ->
     snd (fft add sub mul twiddle garbage x h) !! l = h !! l) /\
  (forall res, fst (fft add sub mul twiddle garbage x h) = Ok res ->
     length (snd (fft add sub mul twiddle garbage x h)) = S res).
Proof.
  unfold fft, heap in *. destruct (h !! x) as [xs|]; [|split; [auto|discriminate]].
  cbv zeta.
  destruct (lb_exact _) as [lb|e|]; [|split; [auto|discriminate]..].
  destruct (_scrach_length lb) as [r|e|]; [|split; [auto|discriminate]..].
  destruct (r =? 0)%Z.
  - destruct (run_core_store (length h) None (h ++ [xs])) as [L F].
    destruct (run_core _ _ _ _ _ _ _) as [[u|e|] h3]; cbn [snd fst] in *;
      (split; [|try discriminate]);
      try (intros l Hl; rewrite F by (try discriminate; lia);
           apply lookup_app_l, Hl).
    intros res [= <-]. rewrite L, length_app. simpl. lia.
  - set (h1 := h ++ [_]).
    assert (L1 : length h1 = S (length h))
      by (unfold h1; rewrite length_app; simpl; lia).
    destruct (run_core_store (length h1) (Some (length h)) (h1 ++ [xs]))
      as [L F].
    destruct (run_core _ _ _ _ _ _ _) as [[u|e|] h3]; cbn [snd fst] in *;
      (split; [|try discriminate]);
      try (intros l Hl; rewrite F by (try (intros [= ?]); lia);
           rewrite lookup_app_l by lia; apply lookup_app_l, Hl).
    intros res [= <-]. rewrite L, length_app, L1. simpl. lia.
Qed.

(** X14: What a call of [fft] does to the store of the caller, whatever
    the argument and the outcome: every array that existed keeps its
    content, at most two arrays are allocated (the scratch array, then
    the working copy), and a returned name is the array allocated last;
    the number of allocations does not depend on what the uninitialised
    scratch array holds. *)
Theorem fft_store_effect (garbage garbage' : nat -> A) (x : nat)
    (h : list (list A)) :
  (forall l, l < length h ->
     snd (fft add sub mul twiddle garbage x h) !! l = h !! l) /\
  length h <= length (snd (fft add sub mul twiddle garbage x h)) <= length h + 2 /\
  (forall res, fst (fft add sub mul twiddle garbage x h) = Ok res ->
     length (snd (fft add sub mul twiddle garbage x h)) = S res) /\
  length (snd (fft add sub mul twiddle garbage x h))
  = length (snd (fft add sub mul twiddle garbage' x h)).
Proof.
  destruct (fft_store garbage x h) as [F R].
  split; [exact F|]. split; [|split; [exact R|]].
  - rewrite fft_length. destruct (h !! x) as [xs|]; [|lia].
    destruct (lb_exact _) as [lb|e|]; [|lia..].
    destruct (_scrach_length lb) as [r|e|]; [|lia..].
    destruct (r =? 0)%Z; lia.
  - rewrite !fft_length. reflexivity.
Qed.

(** X15: The result of [fft] does not depend on the content of the
    scratch array that [np.empty_like] hands out: with any two contents,
    the call on an array of valid length returns the same name and the
    same array. *)
Theorem fft_ignores_scratch_content (garbage garbage' : nat -> A) (x : nat)
    (h : list (list A)) (xs : list A) (k : nat) :
  h !! x = Some xs -> length xs = 2 ^ k ->
  exists res ys h1 h2,
    fft add sub mul twiddle garbage x h = (Ok res, h1) /\
    fft add sub mul twiddle garbage' x h = (Ok res, h2) /\
    h1 !! res = Some ys /\ h2 !! res = Some ys.
Proof.
  intros Hx Hlen.
  assert (d : A).
  { destruct xs as [|d ?]; [|exact d]. simpl in Hlen.
    pose proof (pow2_pos k). lia. }
  destruct (fft_run add sub mul twiddle garbage h x xs k d Hx Hlen)
    as (res1 & h1 & ys1 & E1 & _ & _ & R1 & L1 & V1).
  destruct (fft_run add sub mul twiddle garbage' h x xs k d Hx Hlen)
    as (res2 & h2 & ys2 & E2 & _ & _ & R2 & L2 & V2).
  pose proof (proj2 (fft_store garbage x h) res1) as S1.
  pose proof (proj2 (fft_store garbage' x h) res2) as S2.
  pose proof (fft_length garbage x h) as N1.
  pose proof (fft_length garbage' x h) as N2.
  rewrite E1 in S1, N1. rewrite E2 in S2, N2. cbn [fst snd] in *.
  specialize (S1 eq_refl). specialize (S2 eq_refl).
  assert (res2 = res1) as -> by lia.
  assert (ys2 = ys1) as ->.
  { apply list_eq. intros j. destruct (Nat.lt_ge_cases j (2 ^ k)) as [Hj|Hj].
    - rewrite V1, V2 by assumption. reflexivity.
    - rewrite !lookup_ge_None_2 by lia. reflexivity. }
  exists res1, ys1, h1, h2. auto.
Qed.

End Store.

Lemma fft_ignores_scratch_content_witness :
  exists res ys h1 h2,
    fft Nat.add Nat.sub Nat.mul (fun _ _ => 1) (fun _ => 0) 0
      [[1; 2; 3; 4; 5; 6; 7; 8]] = (Ok res, h1) /\
    fft Nat.add Nat.sub Nat.mul (fun _ _ => 1) (fun i => 7 + i) 0
      [[1; 2; 3; 4; 5; 6; 7; 8]] = (Ok res, h2) /\
    h1 !! res = Some ys /\ h2 !! res = Some ys.
Proof.
  apply (fft_ignores_scratch_content Nat.add Nat.sub Nat.mul (fun _ _ => 1)
           (fun _ => 0) (fun i => 7 + i) 0
           [[1; 2; 3; 4; 5; 6; 7; 8]] [1; 2; 3; 4; 5; 6; 7; 8] 3).
  - reflexivity.
  - reflexivity.
Defined.

Section BaseCases.

Context {A : Type}.
Context (add sub mul : A -> A -> A) (twiddle : nat -> nat -> A).

Lemma insert_last (h : list (list A)) (xs ys : list A) :
  <[length h := ys]> (h ++ [xs]) = h ++ [ys].
Proof. induction h as [|z h IH]; simpl; [reflexivity|]. f_equal. exact IH. Qed.

(** X16: The leaves of the recursion, seen from [fft], for any
    operations: an array of one element is copied, an array [[a; b]]
    gives [[a + b; a - b]]; in both cases the copy is the only array
    allocated, no scratch array is, and no twiddle factor is used. *)
Theorem fft_base_cases (garbage : nat -> A) (x : nat) (h : list (list A))
    (a b : A) :
  (h !! x = Some [a] ->
   fft add sub mul twiddle garbage x h = (Ok (length h), h ++ [[a]])) /\
  (h !! x = Some [a; b] ->
   fft add sub mul twiddle garbage x h
   = (Ok (length h), h ++ [[add a b; sub a b]])).
Proof.
  split; intros Hx; unfold fft, run_core, heap in *; rewrite Hx; cbv zeta.
  - change (lb_exact (Z.of_nat (length [a]))) with (Ok (X := Z) 0%Z). cbv iota beta.
    change (_scrach_length 0) with (Ok (X := Z) 0%Z). cbv iota beta.
    change (0 =? 0)%Z with true. cbv iota.
    rewrite (list_lookup_middle h [] [a] (length h) eq_refl).
    cbn. rewrite insert_last. reflexivity.
  - change (lb_exact (Z.of_nat (length [a; b]))) with (Ok (X := Z) 1%Z). cbv iota beta.
    change (_scrach_length 1) with (Ok (X := Z) 0%Z). cbv iota beta.
    change (0 =? 0)%Z with true. cbv iota.
    rewrite (list_lookup_middle h [] [a; b] (length h) eq_refl).
    cbn. rewrite insert_last. reflexivity.
Qed.

End BaseCases.

(** ** The scratch requirement is exact *)

Section ShortScratch.

Context {A : Type}.
Context (add sub mul : A -> A -> A) (twiddle : nat -> nat -> A).
Implicit Types (bf : list A) (sc : option (list A)) (x : view1).

Lemma bind_raise_fst {X Y} (m : M A X) (k : X -> M A Y) s e :
  fst (m s) = Raise e -> fst (bind m k s) = Raise e.
Proof. unfold bind. destruct (m s) as [[v|e'|] s']; simpl; congruence. Qed.

Lemma for_range_first_raise n (body : nat -> M A unit) s e :
  0 < n -> fst (body 0 s) = Raise e -> fst (for_range n body s) = Raise e.
Proof.
  intros Hn H. destruct n as [|n]; [lia|]. unfold for_range. cbn [for_from].
  apply bind_raise_fst, H.
Qed.

Lemma inb3_square off n m L : off + n * (n * m) <= L -> inb3 (square_view off n m) L.
Proof.
  intros H i j l Hs. assert (Hin : In3 (square_view off n m) (pos3 (square_view off n m) i j l))
    by (exists i, j, l; auto).
  apply In3_square in Hin. lia.
Qed.

Lemma scrach_length_small (k : nat) (r : Z) :
  _scrach_length (Z.of_nat k) = Ok r -> (0 < r)%Z -> 3 <= k.
Proof.
  intros H Hr. destruct k as [|[|[|k]]]; [vm_compute in H..|lia];
    injection H as <-; lia.
Qed.

(** With a scratch argument shorter than [_scrach_length] asks for, the
    first [_deinterleave] of the recursion stops the transform. *)
Lemma short_scratch_rec :
  forall fuel k, k < fuel ->
    forall off bf sc r,
      off + 2 ^ k <= length bf ->
      _scrach_length (Z.of_nat k) = Ok r -> (0 < r)%Z ->
      (forall c, sc = Some c -> (Z.of_nat (length c) < r)%Z) ->
      fst (_fft_inplace_rec add sub mul twiddle fuel (mkView1 off (2 ^ k) 1)
             (mkState bf sc))
      = Raise (match sc with None => AttributeError | Some _ => AssertionError end).
Proof.
  induction fuel as [|fuel IH]; intros k Hk off bf sc r Hin Hr Hpos Hshort; [lia|].
  pose proof (scrach_length_small k r Hr Hpos) as Hk3.
  rewrite fft_inplace_rec_unfold.
  assert (Hcont : is_c_contiguous (mkView1 off (2 ^ k) 1) = true)
    by (unfold is_c_contiguous; apply orb_true_r).
  rewrite Hcont. change (assert true) with (@ret A _ tt). rewrite bind_ret.
  cbv zeta. cbn [vlen].
  assert (H8 : 2 ^ 3 <= 2 ^ k) by (apply Nat.pow_le_mono_r; lia).
  change (2 ^ 3) with 8 in H8.
  destruct (Nat.eqb_spec (2 ^ k) 1) as [?|_]; [lia|].
  destruct (Nat.eqb_spec (2 ^ k) 2) as [?|_]; [lia|].
  rewrite (bind_ok _ _ _ (Z.of_nat k) (mkState bf sc))
    by (unfold lift; rewrite lb_exact_of_nat_pow2; reflexivity).
  rewrite land_1_odd.
  pose proof (pow2_pos (k / 2)) as Hcpos.
  destruct (Nat.odd k) eqn:Hodd.
  - (* odd power: the first row pair is deinterleaved at once *)
    unfold _fft_inplace_oddpow. cbn [vlen].
    rewrite (bind_ok _ _ _ (Z.of_nat k) (mkState bf sc))
      by (unfold lift; rewrite lb_exact_of_nat_pow2; reflexivity).
    rewrite half_pow.
    pose proof (pow2_odd_half k Hodd) as Hcr.
    assert (Hrc : r = Z.of_nat (2 ^ (k / 2))).
    { pose proof Hodd as Hj. apply Nat.odd_spec in Hj as [j Hj].
      assert (Hdiv : k / 2 = j) by (subst k; symmetry; apply (Nat.div_unique _ 2 j 1); lia).
      rewrite scrach_length_odd in Hr.
      - injection Hr as <-. rewrite Hdiv, Nat2Z.inj_pow. f_equal.
        subst k. rewrite Nat2Z.inj_add, Nat2Z.inj_mul.
        change (Z.of_nat 2) with 2%Z. change (Z.of_nat 1) with 1%Z.
        replace (2 * Z.of_nat j + 1 - 1)%Z with (Z.of_nat j * 2)%Z by lia.
        apply Z.div_mul. lia.
      - lia.
      - subst k. rewrite Nat2Z.inj_add, Nat2Z.inj_mul.
        change (Z.of_nat 2) with 2%Z. change (Z.of_nat 1) with 1%Z.
        rewrite Z.add_comm, Z.mul_comm, Z.mod_add by lia. reflexivity. }
    set (c := 2 ^ (k / 2)) in *.
    replace (Nat.shiftl c 1) with (c * 2)
      by (rewrite Nat.shiftl_mul_pow2; reflexivity).
    rewrite (bind_ok _ _ _ (square_view off c 2) (mkState bf sc)).
    2:{ unfold reshape3. cbn [vlen voff vstride].
        replace (c * c * 2) with (2 ^ k) by lia.
        rewrite Nat.eqb_refl. reflexivity. }
    cbn [sh0 square_view].
    destruct (transpose_square_ok (k / 2) (square_view off c 2) bf sc)
      as (bf1 & E1 & L1 & _); try reflexivity.
    { apply inj3_square. }
    { apply inb3_square. lia. }
    step E1. apply bind_raise_fst, for_range_first_raise; [exact Hcpos|].
    rewrite row_flat_square, bind_ret. apply bind_raise_fst.
    unfold _deinterleave.
    unfold bind, scratch_len. cbn [scratch vlen].
    destruct sc as [c0|]; [|reflexivity].
    rewrite Nat.Div0.mod_mul. change (0 =? 0) with true.
    change (assert true) with (@ret A _ tt). cbn [ret].
    rewrite Nat.div_mul by lia.
    specialize (Hshort c0 eq_refl).
    destruct (Nat.leb_spec c (length c0)) as [Hle|_]; [lia|]. reflexivity.
  - (* even power: the first row is a transform of length [2 ^ (k / 2)] *)
    assert (Hev : Nat.even k = true) by (rewrite <- Nat.negb_odd, Hodd; reflexivity).
    unfold _fft_inplace_evenpow. cbn [vlen].
    rewrite (bind_ok _ _ _ (Z.of_nat k) (mkState bf sc))
      by (unfold lift; rewrite lb_exact_of_nat_pow2; reflexivity).
    rewrite half_pow.
    pose proof (pow2_even_half k Hev) as Hnn.
    assert (Hr' : _scrach_length (Z.of_nat (k / 2)) = Ok r).
    { pose proof Hev as Hj. apply Nat.even_spec in Hj as [j Hj].
      assert (Hdiv : k / 2 = j)
        by (subst k; rewrite Nat.mul_comm, Nat.div_mul; lia).
      rewrite Hdiv. rewrite <- Hr. subst k. rewrite Nat2Z.inj_mul.
      change (Z.of_nat 2) with 2%Z. symmetry. apply scrach_length_double. lia. }
    set (n := 2 ^ (k / 2)) in *.
    rewrite (bind_ok _ _ _ (square_view off n 1) (mkState bf sc)).
    2:{ unfold reshape3. cbn [vlen voff vstride].
        replace (n * n * 1) with (2 ^ k) by lia.
        rewrite Nat.eqb_refl. reflexivity. }
    cbn [sh0 square_view].
    destruct (transpose_square_ok (k / 2) (square_view off n 1) bf sc)
      as (bf1 & E1 & L1 & _); try reflexivity.
    { apply inj3_square. }
    { apply inb3_square. lia. }
    step E1. apply bind_raise_fst, for_range_first_raise; [exact Hcpos|].
    apply bind_raise_fst. rewrite row_of_square.
    apply (IH (k / 2)) with (r := r); try assumption.
    + assert (k / 2 < k) by (apply Nat.div_lt; lia). lia.
    + fold n. rewrite L1. nia.
Qed.

(** X17: [_scrach_length] is exactly what the core needs.  On a
    contiguous view of [2 ^ k] cells that lies in the buffer,
    [_fft_inplace] returns normally if and only if the scratch argument
    is what [_scrach_length k] asks for ([None] for 0, an array of at
    least that many cells otherwise); with a shorter array it raises
    [AssertionError], with [None] in place of an array
    [AttributeError]. *)
Theorem scratch_requirement_exact x bf sc (k : nat) :
  vlen x = 2 ^ k -> vstride x = 1 -> voff x + 2 ^ k <= length bf ->
  (fst (_fft_inplace add sub mul twiddle x (mkState bf sc)) = Ok tt
   <-> fits k (shape_of sc)) /\
  (~ fits k (shape_of sc) ->
   fst (_fft_inplace add sub mul twiddle x (mkState bf sc))
   = Raise (match sc with None => AttributeError | Some _ => AssertionError end)).
Proof.
  intros Hlen Hst Hin.
  assert (Hfail : ~ fits k (shape_of sc) ->
    fst (_fft_inplace add sub mul twiddle x (mkState bf sc))
    = Raise (match sc with None => AttributeError | Some _ => AssertionError end)).
  { intros Hnf.
    destruct (scrach_length_bound (Z.of_nat k) ltac:(lia)) as (r & Hr & Hb).
    assert (Hpos : (0 < r)%Z).
    { destruct Hb as [->|[? _]]; [|assumption]. exfalso. apply Hnf.
      destruct sc as [c|]; simpl; [|exact Hr]. exists 0%Z. split; [exact Hr|lia]. }
    destruct x as [off len st]. cbn [vlen vstride voff] in *. subst len st.
    unfold _fft_inplace. cbn [vlen].
    apply (short_scratch_rec (S (2 ^ k)) k) with (r := r); try assumption.
    - pose proof (pow2_gt k). lia.
    - intros c ->. destruct (Z.lt_ge_cases (Z.of_nat (length c)) r) as [H|H];
        [exact H|]. exfalso. apply Hnf. simpl. exists r. split; [exact Hr|lia]. }
  split; [|exact Hfail]. split.
  - intros Hok.
    destruct (scrach_length_bound (Z.of_nat k) ltac:(lia)) as (r & Hr & _).
    assert (Hdec : fits k (shape_of sc) \/ ~ fits k (shape_of sc)).
    { destruct sc as [c|]; simpl.
      - destruct (Z.le_gt_cases r (Z.of_nat (length c))) as [H|H].
        + left. exists r. auto.
        + right. intros (r' & Hr' & Hle). rewrite Hr in Hr'.
          injection Hr' as <-. lia.
      - destruct (Z.eq_dec r 0%Z) as [->|Hne]; [left; exact Hr|].
        right. intros Hr'. rewrite Hr in Hr'. injection Hr' as ->. lia. }
    destruct Hdec as [Hfit|Hnf]; [exact Hfit|].
    rewrite (Hfail Hnf) in Hok. discriminate.
  - intros Hfit. unfold _fft_inplace. rewrite Hlen.
    destruct (fft_inplace_spec add sub mul twiddle (S (2 ^ k)) k
                ltac:(pose proof (pow2_gt k); lia) x bf sc
                (fun t => match bf !! (voff x + t) with
                          | Some v => v
                          | None => add (twiddle 0 0) (twiddle 0 0)
                          end) Hlen Hst)
      as (bf' & sc' & E & _).
    { intros i Hi.
      destruct (lookup_lt_is_Some_2 bf (voff x + i) ltac:(lia)) as [v Hv].
      rewrite Hv. reflexivity. }
    { exact Hfit. }
    rewrite E. reflexivity.
Qed.

End ShortScratch.

Lemma scratch_requirement_exact_witness :
  (fst (_fft_inplace Nat.add Nat.sub Nat.mul (fun _ _ => 1) (mkView1 0 8 1)
          (mkState [1; 2; 3; 4; 5; 6; 7; 8] (Some [0]))) = Ok tt
   <-> fits 3 (shape_of (Some [0]))) /\
  (~ fits 3 (shape_of (Some [0])) ->
   fst (_fft_inplace Nat.add Nat.sub Nat.mul (fun _ _ => 1) (mkView1 0 8 1)
          (mkState [1; 2; 3; 4; 5; 6; 7; 8] (Some [0])))
   = Raise AssertionError).
Proof.
  apply (scratch_requirement_exact Nat.add Nat.sub Nat.mul (fun _ _ => 1)
           (mkView1 0 8 1) [1; 2; 3; 4; 5; 6; 7; 8] (Some [0]) 3).
  - reflexivity.
  - reflexivity.
  - simpl. lia.
Defined.

(** ** [_scrach_length] below zero *)

Lemma halve_while_even_negative (fuel : nat) (n : Z) :
  (n < 0)%Z -> Z.to_nat (Z.abs n) < fuel ->
  exists n', halve_while_even fuel n = Some n' /\ (n' < 0)%Z.
Proof.
  revert n. induction fuel as [|fuel IH]; intros n Hn Hfuel; [lia|].
  cbn [halve_while_even]. rewrite land_1, shiftr_1.
  destruct (Z.eqb_spec (n mod 2) 0) as [Heven|Hodd]; [|eauto].
  pose proof (Z.div_mod n 2 ltac:(lia)) as Hdm.
  apply IH; lia.
Qed.

(** X18: [_scrach_length] of a negative number raises [ValueError]:
    halving keeps the sign, the odd number the loop ends on is at most
    [-1], and [1 << lb_res] is asked for a negative shift count. *)
Theorem scrach_length_negative (k : Z) :
  (k < 0)%Z -> _scrach_length k = Raise ValueError.
Proof.
  intros Hk. unfold _scrach_length.
  destruct (Z.eqb_spec k 0) as [?|_]; [lia|].
  destruct (halve_while_even_negative (S (Z.to_nat (Z.abs k))) k Hk ltac:(lia))
    as (k' & -> & Hk').
  cbv zeta. rewrite shiftr_1.
  assert (Hres : ((k' - 1) / 2 < 0)%Z) by (apply Z.div_lt_upper_bound; lia).
  destruct (Z.eqb_spec ((k' - 1) / 2) 0) as [?|_]; [lia|].
  destruct (Z.ltb_spec ((k' - 1) / 2) 0) as [_|?]; [reflexivity|lia].
Qed.

Lemma scrach_length_negative_witness : _scrach_length (-6) = Raise ValueError.
Proof. apply (scrach_length_negative (-6)). lia. Defined.

(** ** One step of the recursion *)

Section Step.

Context {A : Type}.
Context (zero one : A) (add mul sub : A -> A -> A) (opp : A -> A).
Context (twiddle : nat -> nat -> A).

Hypothesis Rth : ring_theory zero one add mul sub opp (@eq A).
Hypothesis tw_0 : forall n, twiddle 0 n = one.
Hypothesis tw_add :
  forall a b n, twiddle (a + b) n = mul (twiddle a n) (twiddle b n).
Hypothesis tw_period : forall n, 0 < n -> twiddle n n = one.
Hypothesis tw_scale :
  forall c a n, 0 < c -> 0 < n -> twiddle (c * a) (c * n) = twiddle a n.
Hypothesis tw_half : twiddle 1 2 = opp one.

Local Abbreviation DFT := (dft zero add mul twiddle).

Lemma rec_ok_ext (rec : view1 -> M A unit) (R R' : (nat -> A) -> nat -> A) k :
  (forall f j, j < 2 ^ k -> R f j = R' f j) ->
  rec_ok rec R k -> rec_ok rec R' k.
Proof.
  intros E H x bf sc f Hlen Hst Hf Hfit.
  destruct (H x bf sc f Hlen Hst Hf Hfit) as (bf' & sc' & Er & Hs & Ho & Hsh).
  exists bf', sc'. split; [exact Er|]. split; [|auto].
  eapply seg_ext; [|exact Hs]. intros i Hi. apply E, Hi.
Qed.

(** The function of the even variant is the DFT when the function of the
    rows is. *)
Lemma even_fun_dft (R : (nat -> A) -> nat -> A) k :
  Nat.even k = true ->
  (forall f j, j < 2 ^ (k / 2) -> R f j = DFT (2 ^ (k / 2)) f j) ->
  forall f j, j < 2 ^ k -> even_fun mul twiddle R k f j = DFT (2 ^ k) f j.
Proof.
  intros Hev HR f j Hj.
  pose proof (pow2_even_half k Hev) as HN.
  unfold even_fun. cbv zeta.
  set (n := 2 ^ (k / 2)) in *.
  assert (Hn : 0 < n) by apply pow2_pos.
  assert (Hjn : j mod n < n) by (apply Nat.mod_upper_bound; lia).
  assert (Hd : j / n < n).
  { apply Nat.Div0.div_lt_upper_bound. lia. }
  rewrite HR by lia.
  rewrite <- HN.
  replace (DFT (n * n) f j)
    with (DFT (n * n) f (j / n * n + j mod n))
    by (f_equal; pose proof (Nat.div_mod_eq j n); lia).
  rewrite (dft_split zero one add mul sub opp twiddle Rth tw_0 tw_add
             tw_period tw_scale) by lia.
  apply (dft_ext zero add mul twiddle). intros b Hb. rewrite HR by lia.
  reflexivity.
Qed.

Lemma odd_fun_dft (Rc Rr : (nat -> A) -> nat -> A) k :
  Nat.odd k = true ->
  (forall f j, j < 2 ^ (k / 2) -> Rc f j = DFT (2 ^ (k / 2)) f j) ->
  (forall f j, j < 2 ^ (k / 2 + 1) -> Rr f j = DFT (2 ^ (k / 2 + 1)) f j) ->
  forall f j, j < 2 ^ k -> odd_fun mul twiddle Rc Rr k f j = DFT (2 ^ k) f j.
Proof.
  intros Hodd HRc HRr f j Hj.
  pose proof (pow2_odd_half k Hodd) as HN.
  unfold odd_fun. cbv zeta.
  assert (Hr : 2 ^ (k / 2 + 1) = 2 ^ (k / 2) * 2)
    by (rewrite Nat.pow_add_r; reflexivity).
  rewrite Hr in HRr.
  set (c := 2 ^ (k / 2)) in *.
  assert (Hc : 0 < c) by apply pow2_pos.
  assert (Hjc : j mod c < c) by (apply Nat.mod_upper_bound; lia).
  assert (Hd : j / c < c * 2).
  { apply Nat.Div0.div_lt_upper_bound. lia. }
  rewrite HRr by lia.
  rewrite <- HN.
  replace (DFT (c * (c * 2)) f j)
    with (DFT (c * (c * 2)) f (j / c * c + j mod c))
    by (f_equal; pose proof (Nat.div_mod_eq j c); lia).
  rewrite (dft_split zero one add mul sub opp twiddle Rth tw_0 tw_add
             tw_period tw_scale) by lia.
  apply (dft_ext zero add mul twiddle). intros b Hb. rewrite HRc by lia.
  reflexivity.
Qed.

(** X19: Each variant is one step of the four-step FFT, whatever
    transforms its rows: if [rec] replaces every contiguous view of
    [2 ^ (k / 2)] cells (and, for odd [k], of [2 ^ (k / 2 + 1)] cells) by
    its DFT, then the variant for the parity of [k] replaces a contiguous
    view of [2 ^ k] cells by its DFT, touching no other cell. *)
Theorem variant_is_fft_step (rec : view1 -> M A unit) (k : nat) :
  2 <= k ->
  rec_ok rec (DFT (2 ^ (k / 2))) (k / 2) ->
  (Nat.odd k = true -> rec_ok rec (DFT (2 ^ (k / 2 + 1))) (k / 2 + 1)) ->
  rec_ok (if Nat.odd k
          then _fft_inplace_oddpow mul twiddle rec
          else _fft_inplace_evenpow mul twiddle rec)
         (DFT (2 ^ k)) k.
Proof.
  intros Hk Hc Hr. destruct (Nat.odd k) eqn:Hodd.
  - assert (Hk3 : 3 <= k).
    { apply Nat.odd_spec in Hodd as [q Hq]. lia. }
    eapply rec_ok_ext;
      [|apply (oddpow_spec mul twiddle rec _ _ k Hk3 Hodd Hc (Hr eq_refl))].
    intros f j Hj. apply odd_fun_dft; auto.
  - assert (Hev : Nat.even k = true)
      by (rewrite <- Nat.negb_odd, Hodd; reflexivity).
    eapply rec_ok_ext; [|apply (evenpow_spec mul twiddle rec _ k Hk Hev Hc)].
    intros f j Hj. apply even_fun_dft; auto.
Qed.

End Step.

Lemma variant_is_fft_step_witness :
  rec_ok (_fft_inplace_evenpow Cx.Cmul Cx.cexp
            (_fft_inplace_rec Cx.Cadd Cx.Csub Cx.Cmul Cx.cexp 2))
         (dft Cx.C0 Cx.Cadd Cx.Cmul Cx.cexp (2 ^ 2)) 2.
Proof.
  apply (variant_is_fft_step Cx.C0 Cx.C1 Cx.Cadd Cx.Cmul Cx.Csub Cx.Copp
           Cx.cexp CxFacts.C_ring CxFacts.cexp_0 CxFacts.cexp_add CxFacts.cexp_period
           CxFacts.cexp_scale
           (_fft_inplace_rec Cx.Cadd Cx.Csub Cx.Cmul Cx.cexp 2) 2).
  - lia.
  - apply (rec_ok_ext _ (fft_fun Cx.Cadd Cx.Csub Cx.Cmul Cx.cexp 2 1));
      [|apply (fft_inplace_spec Cx.Cadd Cx.Csub Cx.Cmul Cx.cexp 2 1); lia].
    intros f j Hj.
    apply (fft_fun_dft Cx.C0 Cx.C1 Cx.Cadd Cx.Cmul Cx.Csub Cx.Copp Cx.cexp
             CxFacts.C_ring CxFacts.cexp_0 CxFacts.cexp_add CxFacts.cexp_period CxFacts.cexp_scale
             CxFacts.cexp_half); [simpl; lia|exact Hj].
  - discriminate.
Defined.

(** ** The state a failed transform leaves *)

Section FailureState.

Context {A : Type}.
Context (add sub mul : A -> A -> A) (twiddle : nat -> nat -> A).
Implicit Types (bf : list A) (sc : option (list A)) (x : view1).

Lemma for_range_first_raise_state n (body : nat -> M A unit) s e s' :
  0 < n -> body 0 s = (Raise e, s') -> for_range n body s = (Raise e, s').
Proof.
  intros Hn H. destruct n as [|n]; [lia|]. unfold for_range. cbn [for_from].
  apply bind_raise, H.
Qed.

(** X20: the core does not restore the array when it fails.  On a
    contiguous view of [2 ^ k] cells, [k] odd and at least 3, with no
    scratch array or one shorter than [col_len = 2 ^ (k / 2)], the
    exception of the first [_deinterleave] leaves the view transposed as
    a [col_len x col_len] matrix of pairs: pair [(i, j)] holds what pair
    [(j, i)] held; cells outside the view and the scratch argument are
    unchanged. *)
Theorem fft_inplace_failure_not_restored x bf sc (k : nat) :
  vlen x = 2 ^ k -> vstride x = 1 -> voff x + 2 ^ k <= length bf ->
  3 <= k -> Nat.odd k = true ->
  (forall c, sc = Some c -> length c < 2 ^ (k / 2)) ->
  exists bf',
    _fft_inplace add sub mul twiddle x (mkState bf sc)
    = (Raise (match sc with None => AttributeError | Some _ => AssertionError end),
       mkState bf' sc) /\
    length bf' = length bf /\
    (forall i j l, i < 2 ^ (k / 2) -> j < 2 ^ (k / 2) -> l < 2 ->
       bf' !! (voff x + i * (2 ^ (k / 2) * 2) + (j * 2 + l))
       = bf !! (voff x + j * (2 ^ (k / 2) * 2) + (i * 2 + l))) /\
    (forall p, p < voff x \/ voff x + 2 ^ k <= p -> bf' !! p = bf !! p).
Proof.
  intros Hlen Hst Hin Hk3 Hodd Hshort.
  destruct x as [off len st]. cbn [vlen vstride voff] in *. subst len st.
  unfold _fft_inplace. cbn [vlen]. rewrite fft_inplace_rec_unfold.
  assert (Hcont : is_c_contiguous (mkView1 off (2 ^ k) 1) = true)
    by (unfold is_c_contiguous; apply orb_true_r).
  rewrite Hcont. change (assert true) with (@ret A _ tt). rewrite bind_ret.
  cbv zeta. cbn [vlen].
  assert (H8 : 2 ^ 3 <= 2 ^ k) by (apply Nat.pow_le_mono_r; lia).
  change (2 ^ 3) with 8 in H8.
  destruct (Nat.eqb_spec (2 ^ k) 1) as [?|_]; [lia|].
  destruct (Nat.eqb_spec (2 ^ k) 2) as [?|_]; [lia|].
  rewrite (bind_ok _ _ _ (Z.of_nat k) (mkState bf sc))
    by (unfold lift; rewrite lb_exact_of_nat_pow2; reflexivity).
  rewrite land_1_odd, Hodd.
  unfold _fft_inplace_oddpow. cbn [vlen].
  rewrite (bind_ok _ _ _ (Z.of_nat k) (mkState bf sc))
    by (unfold lift; rewrite lb_exact_of_nat_pow2; reflexivity).
  rewrite half_pow.
  pose proof (pow2_odd_half k Hodd) as Hcr.
  pose proof (pow2_pos (k / 2)) as Hcpos.
  set (c := 2 ^ (k / 2)) in *.
  replace (Nat.shiftl c 1) with (c * 2)
    by (rewrite Nat.shiftl_mul_pow2; reflexivity).
  rewrite (bind_ok _ _ _ (square_view off c 2) (mkState bf sc)).
  2:{ unfold reshape3. cbn [vlen voff vstride].
      replace (c * c * 2) with (2 ^ k) by lia.
      rewrite Nat.eqb_refl. reflexivity. }
  cbn [sh0 square_view].
  destruct (transpose_square_ok (k / 2) (square_view off c 2) bf sc)
    as (bf1 & E1 & L1 & M1 & F1); try reflexivity.
  { apply inj3_square. }
  { apply inb3_square. lia. }
  step E1. exists bf1. split; [|split; [exact L1|split]].
  - apply bind_raise, for_range_first_raise_state; [exact Hcpos|].
    rewrite row_flat_square, bind_ret. apply bind_raise.
    unfold _deinterleave, bind, scratch_len. cbn [scratch vlen].
    destruct sc as [c0|]; [|reflexivity].
    rewrite Nat.Div0.mod_mul. change (0 =? 0) with true.
    change (assert true) with (@ret A _ tt). cbn [ret].
    rewrite Nat.div_mul by lia.
    specialize (Hshort c0 eq_refl).
    destruct (Nat.leb_spec c (length c0)) as [Hle|_]; [lia|]. reflexivity.
  - intros i j l Hi Hj Hl.
    rewrite <- !pos3_square. apply M1. exists i, j, l.
    split; [|split; reflexivity]. unfold in_shape. simpl. auto.
  - intros p Hp. apply F1. intros Hin3. apply In3_square in Hin3. lia.
Qed.

End FailureState.

Lemma fft_inplace_failure_not_restored_witness :
  exists bf',
    _fft_inplace Nat.add Nat.sub Nat.mul (fun _ _ => 1) (mkView1 0 8 1)
      (mkState [1; 2; 3; 4; 5; 6; 7; 8] (Some [0]))
    = (Raise AssertionError, mkState bf' (Some [0])) /\
    length bf' = 8 /\
    (forall i j l, i < 2 ^ (3 / 2) -> j < 2 ^ (3 / 2) -> l < 2 ->
       bf' !! (0 + i * (2 ^ (3 / 2) * 2) + (j * 2 + l))
       = [1; 2; 3; 4; 5; 6; 7; 8] !! (0 + j * (2 ^ (3 / 2) * 2) + (i * 2 + l))) /\
    (forall p, p < 0 \/ 0 + 2 ^ 3 <= p ->
       bf' !! p = [1; 2; 3; 4; 5; 6; 7; 8] !! p).
Proof.
  apply (fft_inplace_failure_not_restored Nat.add Nat.sub Nat.mul
           (fun _ _ => 1) (mkView1 0 8 1) [1; 2; 3; 4; 5; 6; 7; 8]
           (Some [0]) 3).
  - reflexivity.
  - reflexivity.
  - simpl. lia.
  - lia.
  - reflexivity.
  - intros c [= <-]. simpl. lia.
Defined.

